(** * Aether: lexer, recursive-descent parser and tree-walking interpreter

    A shallow embedding of [aether.py].

    - Source text is a [string]: its characters are the code points 0..255,
      where the only digits are [0]..[9].
    - Python's [float] is the kernel's binary64 [float]; the conversion of a
      decimal literal rounds to the nearest binary64, as the builtin does.
    - The dictionary [globals] of the interpreter is a [gmap string PyValue].
    - Python exceptions are values of [exception], carried by [outcome].
    - The scan of [re.finditer] and the descent of the parser take a fuel
      argument; the entry points [lex] and [parse_statement] set it from the
      size of their input, and it is proved never to run out
      ([lex_total], [parse_statement_total]).  The recursion limit of the
      Python interpreter is not modelled.

    The file has five parts: the program, the notions used in the
    statements, the lemmas, the statements of the specification, and
    further properties of the code. *)

From Stdlib Require Import ZArith QArith Floats SpecFloat Ascii.
From stdpp Require Import gmap strings list.

(** * The program *)

(** ** Results of a call: a value, a Python exception, or no fuel left *)

Inductive exception : Type :=
| SyntaxError (msg : string)
| NameError (msg : string)
| AttributeError
| TypeError
| ZeroDivisionError
| ValueError.

Inductive outcome (A : Type) : Type :=
| Return (a : A)
| Raise (e : exception)
| OutOfFuel.

Arguments Return {A} a.
Arguments Raise {A} e.
Arguments OutOfFuel {A}.

Definition is_returned {A} (r : outcome A) : bool :=
  match r with Return _ => true | _ => false end.

(** ** Lexer *)

Inductive TokenType : Type :=
| NUMBER | STRING | ASSIGN | EQUALS | PLUS | MINUS | MUL | DIV
| LPAREN | RPAREN | IDENT | NEWLINE | SKIP | ERROR.

#[global] Instance TokenType_eq_dec : EqDecision TokenType.
Proof. solve_decision. Defined.

(** The group name, as [match.lastgroup] gives it and as [consume] prints it. *)
Definition type_name (t : TokenType) : string :=
  match t with
  | NUMBER => "NUMBER" | STRING => "STRING" | ASSIGN => "ASSIGN"
  | EQUALS => "EQUALS" | PLUS => "PLUS" | MINUS => "MINUS" | MUL => "MUL"
  | DIV => "DIV" | LPAREN => "LPAREN" | RPAREN => "RPAREN"
  | IDENT => "IDENT" | NEWLINE => "NEWLINE" | SKIP => "SKIP"
  | ERROR => "ERROR"
  end.

(** The tokens that [lex] builds: the type is one of the fourteen group
    names and the value a string.  (The class itself takes any two objects.) *)
Record Token : Type := mkToken { type : TokenType; value : string }.

#[global] Instance Token_eq_dec : EqDecision Token.
Proof. solve_decision. Defined.

(** [Token.__repr__], the f-string [Token({self.type}, {self.value})], on a
    token whose type and value are the strings [type_text] and
    [value_text]. *)
Definition Token_repr_of (type_text value_text : string) : string :=
  "Token(" +:+ type_text +:+ ", " +:+ value_text +:+ ")".

(** [Token.__repr__] on a token of [lex]. *)
Definition Token_repr (self : Token) : string :=
  Token_repr_of (type_name (type self)) (value self).

(** Character classes of the patterns. *)

Definition char_between (lo hi c : ascii) : bool :=
  (N.leb (N_of_ascii lo) (N_of_ascii c)) && (N.leb (N_of_ascii c) (N_of_ascii hi)).

(** [\d] *)
Definition is_digit (c : ascii) : bool := char_between "0" "9" c.

(** [[a-zA-Z_]] *)
Definition is_ident_start (c : ascii) : bool :=
  char_between "a" "z" c || char_between "A" "Z" c || Ascii.eqb c "_".

(** [[a-zA-Z0-9_]] *)
Definition is_ident_char (c : ascii) : bool :=
  is_ident_start c || is_digit c.

(** [[ \t]] *)
Definition is_blank (c : ascii) : bool :=
  Ascii.eqb c " " || Ascii.eqb c "009".

Definition quote : ascii := "034".
Definition newline : ascii := "010".

(** Any character but the double quote (the class of the STRING body). *)
Definition is_not_quote (c : ascii) : bool := negb (Ascii.eqb c quote).

(** A pattern tried at the start of [s] gives the text it matched and the
    text left. *)
Definition pattern : Type := string → option (string * string).

(** [cls*], greedy: the longest run of characters of the class. *)
Fixpoint many (cls : ascii → bool) (s : string) : string * string :=
  match s with
  | String c s' =>
      if cls c then let '(m, r) := many cls s' in (String c m, r)
      else ("", s)
  | EmptyString => ("", "")
  end.

(** A literal text such as [:=] or [\+]. *)
Fixpoint literal (lit : string) : pattern := fun s =>
  match lit with
  | EmptyString => Some ("", s)
  | String a lit' =>
      match s with
      | String c s' =>
          if Ascii.eqb a c then
            match literal lit' s' with
            | Some (m, r) => Some (String a m, r)
            | None => None
            end
          else None
      | EmptyString => None
      end
  end.

(** [\d+(\.\d+)?] *)
Definition re_NUMBER : pattern := fun s =>
  match many is_digit s with
  | (EmptyString, _) => None
  | (whole, rest) =>
      match rest with
      | String "." rest' =>
          match many is_digit rest' with
          | (EmptyString, _) => Some (whole, rest)
          | (frac, rest'') => Some (whole +:+ String "." frac, rest'')
          end
      | _ => Some (whole, rest)
      end
  end.

(** A double quote, any characters but the double quote, a double quote. *)
Definition re_STRING : pattern := fun s =>
  match s with
  | String c s' =>
      if Ascii.eqb c quote then
        match many is_not_quote s' with
        | (body, String q rest) => Some (String c (body +:+ String q ""), rest)
        | (_, EmptyString) => None
        end
      else None
  | EmptyString => None
  end.

(** [[a-zA-Z_][a-zA-Z0-9_]*] *)
Definition re_IDENT : pattern := fun s =>
  match s with
  | String c s' =>
      if is_ident_start c then
        let '(m, r) := many is_ident_char s' in Some (String c m, r)
      else None
  | EmptyString => None
  end.

(** [[ \t]+] *)
Definition re_SKIP : pattern := fun s =>
  match many is_blank s with
  | (EmptyString, _) => None
  | (m, r) => Some (m, r)
  end.

(** [.]: any character but a newline. *)
Definition re_ERROR : pattern := fun s =>
  match s with
  | String c s' => if Ascii.eqb c newline then None else Some (String c "", s')
  | EmptyString => None
  end.

Definition TOKEN_TYPES : list (TokenType * pattern) :=
  [ (NUMBER, re_NUMBER);
    (STRING, re_STRING);
    (ASSIGN, literal ":=");
    (EQUALS, literal "=");
    (PLUS, literal "+");
    (MINUS, literal "-");
    (MUL, literal "*");
    (DIV, literal "/");
    (LPAREN, literal "(");
    (RPAREN, literal ")");
    (IDENT, re_IDENT);
    (NEWLINE, literal (String newline ""));
    (SKIP, re_SKIP);
    (ERROR, re_ERROR) ].

(** The joined regex [(?P<NUMBER>...)|(?P<STRING>...)|...] tried at the start
    of [s]: the first alternative that matches wins, and its name is
    [lastgroup]. *)
Fixpoint alternation (alts : list (TokenType * pattern)) (s : string)
  : option (TokenType * string * string) :=
  match alts with
  | [] => None
  | (name, pat) :: alts' =>
      match pat s with
      | Some (m, rest) => Some (name, m, rest)
      | None => alternation alts' s
      end
  end.

Definition regex : string → option (TokenType * string * string) :=
  alternation TOKEN_TYPES.

(** One step of [re.finditer]: the next match at or after the start of [s]
    (a position where nothing matches is passed over). *)
Fixpoint finditer_next (s : string) : option (TokenType * string * string) :=
  match regex s with
  | Some m => Some m
  | None =>
      match s with
      | String _ s' => finditer_next s'
      | EmptyString => None
      end
  end.

(** The [for match in re.finditer(regex, code)] loop of [lex]. *)
Fixpoint lex_loop (fuel : nat) (code : string) (tokens : list Token)
  : outcome (list Token) :=
  match fuel with
  | O => OutOfFuel
  | S fuel' =>
      match finditer_next code with
      | None => Return tokens
      | Some (kind, value, rest) =>
          match kind with
          | SKIP => lex_loop fuel' rest tokens
          | ERROR => Raise (SyntaxError ("Illegal character: " +:+ value))
          | _ => lex_loop fuel' rest (tokens ++ [mkToken kind value])
          end
      end
  end.

Definition lex (code : string) : outcome (list Token) :=
  lex_loop (S (String.length code)) code [].

(** ** Python values and arithmetic *)

(** What [visit] returns and what [globals] holds: a float, or [None] (the
    value of a call that falls off the end of [visit]). *)
Inductive PyValue : Type :=
| PyFloat (x : float)
| PyNone.

(** The binary64 number nearest to [n / d] (ties to even). *)
Definition nearest_float (n : Z) (d : positive) : float :=
  match n with
  | Zpos p => SF2Prim (SFdiv prec emax (S754_finite false p 0) (S754_finite false d 0))
  | _ => 0%float
  end.

Definition digit_value (c : ascii) : Z := Z.of_N (N_of_ascii c) - 48.

Fixpoint decimal_value (acc : Z) (digits : string) : Z :=
  match digits with
  | String c digits' => decimal_value (10 * acc + digit_value c) digits'
  | EmptyString => acc
  end.

(** A decimal literal, digits or digits, a point and digits, as the
    fraction [n / d] it denotes ([d] a power of ten). *)
Definition parse_decimal (s : string) : option (Z * positive) :=
  match many is_digit s with
  | (EmptyString, _) => None
  | (whole, EmptyString) => Some (decimal_value 0 whole, 1%positive)
  | (whole, String "." rest) =>
      match many is_digit rest with
      | (EmptyString, _) => None
      | (frac, EmptyString) =>
          Some (decimal_value 0 (whole +:+ frac),
                Pos.pow 10 (Pos.of_nat (String.length frac)))
      | (_, String _ _) => None
      end
  | (_, String _ _) => None
  end.

(** The builtin [float] on the texts [Num] gives it, the lexemes of NUMBER
    tokens: the decimal number rounded to the nearest binary64.  On any
    other text the model answers [None], which [Num] turns into ValueError;
    [lex] never produces such a NUMBER token. *)
Definition py_float (s : string) : option float :=
  match parse_decimal s with
  | Some (n, d) => Some (nearest_float n d)
  | None => None
  end.

(** [left + right], [left - right], [left * right] on Python values: float
    arithmetic on two floats, TypeError when an operand is [None]. *)
Definition float_binop (f : float → float → float) (left right : PyValue)
  : outcome PyValue :=
  match left, right with
  | PyFloat x, PyFloat y => Return (PyFloat (f x y))
  | _, _ => Raise TypeError
  end.

Definition py_add : PyValue → PyValue → outcome PyValue := float_binop PrimFloat.add.
Definition py_sub : PyValue → PyValue → outcome PyValue := float_binop PrimFloat.sub.
Definition py_mul : PyValue → PyValue → outcome PyValue := float_binop PrimFloat.mul.

(** [left / right]: Python's float division raises ZeroDivisionError when the
    divisor compares equal to zero (either sign). *)
Definition py_truediv (left right : PyValue) : outcome PyValue :=
  match left, right with
  | PyFloat x, PyFloat y =>
      if PrimFloat.eqb y 0%float then Raise ZeroDivisionError
      else Return (PyFloat (PrimFloat.div x y))
  | _, _ => Raise TypeError
  end.

(** ** Abstract syntax *)

(** The four node classes, and [NoNode] for the [None] that [parse_factor]
    returns when none of its tests holds. *)
Inductive ASTNode : Type :=
| BinOp (left : ASTNode) (op : TokenType) (right : ASTNode)
| Num (value : float)
| Var (name : string)
| Assign (name : string) (value : ASTNode) (is_decl : bool)
| NoNode.

(** ** Parser *)

Record Parser : Type := mkParser { tokens : list Token; pos : nat }.

#[global] Instance outcome_bind : MBind outcome := fun A B k m =>
  match m with
  | Return a => k a
  | Raise e => Raise e
  | OutOfFuel => OutOfFuel
  end.

#[global] Instance outcome_fmap : FMap outcome := fun A B f m =>
  match m with
  | Return a => Return (f a)
  | Raise e => Raise e
  | OutOfFuel => OutOfFuel
  end.

(** [self.pos += 1] *)
Definition advance (self : Parser) : Parser :=
  {| tokens := tokens self; pos := S (pos self) |}.

(** [consume]: at the end of the tokens it returns [None], whatever type is
    expected. *)
Definition consume (expected_type : option TokenType) (self : Parser)
  : outcome (option Token * Parser) :=
  match tokens self !! pos self with
  | Some token =>
      match expected_type with
      | Some expected =>
          if bool_decide (type token ≠ expected) then
            Raise (SyntaxError ("Expected " +:+ type_name expected +:+ ", got "
                                +:+ type_name (type token)))
          else Return (Some token, advance self)
      | None => Return (Some token, advance self)
      end
  | None => Return (None, self)
  end.

Definition peek (self : Parser) : option Token := tokens self !! pos self.

(** [self.peek() and self.peek().type in types] *)
Definition peek_in (types : list TokenType) (self : Parser) : bool :=
  match peek self with
  | Some t => bool_decide (type t ∈ types)
  | None => false
  end.

(** [Num(token.value)]: the constructor calls [float]. *)
Definition make_Num (lexeme : string) : outcome ASTNode :=
  match py_float lexeme with
  | Some x => Return (Num x)
  | None => Raise ValueError
  end.

(** [parse_*_loop] are the [while] loops of [parse_expression] and
    [parse_term], entered with the node built so far.  Reading [.type] of
    the [None] that [consume] returns at the end of the tokens raises
    AttributeError. *)
Fixpoint parse_expression (fuel : nat) (self : Parser) : outcome (ASTNode * Parser) :=
  match fuel with
  | O => OutOfFuel
  | S fuel' =>
      '(node, self) ← parse_term fuel' self;
      parse_expression_loop fuel' node self
  end
with parse_expression_loop (fuel : nat) (node : ASTNode) (self : Parser)
  : outcome (ASTNode * Parser) :=
  match fuel with
  | O => OutOfFuel
  | S fuel' =>
      if peek_in [PLUS; MINUS] self then
        '(token, self) ← consume None self;
        match token with
        | None => Raise AttributeError
        | Some token =>
            '(operand, self) ← parse_term fuel' self;
            parse_expression_loop fuel' (BinOp node (type token) operand) self
        end
      else Return (node, self)
  end
with parse_term (fuel : nat) (self : Parser) : outcome (ASTNode * Parser) :=
  match fuel with
  | O => OutOfFuel
  | S fuel' =>
      '(node, self) ← parse_factor fuel' self;
      parse_term_loop fuel' node self
  end
with parse_term_loop (fuel : nat) (node : ASTNode) (self : Parser)
  : outcome (ASTNode * Parser) :=
  match fuel with
  | O => OutOfFuel
  | S fuel' =>
      if peek_in [MUL; DIV] self then
        '(token, self) ← consume None self;
        match token with
        | None => Raise AttributeError
        | Some token =>
            '(operand, self) ← parse_factor fuel' self;
            parse_term_loop fuel' (BinOp node (type token) operand) self
        end
      else Return (node, self)
  end
with parse_factor (fuel : nat) (self : Parser) : outcome (ASTNode * Parser) :=
  match fuel with
  | O => OutOfFuel
  | S fuel' =>
      '(token, self) ← consume None self;
      match token with
      | None => Raise AttributeError
      | Some token =>
          match type token with
          | NUMBER => node ← make_Num (value token); Return (node, self)
          | IDENT => Return (Var (value token), self)
          | LPAREN =>
              '(node, self) ← parse_expression fuel' self;
              '(_, self) ← consume (Some RPAREN) self;
              Return (node, self)
          | _ => Return (NoNode, self)
          end
      end
  end.

(** Fuel that the descent from [self] cannot use up: three calls for every
    token left, and three more. *)
Definition tokens_left (self : Parser) : nat := length (tokens self) - pos self.
Definition parse_fuel (self : Parser) : nat := 3 * tokens_left self + 3.

(** [parse_statement] reads [.type] of [self.peek()], which raises
    AttributeError on an empty token list.  On an identifier it consumes the
    token before it looks at the next one; when that one is neither ASSIGN
    nor EQUALS the [if] ends and [parse_expression] is called from the
    position after the identifier. *)
Definition parse_statement (self : Parser) : outcome (ASTNode * Parser) :=
  match peek self with
  | None => Raise AttributeError
  | Some token =>
      if bool_decide (type token = IDENT) then
        '(name_token, self1) ← consume None self;
        match name_token with
        | None => Raise AttributeError
        | Some name_token =>
            let name := value name_token in
            if peek_in [ASSIGN] self1 then
              '(_, self2) ← consume None self1;
              '(node, self3) ← parse_expression (parse_fuel self2) self2;
              Return (Assign name node true, self3)
            else if peek_in [EQUALS] self1 then
              '(_, self2) ← consume None self1;
              '(node, self3) ← parse_expression (parse_fuel self2) self2;
              Return (Assign name node false, self3)
            else parse_expression (parse_fuel self1) self1
        end
      else parse_expression (parse_fuel self) self
  end.

(** ** Interpreter *)

(** [visit] on the interpreter whose dictionary is [globals]: the value or
    exception of the call, and the dictionary after it.  A [BinOp] whose
    operator is none of the four, and a node that is [None], pass every
    test and the call returns [None]. *)
Fixpoint visit (node : ASTNode) (globals : gmap string PyValue)
  : outcome PyValue * gmap string PyValue :=
  match node with
  | Num value => (Return (PyFloat value), globals)
  | Var name =>
      match globals !! name with
      | None => (Raise (NameError ("Undefined variable: " +:+ name)), globals)
      | Some v => (Return v, globals)
      end
  | BinOp lhs op rhs =>
      match visit lhs globals with
      | (Return l, globals1) =>
          match visit rhs globals1 with
          | (Return r, globals2) =>
              match op with
              | PLUS => (py_add l r, globals2)
              | MINUS => (py_sub l r, globals2)
              | MUL => (py_mul l r, globals2)
              | DIV => (py_truediv l r, globals2)
              | _ => (Return PyNone, globals2)
              end
          | failed => failed
          end
      | failed => failed
      end
  | Assign name value is_decl =>
      match visit value globals with
      | (Return val, globals1) =>
          if is_decl && bool_decide (is_Some (globals1 !! name)) then
            (Raise (NameError ("Variable '" +:+ name
                               +:+ "' already declared (use = to update)")),
             globals1)
          else (Return val, <[name := val]> globals1)
      | failed => failed
      end
  | NoNode => (Return PyNone, globals)
  end.

(** ** Main loop *)

(** [str.lower] on one character of the range 0..255. *)
Definition lower_char (c : ascii) : ascii :=
  let n := N_of_ascii c in
  if (N.leb 65 n && N.leb n 90) || (N.leb 192 n && N.leb n 222 && negb (N.eqb n 215))
  then ascii_of_N (n + 32) else c.

Fixpoint lower (s : string) : string :=
  match s with
  | String c s' => String (lower_char c) (lower s')
  | EmptyString => EmptyString
  end.

(** The body of the [try]: one line through [lex], [parse_statement] and
    [visit].  The result is what the loop prints: the value, or the exception
    after [Error:]. *)
Definition run_line (text : string) (globals : gmap string PyValue)
  : outcome PyValue * gmap string PyValue :=
  match lex text with
  | Return toks =>
      match parse_statement (mkParser toks 0) with
      | Return (ast, _) => visit ast globals
      | Raise e => (Raise e, globals)
      | OutOfFuel => (OutOfFuel, globals)
      end
  | Raise e => (Raise e, globals)
  | OutOfFuel => (OutOfFuel, globals)
  end.

(** [not text or text.lower() == 'exit'] *)
Definition is_exit (text : string) : bool :=
  bool_decide (text = "") || bool_decide (lower text = "exit").

(** The [while True] loop over the lines that [input] returns, starting from
    the dictionary [globals]: the printed results and the final dictionary. *)
Fixpoint run_lines (inputs : list string) (globals : gmap string PyValue)
  : list (outcome PyValue) * gmap string PyValue :=
  match inputs with
  | [] => ([], globals)
  | text :: inputs' =>
      if is_exit text then ([], globals)
      else
        let '(result, globals1) := run_line text globals in
        let '(results, globals2) := run_lines inputs' globals1 in
        (result :: results, globals2)
  end.

Definition run_aether (inputs : list string) : list (outcome PyValue) * gmap string PyValue :=
  run_lines inputs ∅.

(** * Notions used in the statements *)

#[global] Arguments tokens_left : simpl never.
#[global] Arguments advance : simpl never.
#[global] Arguments parse_fuel : simpl never.

(** ** Lexer *)

(** A pattern consumes: what it matches is a non-empty prefix of the text. *)
Definition consumes (p : pattern) : Prop :=
  ∀ s m rest, p s = Some (m, rest) → s = m +:+ rest ∧ m ≠ "".

(** The characters that occur in some pattern besides the catch-all ERROR
    (the body of a STRING apart, which takes any character): digits and the
    point, letters and the underscore, the double quote, the colon, the
    equals sign, the operators, the parentheses, the newline, blanks.  A
    point, a colon or a double quote can still match nothing where it
    stands: see [illegal_at]. *)
Definition in_some_class (c : ascii) : bool :=
  is_digit c || is_ident_start c || is_blank c
  || bool_decide (c ∈ [quote; ":"; "="; "+"; "-"; "*"; "/"; "("; ")";
                       newline; "."]%char).

(** A character at which a NUMBER, IDENT or SKIP match cannot go on. *)
Definition is_boundary (c : ascii) : bool :=
  negb (is_digit c || is_ident_char c || is_blank c || bool_decide (c = "."%char)).

(** A pattern gives the same answer on [pre] and on [pre] followed by [x]. *)
Definition stable_at (pre x : string) (p : pattern) : Prop :=
  match p pre with
  | Some (m, rest) => p (pre +:+ x) = Some (m, rest +:+ x)
  | None => p (pre +:+ x) = None
  end.

Fixpoint string_forallb (cls : ascii → bool) (s : string) : bool :=
  match s with
  | String c s' => cls c && string_forallb cls s'
  | EmptyString => true
  end.

Fixpoint string_existsb (cls : ascii → bool) (s : string) : bool :=
  match s with
  | String c s' => cls c || string_existsb cls s'
  | EmptyString => false
  end.

(** The text of a NUMBER token: the NUMBER pattern matches all of it. *)
Definition is_number (n : string) : bool :=
  bool_decide (re_NUMBER n = Some (n, "")).

(** The pattern of each name of [TOKEN_TYPES]. *)
Definition pattern_of (kind : TokenType) : pattern :=
  match kind with
  | NUMBER => re_NUMBER
  | STRING => re_STRING
  | ASSIGN => literal ":="
  | EQUALS => literal "="
  | PLUS => literal "+"
  | MINUS => literal "-"
  | MUL => literal "*"
  | DIV => literal "/"
  | LPAREN => literal "("
  | RPAREN => literal ")"
  | IDENT => re_IDENT
  | NEWLINE => literal (String newline "")
  | SKIP => re_SKIP
  | ERROR => re_ERROR
  end.

(** What may follow a token without changing it: nothing, or a boundary. *)
Definition ends_token (x : string) : bool :=
  match x with
  | String c _ => is_boundary c
  | EmptyString => true
  end.

(** The text goes on with a digit. *)
Definition starts_with_digit (s : string) : bool :=
  match s with
  | String d _ => is_digit d
  | EmptyString => false
  end.

(** The character [c], with the text [post] behind it, matches no class
    where it stands: it is in the alphabet of no pattern; or it is a point
    (no pattern begins with a point); or a colon with no equals sign behind
    it; or a double quote with no double quote behind it. *)
Definition illegal_at (c : ascii) (post : string) : bool :=
  negb (in_some_class c)
  || Ascii.eqb c "."
  || (Ascii.eqb c ":"
      && negb match post with String d _ => Ascii.eqb d "=" | EmptyString => false end)
  || (Ascii.eqb c quote && negb (string_existsb (Ascii.eqb quote) post)).

(** The loop of [lex] after [n] matches, none of them an ERROR: the tokens
    appended so far and the text from which the next match is looked for. *)
Fixpoint scan (n : nat) (code : string) : option (list Token * string) :=
  match n with
  | O => Some ([], code)
  | S n' =>
      match regex code with
      | Some (SKIP, _, rest) => scan n' rest
      | Some (ERROR, _, _) => None
      | Some (kind, m, rest) =>
          match scan n' rest with
          | Some (toks, text) => Some (mkToken kind m :: toks, text)
          | None => None
          end
      | None => None
      end
  end.

(** ** Parser *)

(** What a call that returned did to the parser: the token list is the same
    and the position did not move back ([strict]: it moved forward).  The
    predicate is false of a call that ran out of fuel. *)
Definition advances (strict : bool) (self : Parser)
    (r : outcome (ASTNode * Parser)) : Prop :=
  match r with
  | Return (_, self') =>
      tokens self' = tokens self ∧
      if strict then tokens_left self' < tokens_left self
      else tokens_left self' ≤ tokens_left self
  | Raise _ => True
  | OutOfFuel => False
  end.

(** The five functions at the fuel [parse_statement] gives them. *)
Definition expression_at (self : Parser) := parse_expression (parse_fuel self) self.
Definition expression_loop_at (node : ASTNode) (self : Parser) :=
  parse_expression_loop (parse_fuel self) node self.
Definition term_at (self : Parser) := parse_term (parse_fuel self) self.
Definition term_loop_at (node : ASTNode) (self : Parser) :=
  parse_term_loop (parse_fuel self) node self.
Definition factor_at (self : Parser) := parse_factor (parse_fuel self) self.

#[global] Arguments expression_at : simpl never.
#[global] Arguments expression_loop_at : simpl never.
#[global] Arguments term_at : simpl never.
#[global] Arguments term_loop_at : simpl never.
#[global] Arguments factor_at : simpl never.

(** The tokens not yet consumed, and the parser [n] tokens further. *)
Definition remaining (self : Parser) : list Token := drop (pos self) (tokens self).
Definition skip (n : nat) (self : Parser) : Parser :=
  {| tokens := tokens self; pos := pos self + n |}.

(** The first token of what is left is of one of [types]. *)
Definition starts_with (types : list TokenType) (ts : list Token) : bool :=
  match ts with
  | t :: _ => bool_decide (type t ∈ types)
  | [] => false
  end.

(** The nodes the expression grammar builds: no [Assign] inside. *)
Fixpoint is_expression (node : ASTNode) : bool :=
  match node with
  | BinOp lhs _ rhs => is_expression lhs && is_expression rhs
  | Num _ | Var _ | NoNode => true
  | Assign _ _ _ => false
  end.

(** The nodes [parse_statement] builds: an expression, or one [Assign] of an
    expression. *)
Definition is_statement (node : ASTNode) : bool :=
  match node with
  | Assign _ value _ => is_expression value
  | _ => is_expression node
  end.

(** ** Arithmetic lines *)

(** The derivations of the grammar
      expression := term (('+'|'-') term)*
      term       := factor (('*'|'/') factor)*
      factor     := NUMBER | '(' expression ')'
    with each repetition read from the left. *)
Inductive addop : Type := Add | Sub.
Inductive mulop : Type := Mul | Div.

Inductive expression : Type :=
| E_term (t : term)
| E_binary (e : expression) (op : addop) (t : term)
with term : Type :=
| T_factor (f : factor)
| T_binary (t : term) (op : mulop) (f : factor)
with factor : Type :=
| F_number (lexeme : string)
| F_paren (e : expression).

Scheme expression_mut := Induction for expression Sort Prop
  with term_mut := Induction for term Sort Prop
  with factor_mut := Induction for factor Sort Prop.
Combined Scheme grammar_mutind from expression_mut, term_mut, factor_mut.

Definition addop_type (op : addop) : TokenType :=
  match op with Add => PLUS | Sub => MINUS end.
Definition mulop_type (op : mulop) : TokenType :=
  match op with Mul => MUL | Div => DIV end.
Definition addop_text (op : addop) : string :=
  match op with Add => "+" | Sub => "-" end.
Definition mulop_text (op : mulop) : string :=
  match op with Mul => "*" | Div => "/" end.

(** The tokens of a derivation. *)
Fixpoint expression_tokens (e : expression) : list Token :=
  match e with
  | E_term t => term_tokens t
  | E_binary e op t =>
      expression_tokens e ++ mkToken (addop_type op) (addop_text op) :: term_tokens t
  end
with term_tokens (t : term) : list Token :=
  match t with
  | T_factor f => factor_tokens f
  | T_binary t op f =>
      term_tokens t ++ mkToken (mulop_type op) (mulop_text op) :: factor_tokens f
  end
with factor_tokens (f : factor) : list Token :=
  match f with
  | F_number lexeme => [mkToken NUMBER lexeme]
  | F_paren e => mkToken LPAREN "(" :: expression_tokens e ++ [mkToken RPAREN ")"]
  end.

(** Its text, written without blanks. *)
Fixpoint expression_text (e : expression) : string :=
  match e with
  | E_term t => term_text t
  | E_binary e op t => expression_text e +:+ addop_text op +:+ term_text t
  end
with term_text (t : term) : string :=
  match t with
  | T_factor f => factor_text f
  | T_binary t op f => term_text t +:+ mulop_text op +:+ factor_text f
  end
with factor_text (f : factor) : string :=
  match f with
  | F_number lexeme => lexeme
  | F_paren e => "(" +:+ expression_text e +:+ ")"
  end.

(** Every number in it is the text of a NUMBER token. *)
Fixpoint expression_wf (e : expression) : bool :=
  match e with
  | E_term t => term_wf t
  | E_binary e _ t => expression_wf e && term_wf t
  end
with term_wf (t : term) : bool :=
  match t with
  | T_factor f => factor_wf f
  | T_binary t _ f => term_wf t && factor_wf f
  end
with factor_wf (f : factor) : bool :=
  match f with
  | F_number lexeme => is_number lexeme
  | F_paren e => expression_wf e
  end.

(** The binary64 number nearest to a literal (zero for a text that is none). *)
Definition literal_value (lexeme : string) : float :=
  default 0%float (py_float lexeme).

(** The tree of a derivation: operators of one level nest to the left, a
    term is an operand of [+] and [-], a parenthesis is a factor. *)
Fixpoint expression_node (e : expression) : ASTNode :=
  match e with
  | E_term t => term_node t
  | E_binary e op t => BinOp (expression_node e) (addop_type op) (term_node t)
  end
with term_node (t : term) : ASTNode :=
  match t with
  | T_factor f => factor_node f
  | T_binary t op f => BinOp (term_node t) (mulop_type op) (factor_node f)
  end
with factor_node (f : factor) : ASTNode :=
  match f with
  | F_number lexeme => Num (literal_value lexeme)
  | F_paren e => expression_node e
  end.

(** The value of a derivation in binary64 arithmetic: every literal and every
    operation rounded to nearest, operands from the left, and
    ZeroDivisionError for a division by zero. *)
Definition apply_addop (op : addop) (x y : float) : outcome float :=
  match op with
  | Add => Return (PrimFloat.add x y)
  | Sub => Return (PrimFloat.sub x y)
  end.

Definition apply_mulop (op : mulop) (x y : float) : outcome float :=
  match op with
  | Mul => Return (PrimFloat.mul x y)
  | Div => if PrimFloat.eqb y 0%float then Raise ZeroDivisionError
           else Return (PrimFloat.div x y)
  end.

Fixpoint expression_value (e : expression) : outcome float :=
  match e with
  | E_term t => term_value t
  | E_binary e op t =>
      x ← expression_value e; y ← term_value t; apply_addop op x y
  end
with term_value (t : term) : outcome float :=
  match t with
  | T_factor f => factor_value f
  | T_binary t op f =>
      x ← term_value t; y ← factor_value f; apply_mulop op x y
  end
with factor_value (f : factor) : outcome float :=
  match f with
  | F_number lexeme => Return (literal_value lexeme)
  | F_paren e => expression_value e
  end.

(** The value of a derivation in exact rational arithmetic; none when it
    divides by zero. *)
Definition literal_exact (lexeme : string) : option Q :=
  match parse_decimal lexeme with
  | Some (n, d) => Some (Qmake n d)
  | None => None
  end.

Fixpoint expression_exact (e : expression) : option Q :=
  match e with
  | E_term t => term_exact t
  | E_binary e op t =>
      x ← expression_exact e; y ← term_exact t;
      Some (match op with Add => Qplus x y | Sub => Qminus x y end)
  end
with term_exact (t : term) : option Q :=
  match t with
  | T_factor f => factor_exact f
  | T_binary t op f =>
      x ← term_exact t; y ← factor_exact f;
      match op with
      | Mul => Some (Qmult x y)
      | Div => if Qeq_bool y (Qmake 0 1) then None else Some (Qdiv x y)
      end
  end
with factor_exact (f : factor) : option Q :=
  match f with
  | F_number lexeme => literal_exact lexeme
  | F_paren e => expression_exact e
  end.

(** The rational number a finite binary64 number is. *)
Definition float_exact (x : float) : option Q :=
  match Prim2SF x with
  | S754_zero _ => Some (Qmake 0 1)
  | S754_finite s m e =>
      Some (Qmult (Qmake (if s then Zneg m else Zpos m) 1) (Qpower (Qmake 2 1) e))
  | _ => None
  end.

(** Four lines: [2+3*4], [(2+3)*4], [0.1+0.2] and [1/0]. *)
Definition example_2_plus_3_times_4 : expression :=
  E_binary (E_term (T_factor (F_number "2"))) Add
    (T_binary (T_factor (F_number "3")) Mul (F_number "4")).

Definition example_2_plus_3_in_parens_times_4 : expression :=
  E_term (T_binary
    (T_factor (F_paren (E_binary (E_term (T_factor (F_number "2"))) Add
                          (T_factor (F_number "3")))))
    Mul (F_number "4")).

Definition example_tenth_plus_fifth : expression :=
  E_binary (E_term (T_factor (F_number "0.1"))) Add (T_factor (F_number "0.2")).

Definition example_1_over_0 : expression :=
  E_term (T_binary (T_factor (F_number "1")) Div (F_number "0")).

(** The line of [e] evaluates to the exact value of [e]. *)
Definition yields_exact_value (e : expression) : Prop :=
  ∃ x q r,
    (run_line (expression_text e) ∅).1 = Return (PyFloat x) ∧
    float_exact x = Some q ∧ expression_exact e = Some r ∧ Qeq q r.

(** ** Lines with variables *)

(** The derivations of the expression grammar with identifiers,
      factor := NUMBER | IDENT | '(' expression ')'. *)
Inductive vexpression : Type :=
| VE_term (t : vterm)
| VE_binary (e : vexpression) (op : addop) (t : vterm)
with vterm : Type :=
| VT_factor (f : vfactor)
| VT_binary (t : vterm) (op : mulop) (f : vfactor)
with vfactor : Type :=
| VF_number (lexeme : string)
| VF_ident (name : string)
| VF_paren (e : vexpression).

Scheme vexpression_mut := Induction for vexpression Sort Prop
  with vterm_mut := Induction for vterm Sort Prop
  with vfactor_mut := Induction for vfactor Sort Prop.
Combined Scheme vgrammar_mutind from vexpression_mut, vterm_mut, vfactor_mut.

Fixpoint vexpression_tokens (e : vexpression) : list Token :=
  match e with
  | VE_term t => vterm_tokens t
  | VE_binary e op t =>
      vexpression_tokens e ++ mkToken (addop_type op) (addop_text op) :: vterm_tokens t
  end
with vterm_tokens (t : vterm) : list Token :=
  match t with
  | VT_factor f => vfactor_tokens f
  | VT_binary t op f =>
      vterm_tokens t ++ mkToken (mulop_type op) (mulop_text op) :: vfactor_tokens f
  end
with vfactor_tokens (f : vfactor) : list Token :=
  match f with
  | VF_number lexeme => [mkToken NUMBER lexeme]
  | VF_ident name => [mkToken IDENT name]
  | VF_paren e => mkToken LPAREN "(" :: vexpression_tokens e ++ [mkToken RPAREN ")"]
  end.

Fixpoint vexpression_node (e : vexpression) : ASTNode :=
  match e with
  | VE_term t => vterm_node t
  | VE_binary e op t => BinOp (vexpression_node e) (addop_type op) (vterm_node t)
  end
with vterm_node (t : vterm) : ASTNode :=
  match t with
  | VT_factor f => vfactor_node f
  | VT_binary t op f => BinOp (vterm_node t) (mulop_type op) (vfactor_node f)
  end
with vfactor_node (f : vfactor) : ASTNode :=
  match f with
  | VF_number lexeme => Num (literal_value lexeme)
  | VF_ident name => Var name
  | VF_paren e => vexpression_node e
  end.

(** The value of a derivation where [env] gives the floats of the variables:
    operands from the left, the NameError of [visit] for a variable that
    [env] does not bind, ZeroDivisionError for a division by zero. *)
Fixpoint vexpression_value (e : vexpression) (env : gmap string float) : outcome float :=
  match e with
  | VE_term t => vterm_value t env
  | VE_binary e op t =>
      x ← vexpression_value e env; y ← vterm_value t env; apply_addop op x y
  end
with vterm_value (t : vterm) (env : gmap string float) : outcome float :=
  match t with
  | VT_factor f => vfactor_value f env
  | VT_binary t op f =>
      x ← vterm_value t env; y ← vfactor_value f env; apply_mulop op x y
  end
with vfactor_value (f : vfactor) (env : gmap string float) : outcome float :=
  match f with
  | VF_number lexeme => Return (literal_value lexeme)
  | VF_ident name =>
      match env !! name with
      | Some x => Return x
      | None => Raise (NameError ("Undefined variable: " +:+ name))
      end
  | VF_paren e => vexpression_value e env
  end.

(** The three forms of a line: [name := e], [name = e], and [e]. *)
Inductive statement : Type :=
| S_declare (name : string) (e : vexpression)
| S_assign (name : string) (e : vexpression)
| S_expression (e : vexpression).

Definition statement_tokens (s : statement) : list Token :=
  match s with
  | S_declare name e => mkToken IDENT name :: mkToken ASSIGN ":=" :: vexpression_tokens e
  | S_assign name e => mkToken IDENT name :: mkToken EQUALS "=" :: vexpression_tokens e
  | S_expression e => vexpression_tokens e
  end.

(** The lines [parse_statement] reads as written: an expression line must
    not begin with an identifier. *)
Definition statement_read (s : statement) : bool :=
  match s with
  | S_expression e => negb (starts_with [IDENT] (vexpression_tokens e))
  | _ => true
  end.

(** What a line does to the floats of the variables: its result and the
    variables after it. *)
Definition statement_run (s : statement) (env : gmap string float)
  : outcome float * gmap string float :=
  match s with
  | S_expression e => (vexpression_value e env, env)
  | S_declare name e =>
      match vexpression_value e env with
      | Return x =>
          if bool_decide (is_Some (env !! name)) then
            (Raise (NameError ("Variable '" +:+ name
                               +:+ "' already declared (use = to update)")),
             env)
          else (Return x, <[name := x]> env)
      | failed => (failed, env)
      end
  | S_assign name e =>
      match vexpression_value e env with
      | Return x => (Return x, <[name := x]> env)
      | failed => (failed, env)
      end
  end.

(** ** Notions on texts and tokens *)

(** The text without its spaces and tabs. *)
Fixpoint remove_blanks (s : string) : string :=
  match s with
  | String c s' => if is_blank c then remove_blanks s' else String c (remove_blanks s')
  | EmptyString => EmptyString
  end.

(** The values of the tokens, one after the other. *)
Fixpoint tokens_text (toks : list Token) : string :=
  match toks with
  | t :: toks' => value t +:+ tokens_text toks'
  | [] => ""
  end.

(** A character at which a NUMBER or IDENT match cannot go on (a blank is
    one). *)
Definition is_separator (c : ascii) : bool :=
  negb (is_digit c || is_ident_char c || bool_decide (c = "."%char)).

(** The exceptions a line can end with. *)
Definition line_error (e : exception) : Prop :=
  (∃ c, e = SyntaxError ("Illegal character: " +:+ String c "")) ∨
  (∃ got, got ≠ RPAREN ∧ e = SyntaxError ("Expected RPAREN, got " +:+ type_name got)) ∨
  e = AttributeError ∨
  (∃ name, e = NameError ("Undefined variable: " +:+ name)) ∨
  (∃ name, e = NameError ("Variable '" +:+ name
                          +:+ "' already declared (use = to update)")) ∨
  e = TypeError ∨
  e = ZeroDivisionError.

(** The dictionary holds floats only. *)
Definition all_floats (globals : gmap string PyValue) : Prop :=
  ∀ name v, globals !! name = Some v → ∃ x, v = PyFloat x.

(** A tree with an operand in every place and one of the four operators in
    every [BinOp]. *)
Fixpoint is_complete (node : ASTNode) : bool :=
  match node with
  | BinOp lhs op rhs =>
      is_complete lhs && bool_decide (op ∈ [PLUS; MINUS; MUL; DIV]) && is_complete rhs
  | Num _ | Var _ => true
  | Assign _ value _ => is_complete value
  | NoNode => false
  end.

(** A call of the parser keeps the property [I] of the parser and raises
    only exceptions of [E]. *)
Definition respects (I : Parser → Prop) (E : exception → Prop)
    (r : outcome (ASTNode * Parser)) : Prop :=
  match r with
  | Return (_, self') => I self'
  | Raise e => E e
  | OutOfFuel => True
  end.

(** The exceptions of the parser on the tokens of a text. *)
Definition parse_error (e : exception) : Prop :=
  e = AttributeError ∨
  ∃ got, got ≠ RPAREN ∧ e = SyntaxError ("Expected RPAREN, got " +:+ type_name got).

(** The exceptions of [visit]. *)
Definition visit_error (e : exception) : Prop :=
  (∃ name, e = NameError ("Undefined variable: " +:+ name)) ∨
  (∃ name, e = NameError ("Variable '" +:+ name
                          +:+ "' already declared (use = to update)")) ∨
  e = TypeError ∨
  e = ZeroDivisionError.

(** The tree of a line. *)
Definition statement_node (s : statement) : ASTNode :=
  match s with
  | S_declare name e => Assign name (vexpression_node e) true
  | S_assign name e => Assign name (vexpression_node e) false
  | S_expression e => vexpression_node e
  end.

(** The NUMBER tokens hold texts that the NUMBER pattern matches, as those
    of [lex] do. *)
Definition numbers_lexed (toks : list Token) : Prop :=
  Forall (λ t, type t = NUMBER → is_number (value t) = true) toks.

(** The names of [TOKEN_TYPES]: the types of the tokens of [lex]. *)
Definition token_type_names : list string :=
  (λ np : TokenType * pattern, type_name np.1) <$> TOKEN_TYPES.

(** * Lemmas *)
(** ** The lexer: every step consumes text, and the fuel of [lex] suffices *)

Lemma string_app_cons (c : ascii) (s1 s2 : string) :
  String c s1 +:+ s2 = String c (s1 +:+ s2).
Proof. reflexivity. Qed.

Lemma string_app_nil_l (s : string) : "" +:+ s = s.
Proof. reflexivity. Qed.

Lemma string_app_length (s1 s2 : string) :
  String.length (s1 +:+ s2) = String.length s1 + String.length s2.
Proof.
  induction s1 as [|c s1 IH]; [done |].
  rewrite string_app_cons. simpl. by rewrite IH.
Qed.

Lemma string_app_assoc (s1 s2 s3 : string) :
  (s1 +:+ s2) +:+ s3 = s1 +:+ (s2 +:+ s3).
Proof.
  induction s1 as [|c s1 IH]; [done |].
  rewrite !string_app_cons. by rewrite IH.
Qed.

Lemma string_app_nil_r (s : string) : s +:+ "" = s.
Proof.
  induction s as [|c s IH]; [done |].
  rewrite string_app_cons. by rewrite IH.
Qed.

Lemma many_app (cls : ascii → bool) (s : string) :
  (many cls s).1 +:+ (many cls s).2 = s.
Proof.
  induction s as [|c s IH]; simpl; [done |].
  destruct (cls c); [| done].
  destruct (many cls s) as [m r]; simpl in *.
  by rewrite string_app_cons, IH.
Qed.

Lemma many_eq (cls : ascii → bool) (s m r : string) :
  many cls s = (m, r) → s = m +:+ r.
Proof. intros H. by rewrite <- (many_app cls s), H. Qed.

Lemma literal_prefix (lit s m rest : string) :
  literal lit s = Some (m, rest) → m = lit ∧ s = lit +:+ rest.
Proof.
  revert s m rest. induction lit as [|a lit IH]; intros s m rest; simpl.
  - intros [= <- <-]; done.
  - destruct s as [|c s]; [done |].
    destruct (Ascii.eqb a c) eqn:Hac; [| done].
    apply Ascii.eqb_eq in Hac as <-.
    destruct (literal lit s) as [[m' r']|] eqn:Hl; [| done].
    intros [= <- <-]. destruct (IH _ _ _ Hl) as [-> ->]. done.
Qed.

Lemma literal_consumes (a : ascii) (lit : string) : consumes (literal (String a lit)).
Proof.
  intros s m rest H. apply literal_prefix in H as [-> ->]. done.
Qed.

(** The optional fraction of [re_NUMBER] is only tried on a point. *)
Lemma not_point_match {A} (c : ascii) (x y : A) :
  c ≠ "."%char →
  match c with "."%char => x | _ => y end = y.
Proof. intros Hc. destruct c as [[] [] [] [] [] [] [] []]; done. Qed.

Lemma re_NUMBER_consumes : consumes re_NUMBER.
Proof.
  intros s m rest. unfold re_NUMBER.
  destruct (many is_digit s) as [whole r] eqn:Hw. apply many_eq in Hw.
  destruct whole as [|d whole]; [done |].
  destruct r as [|c r'].
  { intros [= <- <-]. done. }
  destruct (decide (c = "."%char)) as [-> | Hc].
  - destruct (many is_digit r') as [frac r''] eqn:Hf. apply many_eq in Hf.
    destruct frac as [|f frac].
    + intros [= <- <-]. done.
    + intros [= <- <-]. split; [| done].
      rewrite Hw, Hf. rewrite !string_app_cons, string_app_assoc. done.
  - rewrite not_point_match by done. intros [= <- <-]. done.
Qed.

Lemma re_STRING_consumes : consumes re_STRING.
Proof.
  intros s m rest. unfold re_STRING.
  destruct s as [|c s]; [done |].
  destruct (Ascii.eqb c quote); [| done].
  destruct (many is_not_quote s) as [body r] eqn:Hb. apply many_eq in Hb.
  destruct r as [|q r]; [done |].
  intros [= <- <-]. split; [| done].
  rewrite Hb. rewrite !string_app_cons, string_app_assoc. done.
Qed.

Lemma re_IDENT_consumes : consumes re_IDENT.
Proof.
  intros s m rest. unfold re_IDENT.
  destruct s as [|c s]; [done |].
  destruct (is_ident_start c); [| done].
  destruct (many is_ident_char s) as [m' r] eqn:Hm. apply many_eq in Hm.
  intros [= <- <-]. by rewrite Hm.
Qed.

Lemma re_SKIP_consumes : consumes re_SKIP.
Proof.
  intros s m rest. unfold re_SKIP.
  destruct (many is_blank s) as [m' r] eqn:Hm. apply many_eq in Hm.
  destruct m' as [|b m']; [done |].
  intros [= <- <-]. done.
Qed.

Lemma re_ERROR_consumes : consumes re_ERROR.
Proof.
  intros s m rest. unfold re_ERROR.
  destruct s as [|c s]; [done |].
  destruct (Ascii.eqb c newline); [done |].
  intros [= <- <-]. done.
Qed.

Lemma TOKEN_TYPES_consume : Forall (λ np, consumes np.2) TOKEN_TYPES.
Proof.
  unfold TOKEN_TYPES.
  repeat (apply Forall_cons; split;
    [first [ apply literal_consumes | apply re_NUMBER_consumes
           | apply re_STRING_consumes | apply re_IDENT_consumes
           | apply re_SKIP_consumes | apply re_ERROR_consumes ] |]).
  apply Forall_nil_2.
Qed.

Lemma alternation_Some alts s kind m rest :
  alternation alts s = Some (kind, m, rest) →
  ∃ pat, (kind, pat) ∈ alts ∧ pat s = Some (m, rest).
Proof.
  induction alts as [|[name pat] alts IH]; simpl; [done |].
  destruct (pat s) as [[m' r']|] eqn:Hp.
  - intros [= <- <- <-]. exists pat. split; [left | done].
  - intros H. destruct (IH H) as (pat' & Hin & Hpat').
    exists pat'. split; [by right | done].
Qed.

Lemma regex_consumes s kind m rest :
  regex s = Some (kind, m, rest) → s = m +:+ rest ∧ m ≠ "".
Proof.
  intros H. apply alternation_Some in H as (pat & Hin & Hpat).
  pose proof TOKEN_TYPES_consume as Hall.
  rewrite Forall_forall in Hall. by apply (Hall _ Hin).
Qed.

Lemma alternation_None alts s :
  alternation alts s = None → Forall (λ np, np.2 s = None) alts.
Proof.
  induction alts as [|[name pat] alts IH]; simpl; [constructor |].
  destruct (pat s) as [[m' r']|] eqn:Hp; [done |].
  intros H. constructor; [done | auto].
Qed.

(** At every character some alternative matches: NEWLINE on a newline, ERROR
    (at the latest) on anything else. *)
Lemma regex_total (c : ascii) (s : string) : is_Some (regex (String c s)).
Proof.
  destruct (regex (String c s)) as [m|] eqn:H; [by eexists |].
  apply alternation_None in H. unfold TOKEN_TYPES in H.
  rewrite !Forall_cons in H. simpl in H.
  destruct H as (_ & _ & _ & _ & _ & _ & _ & _ & _ & _ & _ & Hnl & _ & Herr & _).
  destruct (Ascii.eqb c newline) eqn:Hc; [| done].
  apply Ascii.eqb_eq in Hc as ->. done.
Qed.

Lemma finditer_next_regex (s : string) : finditer_next s = regex s.
Proof.
  destruct s as [|c s]; [done |].
  unfold finditer_next; fold finditer_next.
  by destruct (regex_total c s) as [m ->].
Qed.

Lemma regex_shorter s kind m rest :
  regex s = Some (kind, m, rest) → String.length rest < String.length s.
Proof.
  intros H. apply regex_consumes in H as [-> Hm].
  rewrite string_app_length. destruct m; [done | simpl; lia].
Qed.

(** [lex_loop] with an accumulator and any fuel above the length of the text
    is [lex] of the text, appended to the accumulator. *)
Lemma lex_loop_lex (fuel : nat) (code : string) (acc : list Token) :
  String.length code < fuel →
  lex_loop fuel code acc = (acc ++.) <$> lex code.
Proof.
  revert code acc. induction fuel as [fuel IH] using lt_wf_ind.
  intros code acc Hlen. destruct fuel as [|fuel]; [lia |].
  unfold lex. simpl lex_loop. rewrite finditer_next_regex.
  destruct (regex code) as [[[kind m] rest]|] eqn:Hre.
  2:{ simpl. by rewrite app_nil_r. }
  pose proof (regex_shorter _ _ _ _ Hre) as Hlt.
  destruct kind; try done;
    rewrite (IH fuel) by lia; rewrite (IH (String.length code)) by lia;
    destruct (lex rest); simpl; rewrite <- ?app_assoc; done.
Qed.

(** The loop of [lex], one match at a time. *)
Lemma lex_unfold (code : string) :
  lex code =
    match regex code with
    | None => Return []
    | Some (kind, m, rest) =>
        match kind with
        | SKIP => lex rest
        | ERROR => Raise (SyntaxError ("Illegal character: " +:+ m))
        | _ => (mkToken kind m ::.) <$> lex rest
        end
    end.
Proof.
  unfold lex at 1. simpl lex_loop. rewrite finditer_next_regex.
  destruct (regex code) as [[[kind m] rest]|] eqn:Hre; [| done].
  pose proof (regex_shorter _ _ _ _ Hre) as Hlt.
  destruct kind; try done; rewrite lex_loop_lex by lia; try done.
  all: destruct (lex rest); simpl; try done.
Qed.

(** [lex] always returns or raises. *)
Lemma lex_total (code : string) : lex code ≠ OutOfFuel.
Proof.
  remember (String.length code) as n eqn:Hn. revert code Hn.
  induction n as [n IH] using lt_wf_ind. intros code ->.
  rewrite lex_unfold.
  destruct (regex code) as [[[kind m] rest]|] eqn:Hre; [| done].
  pose proof (regex_shorter _ _ _ _ Hre) as Hlt.
  pose proof (IH _ Hlt rest eq_refl) as Hrest.
  destruct kind; try done; destruct (lex rest); done.
Qed.

(** ** The parser: fuel *)

Lemma bind_not_OutOfFuel {A B} (m : outcome A) (k : A → outcome B) :
  (m ≫= k) ≠ OutOfFuel → m ≠ OutOfFuel.
Proof. by destruct m. Qed.

Lemma peek_in_Some types self :
  peek_in types self = true → ∃ t, peek self = Some t ∧ type t ∈ types.
Proof.
  unfold peek_in. destruct (peek self) as [t|]; [| done].
  intros H%bool_decide_eq_true. eauto.
Qed.

Lemma consume_None_Some self t :
  peek self = Some t → consume None self = Return (Some t, advance self).
Proof. unfold peek, consume. by intros ->. Qed.

Lemma consume_None_None self :
  peek self = None → consume None self = Return (None, self).
Proof. unfold peek, consume. by intros ->. Qed.

Lemma tokens_left_advance self t :
  peek self = Some t → tokens_left self = S (tokens_left (advance self)).
Proof.
  unfold peek, tokens_left. intros H%lookup_lt_Some. simpl. lia.
Qed.

Lemma consume_left expected self x self' :
  consume expected self = Return (x, self') →
  tokens self' = tokens self ∧ tokens_left self' ≤ tokens_left self.
Proof.
  unfold consume. destruct (tokens self !! pos self) as [t|] eqn:Ht.
  - pose proof (tokens_left_advance self t Ht).
    destruct expected as [e|]; [case_bool_decide; [done |] |];
      intros [= <- <-]; split; [done | lia | done | lia].
  - intros [= <- <-]. done.
Qed.

(** More fuel changes nothing once a call has returned or raised. *)
Lemma parse_fuel_mono (fuel : nat) :
  (∀ fuel' self, fuel ≤ fuel' → parse_expression fuel self ≠ OutOfFuel →
     parse_expression fuel' self = parse_expression fuel self) ∧
  (∀ fuel' node self, fuel ≤ fuel' → parse_expression_loop fuel node self ≠ OutOfFuel →
     parse_expression_loop fuel' node self = parse_expression_loop fuel node self) ∧
  (∀ fuel' self, fuel ≤ fuel' → parse_term fuel self ≠ OutOfFuel →
     parse_term fuel' self = parse_term fuel self) ∧
  (∀ fuel' node self, fuel ≤ fuel' → parse_term_loop fuel node self ≠ OutOfFuel →
     parse_term_loop fuel' node self = parse_term_loop fuel node self) ∧
  (∀ fuel' self, fuel ≤ fuel' → parse_factor fuel self ≠ OutOfFuel →
     parse_factor fuel' self = parse_factor fuel self).
Proof.
  induction fuel as [|fuel (IHe & IHel & IHt & IHtl & IHf)].
  { repeat split; intros; simpl in *; done. }
  assert (∀ fuel' (P : nat → Prop), S fuel ≤ fuel' →
    (∀ n, fuel ≤ n → P (S n)) → P fuel') as Hcase.
  { intros [|n] P Hle HP; [lia | apply HP; lia]. }
  repeat split.
  - intros fuel' self Hle. pattern fuel'. apply (Hcase _ _ Hle). clear fuel' Hle.
    intros n Hn. simpl. intros Hne.
    pose proof (bind_not_OutOfFuel _ _ Hne) as Hne1.
    rewrite (IHt n self Hn Hne1).
    destruct (parse_term fuel self) as [[node s1]| |]; [| done | done].
    simpl in *. by apply IHel.
  - intros fuel' node self Hle. pattern fuel'. apply (Hcase _ _ Hle). clear fuel' Hle.
    intros n Hn. simpl. destruct (peek_in [PLUS; MINUS] self); [| done].
    destruct (consume None self) as [[[tok|] s1]| |]; try done.
    simpl. intros Hne.
    pose proof (bind_not_OutOfFuel _ _ Hne) as Hne1.
    rewrite (IHt n s1 Hn Hne1).
    destruct (parse_term fuel s1) as [[operand s2]| |]; [| done | done].
    simpl in *. by apply IHel.
  - intros fuel' self Hle. pattern fuel'. apply (Hcase _ _ Hle). clear fuel' Hle.
    intros n Hn. simpl. intros Hne.
    pose proof (bind_not_OutOfFuel _ _ Hne) as Hne1.
    rewrite (IHf n self Hn Hne1).
    destruct (parse_factor fuel self) as [[node s1]| |]; [| done | done].
    simpl in *. by apply IHtl.
  - intros fuel' node self Hle. pattern fuel'. apply (Hcase _ _ Hle). clear fuel' Hle.
    intros n Hn. simpl. destruct (peek_in [MUL; DIV] self); [| done].
    destruct (consume None self) as [[[tok|] s1]| |]; try done.
    simpl. intros Hne.
    pose proof (bind_not_OutOfFuel _ _ Hne) as Hne1.
    rewrite (IHf n s1 Hn Hne1).
    destruct (parse_factor fuel s1) as [[operand s2]| |]; [| done | done].
    simpl in *. by apply IHtl.
  - intros fuel' self Hle. pattern fuel'. apply (Hcase _ _ Hle). clear fuel' Hle.
    intros n Hn. simpl.
    destruct (consume None self) as [[[tok|] s1]| |]; try done.
    simpl. destruct (type tok); try done.
    intros Hne.
    pose proof (bind_not_OutOfFuel _ _ Hne) as Hne1.
    by rewrite (IHe n s1 Hn Hne1).
Qed.

(** With [3 * k + 3] units of fuel and [k] tokens left, no call of the
    descent runs out of fuel. *)
Lemma parse_fuel_enough (k : nat) :
  (∀ fuel self, tokens_left self = k → 3 * k + 1 ≤ fuel →
     advances true self (parse_factor fuel self)) ∧
  (∀ fuel node self, tokens_left self = k → 3 * k + 1 ≤ fuel →
     advances false self (parse_term_loop fuel node self)) ∧
  (∀ fuel self, tokens_left self = k → 3 * k + 2 ≤ fuel →
     advances true self (parse_term fuel self)) ∧
  (∀ fuel node self, tokens_left self = k → 3 * k + 1 ≤ fuel →
     advances false self (parse_expression_loop fuel node self)) ∧
  (∀ fuel self, tokens_left self = k → 3 * k + 3 ≤ fuel →
     advances true self (parse_expression fuel self)).
Proof.
  induction k as [k IH] using lt_wf_ind.
  assert (∀ fuel self, tokens_left self = k → 3 * k + 1 ≤ fuel →
     advances true self (parse_factor fuel self)) as HF.
  { intros [|n] self Hk Hfuel; [lia |]. simpl.
    destruct (peek self) as [t|] eqn:Hpeek.
    2:{ by rewrite (consume_None_None _ Hpeek). }
    rewrite (consume_None_Some _ _ Hpeek). simpl.
    pose proof (tokens_left_advance _ _ Hpeek) as Hleft.
    destruct (type t); simpl; try (split; [done | lia]).
    - unfold make_Num. destruct (py_float (value t)); simpl; [split; [done | lia] | done].
    - destruct (IH (tokens_left (advance self)) ltac:(lia))
        as (_ & _ & _ & _ & HE).
      specialize (HE n (advance self) eq_refl ltac:(lia)).
      destruct (parse_expression n (advance self)) as [[node s2]| |];
        simpl in *; [| done | done].
      destruct HE as [Htok Hlt].
      destruct (consume (Some RPAREN) s2) as [[x s3]| |] eqn:Hc; simpl; [| done |].
      + apply consume_left in Hc as [Htok' Hle]. split; [congruence | lia].
      + unfold consume in Hc. destruct (tokens s2 !! pos s2); [| done].
        by case_bool_decide. }
  assert (∀ fuel node self, tokens_left self = k → 3 * k + 1 ≤ fuel →
     advances false self (parse_term_loop fuel node self)) as HTL.
  { intros [|n] node self Hk Hfuel; [lia |]. simpl.
    destruct (peek_in [MUL; DIV] self) eqn:Hin; [| done].
    apply peek_in_Some in Hin as (t & Hpeek & _).
    rewrite (consume_None_Some _ _ Hpeek). simpl.
    pose proof (tokens_left_advance _ _ Hpeek) as Hleft.
    destruct (IH (tokens_left (advance self)) ltac:(lia)) as (HF' & _).
    specialize (HF' n (advance self) eq_refl ltac:(lia)).
    destruct (parse_factor n (advance self)) as [[operand s2]| |];
      simpl in *; [| done | done].
    destruct HF' as [Htok Hlt].
    destruct (IH (tokens_left s2) ltac:(lia)) as (_ & HTL' & _).
    specialize (HTL' n (BinOp node (type t) operand) s2 eq_refl ltac:(lia)).
    destruct (parse_term_loop n _ s2) as [[node' s3]| |]; simpl in *; [| done | done].
    destruct HTL' as [Htok' Hle]. split; [congruence | lia]. }
  assert (∀ fuel self, tokens_left self = k → 3 * k + 2 ≤ fuel →
     advances true self (parse_term fuel self)) as HT.
  { intros [|n] self Hk Hfuel; [lia |]. simpl.
    specialize (HF n self Hk ltac:(lia)).
    destruct (parse_factor n self) as [[node s1]| |]; simpl in *; [| done | done].
    destruct HF as [Htok Hlt].
    destruct (IH (tokens_left s1) ltac:(lia)) as (_ & HTL' & _).
    specialize (HTL' n node s1 eq_refl ltac:(lia)).
    destruct (parse_term_loop n node s1) as [[node' s2]| |]; simpl in *; [| done | done].
    destruct HTL' as [Htok' Hle]. split; [congruence | lia]. }
  assert (∀ fuel node self, tokens_left self = k → 3 * k + 1 ≤ fuel →
     advances false self (parse_expression_loop fuel node self)) as HEL.
  { intros [|n] node self Hk Hfuel; [lia |]. simpl.
    destruct (peek_in [PLUS; MINUS] self) eqn:Hin; [| done].
    apply peek_in_Some in Hin as (t & Hpeek & _).
    rewrite (consume_None_Some _ _ Hpeek). simpl.
    pose proof (tokens_left_advance _ _ Hpeek) as Hleft.
    destruct (IH (tokens_left (advance self)) ltac:(lia)) as (_ & _ & HT' & _).
    specialize (HT' n (advance self) eq_refl ltac:(lia)).
    destruct (parse_term n (advance self)) as [[operand s2]| |];
      simpl in *; [| done | done].
    destruct HT' as [Htok Hlt].
    destruct (IH (tokens_left s2) ltac:(lia)) as (_ & _ & _ & HEL' & _).
    specialize (HEL' n (BinOp node (type t) operand) s2 eq_refl ltac:(lia)).
    destruct (parse_expression_loop n _ s2) as [[node' s3]| |];
      simpl in *; [| done | done].
    destruct HEL' as [Htok' Hle]. split; [congruence | lia]. }
  repeat split; try done.
  intros [|n] self Hk Hfuel; [lia |]. simpl.
  specialize (HT n self Hk ltac:(lia)).
  destruct (parse_term n self) as [[node s1]| |]; simpl in *; [| done | done].
  destruct HT as [Htok Hlt].
  destruct (IH (tokens_left s1) ltac:(lia)) as (_ & _ & _ & HEL' & _).
  specialize (HEL' n node s1 eq_refl ltac:(lia)).
  destruct (parse_expression_loop n node s1) as [[node' s2]| |];
    simpl in *; [| done | done].
  destruct HEL' as [Htok' Hle]. split; [congruence | lia].
Qed.

Lemma advances_not_OutOfFuel strict self r : advances strict self r → r ≠ OutOfFuel.
Proof. by destruct r. Qed.

Lemma expression_at_advances self : advances true self (expression_at self).
Proof.
  destruct (parse_fuel_enough (tokens_left self)) as (_ & _ & _ & _ & H).
  apply H; [done | unfold parse_fuel; lia].
Qed.

Lemma expression_loop_at_advances node self :
  advances false self (expression_loop_at node self).
Proof.
  destruct (parse_fuel_enough (tokens_left self)) as (_ & _ & _ & H & _).
  apply H; [done | unfold parse_fuel; lia].
Qed.

Lemma term_at_advances self : advances true self (term_at self).
Proof.
  destruct (parse_fuel_enough (tokens_left self)) as (_ & _ & H & _).
  apply H; [done | unfold parse_fuel; lia].
Qed.

Lemma term_loop_at_advances node self : advances false self (term_loop_at node self).
Proof.
  destruct (parse_fuel_enough (tokens_left self)) as (_ & H & _).
  apply H; [done | unfold parse_fuel; lia].
Qed.

Lemma factor_at_advances self : advances true self (factor_at self).
Proof.
  destruct (parse_fuel_enough (tokens_left self)) as (H & _).
  apply H; [done | unfold parse_fuel; lia].
Qed.

(** Any fuel above the bound gives the result of the canonical fuel. *)
Lemma parse_expression_fuel fuel self :
  3 * tokens_left self + 3 ≤ fuel → parse_expression fuel self = expression_at self.
Proof.
  intros Hfuel. destruct (parse_fuel_mono (parse_fuel self)) as (H & _).
  apply H; [done |]. apply (advances_not_OutOfFuel true self), expression_at_advances.
Qed.

Lemma parse_expression_loop_fuel fuel node self :
  3 * tokens_left self + 1 ≤ fuel →
  parse_expression_loop fuel node self = expression_loop_at node self.
Proof.
  intros Hfuel.
  destruct (parse_fuel_enough (tokens_left self)) as (_ & _ & _ & He & _).
  pose proof (He (3 * tokens_left self + 1) node self eq_refl ltac:(lia)) as Hmin.
  apply advances_not_OutOfFuel in Hmin.
  destruct (parse_fuel_mono (3 * tokens_left self + 1)) as (_ & H & _).
  unfold expression_loop_at.
  rewrite (H fuel node self Hfuel Hmin).
  rewrite (H (parse_fuel self) node self ltac:(unfold parse_fuel; lia) Hmin). done.
Qed.

Lemma parse_term_fuel fuel self :
  3 * tokens_left self + 2 ≤ fuel → parse_term fuel self = term_at self.
Proof.
  intros Hfuel.
  destruct (parse_fuel_enough (tokens_left self)) as (_ & _ & He & _).
  pose proof (He (3 * tokens_left self + 2) self eq_refl ltac:(lia)) as Hmin.
  apply advances_not_OutOfFuel in Hmin.
  destruct (parse_fuel_mono (3 * tokens_left self + 2)) as (_ & _ & H & _).
  unfold term_at.
  rewrite (H fuel self Hfuel Hmin).
  rewrite (H (parse_fuel self) self ltac:(unfold parse_fuel; lia) Hmin). done.
Qed.

Lemma parse_term_loop_fuel fuel node self :
  3 * tokens_left self + 1 ≤ fuel →
  parse_term_loop fuel node self = term_loop_at node self.
Proof.
  intros Hfuel.
  destruct (parse_fuel_enough (tokens_left self)) as (_ & He & _).
  pose proof (He (3 * tokens_left self + 1) node self eq_refl ltac:(lia)) as Hmin.
  apply advances_not_OutOfFuel in Hmin.
  destruct (parse_fuel_mono (3 * tokens_left self + 1)) as (_ & _ & _ & H & _).
  unfold term_loop_at.
  rewrite (H fuel node self Hfuel Hmin).
  rewrite (H (parse_fuel self) node self ltac:(unfold parse_fuel; lia) Hmin). done.
Qed.

Lemma parse_factor_fuel fuel self :
  3 * tokens_left self + 1 ≤ fuel → parse_factor fuel self = factor_at self.
Proof.
  intros Hfuel.
  destruct (parse_fuel_enough (tokens_left self)) as (He & _).
  pose proof (He (3 * tokens_left self + 1) self eq_refl ltac:(lia)) as Hmin.
  apply advances_not_OutOfFuel in Hmin.
  destruct (parse_fuel_mono (3 * tokens_left self + 1)) as (_ & _ & _ & _ & H).
  unfold factor_at.
  rewrite (H fuel self Hfuel Hmin).
  rewrite (H (parse_fuel self) self ltac:(unfold parse_fuel; lia) Hmin). done.
Qed.

Lemma parse_fuel_S self : parse_fuel self = S (3 * tokens_left self + 2).
Proof. unfold parse_fuel. lia. Qed.

(** The bodies of the five functions, free of fuel. *)
Lemma expression_at_eq self :
  expression_at self =
    '(node, self1) ← term_at self; expression_loop_at node self1.
Proof.
  unfold expression_at. rewrite parse_fuel_S. simpl.
  rewrite parse_term_fuel by lia.
  pose proof (term_at_advances self) as Hadv.
  destruct (term_at self) as [[node s1]| |]; simpl in *; [| done | done].
  apply parse_expression_loop_fuel. lia.
Qed.

Lemma expression_loop_at_eq node self :
  expression_loop_at node self =
    if peek_in [PLUS; MINUS] self then
      match peek self with
      | None => Raise AttributeError
      | Some token =>
          '(operand, self2) ← term_at (advance self);
          expression_loop_at (BinOp node (type token) operand) self2
      end
    else Return (node, self).
Proof.
  unfold expression_loop_at at 1. rewrite parse_fuel_S. simpl.
  destruct (peek_in [PLUS; MINUS] self) eqn:Hin; [| done].
  apply peek_in_Some in Hin as (t & Hpeek & _).
  rewrite (consume_None_Some _ _ Hpeek), Hpeek. simpl.
  pose proof (tokens_left_advance _ _ Hpeek) as Hleft.
  rewrite parse_term_fuel by lia.
  pose proof (term_at_advances (advance self)) as Hadv.
  destruct (term_at (advance self)) as [[operand s2]| |]; simpl in *; [| done | done].
  apply parse_expression_loop_fuel. lia.
Qed.

Lemma term_at_eq self :
  term_at self = '(node, self1) ← factor_at self; term_loop_at node self1.
Proof.
  unfold term_at. rewrite parse_fuel_S. simpl.
  rewrite parse_factor_fuel by lia.
  pose proof (factor_at_advances self) as Hadv.
  destruct (factor_at self) as [[node s1]| |]; simpl in *; [| done | done].
  apply parse_term_loop_fuel. lia.
Qed.

Lemma term_loop_at_eq node self :
  term_loop_at node self =
    if peek_in [MUL; DIV] self then
      match peek self with
      | None => Raise AttributeError
      | Some token =>
          '(operand, self2) ← factor_at (advance self);
          term_loop_at (BinOp node (type token) operand) self2
      end
    else Return (node, self).
Proof.
  unfold term_loop_at at 1. rewrite parse_fuel_S. simpl.
  destruct (peek_in [MUL; DIV] self) eqn:Hin; [| done].
  apply peek_in_Some in Hin as (t & Hpeek & _).
  rewrite (consume_None_Some _ _ Hpeek), Hpeek. simpl.
  pose proof (tokens_left_advance _ _ Hpeek) as Hleft.
  rewrite parse_factor_fuel by lia.
  pose proof (factor_at_advances (advance self)) as Hadv.
  destruct (factor_at (advance self)) as [[operand s2]| |]; simpl in *; [| done | done].
  apply parse_term_loop_fuel. lia.
Qed.

Lemma factor_at_eq self :
  factor_at self =
    match peek self with
    | None => Raise AttributeError
    | Some token =>
        match type token with
        | NUMBER => node ← make_Num (value token); Return (node, advance self)
        | IDENT => Return (Var (value token), advance self)
        | LPAREN =>
            '(node, self1) ← expression_at (advance self);
            '(_, self2) ← consume (Some RPAREN) self1;
            Return (node, self2)
        | _ => Return (NoNode, advance self)
        end
    end.
Proof.
  unfold factor_at. rewrite parse_fuel_S. simpl.
  destruct (peek self) as [t|] eqn:Hpeek.
  2:{ by rewrite (consume_None_None _ Hpeek). }
  rewrite (consume_None_Some _ _ Hpeek). simpl.
  pose proof (tokens_left_advance _ _ Hpeek) as Hleft.
  destruct (type t); try done.
  by rewrite parse_expression_fuel by lia.
Qed.

(** [parse_statement], free of fuel. *)
Lemma parse_statement_eq self :
  parse_statement self =
    match peek self with
    | None => Raise AttributeError
    | Some token =>
        if bool_decide (type token = IDENT) then
          if peek_in [ASSIGN] (advance self) then
            '(node, self3) ← expression_at (advance (advance self));
            Return (Assign (value token) node true, self3)
          else if peek_in [EQUALS] (advance self) then
            '(node, self3) ← expression_at (advance (advance self));
            Return (Assign (value token) node false, self3)
          else expression_at (advance self)
        else expression_at self
    end.
Proof.
  unfold parse_statement, expression_at.
  destruct (peek self) as [t|] eqn:Hpeek; [| done].
  case_bool_decide; [| done].
  rewrite (consume_None_Some _ _ Hpeek). simpl.
  destruct (peek_in [ASSIGN] (advance self)) eqn:Hin.
  { apply peek_in_Some in Hin as (t' & Hpeek' & _).
    by rewrite (consume_None_Some _ _ Hpeek'). }
  destruct (peek_in [EQUALS] (advance self)) eqn:Hin'; [| done].
  apply peek_in_Some in Hin' as (t' & Hpeek' & _).
  by rewrite (consume_None_Some _ _ Hpeek').
Qed.

(** The parser always returns or raises. *)
Lemma parse_statement_total self : parse_statement self ≠ OutOfFuel.
Proof.
  rewrite parse_statement_eq.
  destruct (peek self) as [t|]; [| done].
  assert (∀ s, expression_at s ≠ OutOfFuel) as He.
  { intros s. apply (advances_not_OutOfFuel true s), expression_at_advances. }
  assert (∀ s d, (expression_at s ≫= λ '(node, self3), Return (Assign (value t) node d, self3))
                 ≠ OutOfFuel) as Ha.
  { intros s d. specialize (He s). by destruct (expression_at s) as [[??]| |]. }
  case_bool_decide; [| done].
  destruct (peek_in [ASSIGN] (advance self)); [done |].
  destruct (peek_in [EQUALS] (advance self)); done.
Qed.

(** ** The lexer on a text followed by more text *)

Lemma many_app_stop (cls : ascii → bool) (s : string) (c : ascii) (post : string) :
  cls c = false →
  many cls (s +:+ String c post) = ((many cls s).1, (many cls s).2 +:+ String c post).
Proof.
  intros Hc. induction s as [|a s IH].
  - rewrite string_app_nil_l. simpl. by rewrite Hc.
  - rewrite string_app_cons. simpl. destruct (cls a); [| done].
    rewrite IH. by destruct (many cls s).
Qed.

Lemma many_app_inside (cls : ascii → bool) (s m r x : string) (d : ascii) :
  many cls s = (m, String d r) →
  many cls (s +:+ x) = (m, String d r +:+ x).
Proof.
  revert m. induction s as [|a s IH]; intros m; [done |].
  rewrite string_app_cons. simpl. destruct (cls a).
  - destruct (many cls s) as [m' r'] eqn:Hm. intros [= <- ->].
    by rewrite (IH m' eq_refl).
  - intros [= <- <- <-]. done.
Qed.

Lemma many_all (cls : ascii → bool) (s : string) :
  string_forallb cls (many cls s).1 = true.
Proof.
  induction s as [|a s IH]; [done |]. simpl.
  destruct (cls a) eqn:Ha; [| done].
  destruct (many cls s) as [m r]. simpl in *. by rewrite Ha, IH.
Qed.

Lemma many_of_all (cls : ascii → bool) (s : string) :
  string_forallb cls s = true → many cls s = (s, "").
Proof.
  induction s as [|a s IH]; [done |]. simpl.
  intros [Ha Hs]%andb_prop. rewrite Ha, (IH Hs). done.
Qed.

Lemma many_of_all_stop (cls : ascii → bool) (s r : string) (d : ascii) :
  string_forallb cls s = true → cls d = false →
  many cls (s +:+ String d r) = (s, String d r).
Proof.
  intros Hs Hd. rewrite (many_app_stop _ _ _ _ Hd), (many_of_all _ _ Hs). done.
Qed.

Lemma literal_cons (b a : ascii) (lit s : string) :
  literal (String b lit) (String a s) =
    if Ascii.eqb b a then
      match literal lit s with
      | Some (m, r) => Some (String b m, r)
      | None => None
      end
    else None.
Proof. reflexivity. Qed.

Lemma literal_app (lit s x m rest : string) :
  literal lit s = Some (m, rest) → literal lit (s +:+ x) = Some (m, rest +:+ x).
Proof.
  revert s m rest. induction lit as [|a lit IH]; intros s m rest; simpl.
  - intros [= <- <-]. done.
  - destruct s as [|c s]; [done |]. rewrite string_app_cons.
    destruct (Ascii.eqb a c); [| done].
    destruct (literal lit s) as [[m' r']|] eqn:Hl; [| done].
    intros [= <- <-]. by rewrite (IH _ _ _ Hl).
Qed.

Lemma is_boundary_true (c : ascii) :
  is_boundary c = true →
  is_digit c = false ∧ is_ident_char c = false ∧ is_blank c = false ∧ c ≠ "."%char.
Proof.
  unfold is_boundary. rewrite negb_true_iff, !orb_false_iff.
  intros [[[? ?] ?] ?%bool_decide_eq_false]. done.
Qed.

Lemma alternation_stable alts pre x :
  Forall (λ np : TokenType * pattern, stable_at pre x np.2) alts →
  alternation alts (pre +:+ x) =
    (λ '(k, m, rest), (k, m, rest +:+ x)) <$> alternation alts pre.
Proof.
  induction 1 as [|[k p] alts Hp _ IH]; [done |].
  simpl in *. unfold stable_at in Hp.
  destruct (p pre) as [[m rest]|]; rewrite Hp; done.
Qed.

Section Stable.
Variables (a c : ascii) (s post : string).
Hypothesis Hc : is_boundary c = true.

Lemma re_NUMBER_stable : stable_at (String a s) (String c post) re_NUMBER.
Proof.
  destruct (is_boundary_true c Hc) as (Hd & _ & _ & Hp).
  unfold stable_at, re_NUMBER. rewrite (many_app_stop _ _ _ _ Hd).
  destruct (many is_digit (String a s)) as [whole r]. simpl.
  destruct whole as [|w whole]; [done |].
  destruct r as [|d r].
  { rewrite string_app_nil_l. by rewrite not_point_match. }
  rewrite string_app_cons.
  destruct (decide (d = "."%char)) as [-> | Hd'].
  - rewrite (many_app_stop _ _ _ _ Hd).
    destruct (many is_digit r) as [frac r']. simpl.
    by destruct frac.
  - by rewrite !not_point_match.
Qed.

Lemma re_STRING_stable_Some m rest :
  re_STRING (String a s) = Some (m, rest) →
  re_STRING (String a s +:+ String c post) = Some (m, rest +:+ String c post).
Proof.
  rewrite string_app_cons. unfold re_STRING.
  destruct (Ascii.eqb a quote); [| done].
  destruct (many is_not_quote s) as [body r] eqn:Hb.
  destruct r as [|q r]; [done |].
  rewrite (many_app_inside _ _ _ _ _ _ Hb). intros [= <- <-]. done.
Qed.

Lemma re_STRING_stable : a ≠ quote → stable_at (String a s) (String c post) re_STRING.
Proof.
  intros Ha%Ascii.eqb_neq. unfold stable_at, re_STRING.
  rewrite string_app_cons. by rewrite Ha.
Qed.

Lemma literal_one_stable (b : ascii) :
  stable_at (String a s) (String c post) (literal (String b "")).
Proof.
  unfold stable_at. rewrite string_app_cons, !literal_cons.
  by destruct (Ascii.eqb b a).
Qed.

Lemma literal_ASSIGN_stable :
  a ≠ ":"%char → stable_at (String a s) (String c post) (literal ":=").
Proof.
  intros Ha. unfold stable_at. rewrite string_app_cons, !literal_cons.
  destruct (Ascii.eqb ":" a) eqn:E; [| done].
  apply Ascii.eqb_eq in E. done.
Qed.

Lemma re_IDENT_stable : stable_at (String a s) (String c post) re_IDENT.
Proof.
  destruct (is_boundary_true c Hc) as (_ & Hi & _ & _).
  unfold stable_at, re_IDENT. rewrite string_app_cons.
  destruct (is_ident_start a); [| done].
  rewrite (many_app_stop _ _ _ _ Hi). by destruct (many is_ident_char s).
Qed.

Lemma re_SKIP_stable : stable_at (String a s) (String c post) re_SKIP.
Proof.
  destruct (is_boundary_true c Hc) as (_ & _ & Hb & _).
  unfold stable_at, re_SKIP. rewrite (many_app_stop _ _ _ _ Hb).
  destruct (many is_blank (String a s)) as [m r]. simpl. by destruct m.
Qed.

Lemma re_ERROR_stable : stable_at (String a s) (String c post) re_ERROR.
Proof.
  unfold stable_at, re_ERROR. rewrite string_app_cons.
  by destruct (Ascii.eqb a newline).
Qed.

Lemma TOKEN_TYPES_stable :
  a ≠ quote → a ≠ ":"%char →
  Forall (λ np : TokenType * pattern, stable_at (String a s) (String c post) np.2)
    TOKEN_TYPES.
Proof.
  intros Hq Hcolon. unfold TOKEN_TYPES.
  repeat (apply Forall_cons; split;
    [first [ apply re_NUMBER_stable | by apply re_STRING_stable
           | by apply literal_ASSIGN_stable | apply literal_one_stable
           | apply re_IDENT_stable | apply re_SKIP_stable
           | apply re_ERROR_stable ] |]).
  apply Forall_nil_2.
Qed.
End Stable.

Lemma alternation_cons_Some k p alts s m rest :
  p s = Some (m, rest) → alternation ((k, p) :: alts) s = Some (k, m, rest).
Proof. simpl. by intros ->. Qed.

Lemma alternation_cons_None k p alts s :
  p s = None → alternation ((k, p) :: alts) s = alternation alts s.
Proof. simpl. by intros ->. Qed.

(** On a double quote the regex matches a STRING, or else ERROR. *)
Lemma regex_quote (s : string) :
  regex (String quote s) =
    match re_STRING (String quote s) with
    | Some (m, rest) => Some (STRING, m, rest)
    | None => Some (ERROR, String quote "", s)
    end.
Proof.
  unfold regex, TOKEN_TYPES.
  rewrite alternation_cons_None by reflexivity.
  destruct (re_STRING (String quote s)) as [[m rest]|] eqn:Hs.
  - by rewrite (alternation_cons_Some _ _ _ _ _ _ Hs).
  - rewrite (alternation_cons_None _ _ _ _ Hs). reflexivity.
Qed.

(** On a colon it matches ASSIGN when an equals sign follows, or else ERROR. *)
Lemma regex_colon (s : string) :
  regex (String ":" s) =
    match literal ":=" (String ":" s) with
    | Some (m, rest) => Some (ASSIGN, m, rest)
    | None => Some (ERROR, ":", s)
    end.
Proof.
  unfold regex, TOKEN_TYPES.
  do 2 rewrite alternation_cons_None by reflexivity.
  destruct (literal ":=" (String ":" s)) as [[m rest]|] eqn:Hs.
  - by rewrite (alternation_cons_Some _ _ _ _ _ _ Hs).
  - rewrite (alternation_cons_None _ _ _ _ Hs). reflexivity.
Qed.

(** A match that is not an ERROR stays the same when the text goes on with
    a boundary character. *)
Lemma regex_app_boundary pre c post kind m rest :
  is_boundary c = true →
  regex pre = Some (kind, m, rest) → kind ≠ ERROR →
  regex (pre +:+ String c post) = Some (kind, m, rest +:+ String c post).
Proof.
  intros Hc Hre Hkind. destruct pre as [|a s]; [done |].
  destruct (decide (a = quote)) as [-> | Hq].
  { rewrite string_app_cons, regex_quote. rewrite regex_quote in Hre.
    destruct (re_STRING (String quote s)) as [[m' rest']|] eqn:Hs.
    - injection Hre as <- <- <-.
      pose proof (re_STRING_stable_Some quote c s post _ _ Hs) as H.
      rewrite string_app_cons in H. by rewrite H.
    - by injection Hre as <- <- <-. }
  destruct (decide (a = ":"%char)) as [-> | Hcolon].
  { rewrite string_app_cons, regex_colon. rewrite regex_colon in Hre.
    destruct (literal ":=" (String ":" s)) as [[m' rest']|] eqn:Hs.
    - injection Hre as <- <- <-.
      pose proof (literal_app _ _ (String c post) _ _ Hs) as H.
      rewrite string_app_cons in H. by rewrite H.
    - by injection Hre as <- <- <-. }
  unfold regex in *.
  rewrite (alternation_stable _ _ _ (TOKEN_TYPES_stable a c s post Hc Hq Hcolon)).
  by rewrite Hre.
Qed.

(** [lex] of a text that lexes, followed by a boundary character and more
    text: the tokens of the text, then those of what follows. *)
Lemma lex_app_boundary pre c post toks :
  is_boundary c = true →
  lex pre = Return toks →
  lex (pre +:+ String c post) = (toks ++.) <$> lex (String c post).
Proof.
  intros Hc. remember (String.length pre) as n eqn:Hn. revert pre toks Hn.
  induction n as [n IH] using lt_wf_ind. intros pre toks -> Hlex.
  destruct pre as [|a s].
  { rewrite lex_unfold in Hlex. simpl in Hlex. injection Hlex as <-.
    rewrite string_app_nil_l. destruct (lex (String c post)); reflexivity. }
  rewrite lex_unfold in Hlex.
  destruct (regex_total a s) as [[[kind m] rest] Hre]. rewrite Hre in Hlex.
  pose proof (regex_shorter _ _ _ _ Hre) as Hlt.
  assert (kind ≠ ERROR) as Hkind by (by intros ->).
  rewrite lex_unfold, (regex_app_boundary _ _ _ _ _ _ Hc Hre Hkind).
  destruct kind; try done.
  all: try (destruct (lex rest) as [toks'| |] eqn:Hrest; [| done | done];
            simpl in Hlex; injection Hlex as <-;
            rewrite (IH _ Hlt rest toks' eq_refl Hrest);
            destruct (lex (String c post)); reflexivity).
Qed.

(** ** The parser on the derivations of the grammar *)

Lemma Parser_eq (a b : Parser) : tokens a = tokens b → pos a = pos b → a = b.
Proof. destruct a, b. simpl. by intros -> ->. Qed.

Lemma remaining_cons self t ts :
  remaining self = t :: ts → peek self = Some t ∧ remaining (advance self) = ts.
Proof.
  unfold remaining, peek, advance. simpl. intros H. split.
  - rewrite <- (Nat.add_0_r (pos self)), <- lookup_drop, H. done.
  - change (S (pos self)) with (1 + pos self).
    by rewrite Nat.add_comm, <- drop_drop, H.
Qed.

Lemma remaining_nil self : remaining self = [] → peek self = None.
Proof.
  unfold remaining, peek. intros H. apply lookup_ge_None.
  apply (f_equal length) in H. rewrite length_drop in H. simpl in H. lia.
Qed.

Lemma remaining_skip self ts suffix :
  remaining self = ts ++ suffix → remaining (skip (length ts) self) = suffix.
Proof.
  unfold remaining, skip. simpl. intros H.
  by rewrite <- drop_drop, H, drop_app_length.
Qed.

Lemma peek_in_remaining types self :
  peek_in types self = starts_with types (remaining self).
Proof.
  unfold peek_in. destruct (remaining self) as [|t ts] eqn:H.
  - by rewrite (remaining_nil _ H).
  - by destruct (remaining_cons _ _ _ H) as [-> _].
Qed.

Lemma skip_advance self n : advance (skip n self) = skip (S n) self.
Proof. apply Parser_eq; simpl; [done | unfold advance, skip; simpl; lia]. Qed.

Lemma skip_skip self n m : skip m (skip n self) = skip (n + m) self.
Proof. apply Parser_eq; simpl; [done | lia]. Qed.

Lemma advance_skip self : advance self = skip 1 self.
Proof. apply Parser_eq; simpl; [done | unfold advance; simpl; lia]. Qed.

Lemma is_number_parse_decimal (n : string) :
  is_number n = true → is_Some (parse_decimal n).
Proof.
  unfold is_number. intros H%bool_decide_eq_true. revert H.
  unfold re_NUMBER, parse_decimal.
  destruct (many is_digit n) as [whole r].
  destruct whole as [|w whole]; [done |].
  destruct r as [|d r]; [by eexists |].
  destruct (decide (d = "."%char)) as [-> | Hd].
  - destruct (many is_digit r) as [frac r'].
    destruct frac as [|f frac]; [done |].
    intros [= _ ->]. by eexists.
  - by rewrite not_point_match.
Qed.

Lemma is_number_py_float (n : string) :
  is_number n = true → py_float n = Some (literal_value n).
Proof.
  intros [[z d] H]%is_number_parse_decimal.
  unfold literal_value, py_float. by rewrite H.
Qed.

(** The conversion on some literals, against the binary64 numbers written
    in hexadecimal: a tenth, a number half-way between two neighbours (ties
    go to the even one), and one just above the half-way point. *)
Example py_float_examples :
  py_float "0.1" = Some 0x1.999999999999ap-4%float ∧
  py_float "2.50" = Some 0x1.4p+1%float ∧
  py_float "9007199254740993" = Some 0x1p+53%float ∧
  py_float "9007199254740993.0000001" = Some 0x1.0000000000001p+53%float.
Proof. repeat split; reflexivity. Qed.

Lemma make_Num_number (n : string) :
  is_number n = true → make_Num n = Return (Num (literal_value n)).
Proof. intros H. unfold make_Num. by rewrite (is_number_py_float _ H). Qed.

(** The descent on the tokens of a derivation builds its tree.  A factor is
    read whatever follows; a term is read up to the loop of [parse_term],
    which goes on if a [*] or [/] follows; an expression is read up to the
    loop of [parse_expression] when no [*] or [/] follows. *)
Lemma parse_derivation :
  (∀ e self suffix, expression_wf e = true →
     remaining self = expression_tokens e ++ suffix →
     starts_with [MUL; DIV] suffix = false →
     expression_at self =
       expression_loop_at (expression_node e)
         (skip (length (expression_tokens e)) self)) ∧
  (∀ t self suffix, term_wf t = true →
     remaining self = term_tokens t ++ suffix →
     term_at self =
       term_loop_at (term_node t) (skip (length (term_tokens t)) self)) ∧
  (∀ f self suffix, factor_wf f = true →
     remaining self = factor_tokens f ++ suffix →
     factor_at self =
       Return (factor_node f, skip (length (factor_tokens f)) self)).
Proof.
  apply grammar_mutind.
  - (* E_term *)
    intros t IHt self suffix Hwf Hrem Hsuffix. simpl in *.
    rewrite expression_at_eq, (IHt self suffix Hwf Hrem).
    rewrite term_loop_at_eq, peek_in_remaining.
    by rewrite (remaining_skip _ _ _ Hrem), Hsuffix.
  - (* E_binary *)
    intros e IHe op t IHt self suffix [Hwfe Hwft]%andb_prop Hrem Hsuffix.
    simpl in *. rewrite <- app_assoc in Hrem. simpl in Hrem.
    rewrite (IHe self _ Hwfe Hrem) by (by destruct op).
    pose proof (remaining_skip _ _ _ Hrem) as Hrem1.
    rewrite expression_loop_at_eq, peek_in_remaining, Hrem1.
    destruct (remaining_cons _ _ _ Hrem1) as [Hpeek Hrem2].
    replace (starts_with [PLUS; MINUS] _) with true by (by destruct op).
    rewrite Hpeek. rewrite (IHt _ suffix Hwft Hrem2).
    pose proof (remaining_skip _ _ _ Hrem2) as Hrem3.
    rewrite term_loop_at_eq, peek_in_remaining, Hrem3, Hsuffix. simpl.
    f_equal. rewrite skip_advance, skip_skip, length_app. simpl.
    f_equal. lia.
  - (* T_factor *)
    intros f IHf self suffix Hwf Hrem. simpl in *.
    by rewrite term_at_eq, (IHf self suffix Hwf Hrem).
  - (* T_binary *)
    intros t IHt op f IHf self suffix [Hwft Hwff]%andb_prop Hrem.
    simpl in *. rewrite <- app_assoc in Hrem. simpl in Hrem.
    rewrite (IHt self _ Hwft Hrem).
    pose proof (remaining_skip _ _ _ Hrem) as Hrem1.
    rewrite term_loop_at_eq, peek_in_remaining, Hrem1.
    destruct (remaining_cons _ _ _ Hrem1) as [Hpeek Hrem2].
    replace (starts_with [MUL; DIV] _) with true by (by destruct op).
    rewrite Hpeek. rewrite (IHf _ suffix Hwff Hrem2). simpl.
    f_equal. rewrite skip_advance, skip_skip, length_app. simpl.
    f_equal. lia.
  - (* F_number *)
    intros lexeme self suffix Hwf Hrem. simpl in *.
    destruct (remaining_cons _ _ _ Hrem) as [Hpeek _].
    rewrite factor_at_eq, Hpeek. simpl.
    rewrite (make_Num_number _ Hwf). simpl. by rewrite advance_skip.
  - (* F_paren *)
    intros e IHe self suffix Hwf Hrem. simpl in *.
    destruct (remaining_cons _ _ _ Hrem) as [Hpeek Hrem1].
    rewrite factor_at_eq, Hpeek. simpl.
    rewrite <- app_assoc in Hrem1. simpl in Hrem1.
    rewrite (IHe _ _ Hwf Hrem1) by done.
    pose proof (remaining_skip _ _ _ Hrem1) as Hrem2.
    rewrite expression_loop_at_eq, peek_in_remaining, Hrem2. simpl.
    destruct (remaining_cons _ _ _ Hrem2) as [Hpeek2 _].
    unfold consume. unfold peek in Hpeek2. rewrite Hpeek2. simpl.
    f_equal. f_equal. rewrite skip_advance, advance_skip, skip_skip.
    rewrite length_app. simpl. f_equal. lia.
Qed.

(** A derivation starts with a number or an opening parenthesis. *)
Lemma derivation_first_token :
  (∀ e, ∃ t ts, expression_tokens e = t :: ts ∧ type t ∈ [NUMBER; LPAREN]) ∧
  (∀ t, ∃ t' ts, term_tokens t = t' :: ts ∧ type t' ∈ [NUMBER; LPAREN]) ∧
  (∀ f, ∃ t ts, factor_tokens f = t :: ts ∧ type t ∈ [NUMBER; LPAREN]).
Proof.
  apply grammar_mutind; simpl.
  - done.
  - intros e (t' & ts & -> & Ht) op t _. simpl. eauto.
  - done.
  - intros t (t' & ts & -> & Ht) op f _. simpl. eauto.
  - intros lexeme. eexists _, _. split; [done | rewrite !elem_of_cons; auto].
  - intros e _. eexists _, _. split; [done | rewrite !elem_of_cons; auto].
Qed.

(** [parse_statement] on the tokens of a derivation returns its tree. *)
Lemma parse_statement_derivation (e : expression) :
  expression_wf e = true →
  ∃ self',
    parse_statement (mkParser (expression_tokens e) 0) =
      Return (expression_node e, self').
Proof.
  intros Hwf. set (self := mkParser (expression_tokens e) 0).
  assert (remaining self = expression_tokens e ++ []) as Hrem.
  { unfold remaining. simpl. by rewrite app_nil_r. }
  destruct derivation_first_token as (Hfirst & _ & _).
  destruct (Hfirst e) as (t & ts & Hts & Ht).
  assert (peek self = Some t) as Hpeek.
  { apply (remaining_cons _ _ ts). by rewrite Hrem, Hts, app_nil_r. }
  rewrite parse_statement_eq, Hpeek.
  case_bool_decide as Hident.
  { rewrite Hident, !elem_of_cons, elem_of_nil in Ht.
    destruct Ht as [Ht | [Ht | []]]; discriminate. }
  rewrite (proj1 parse_derivation e self [] Hwf Hrem eq_refl).
  rewrite expression_loop_at_eq, peek_in_remaining.
  rewrite (remaining_skip _ _ _ Hrem). simpl. eauto.
Qed.

(** ** The interpreter on the trees of derivations *)

Lemma visit_derivation :
  (∀ e globals,
     visit (expression_node e) globals = (PyFloat <$> expression_value e, globals)) ∧
  (∀ t globals,
     visit (term_node t) globals = (PyFloat <$> term_value t, globals)) ∧
  (∀ f globals,
     visit (factor_node f) globals = (PyFloat <$> factor_value f, globals)).
Proof.
  apply grammar_mutind; simpl; try done.
  - intros e IHe op t IHt globals. rewrite IHe.
    destruct (expression_value e) as [x| |]; simpl; [| done | done].
    rewrite IHt. destruct (term_value t) as [y| |]; simpl; [| done | done].
    by destruct op.
  - intros t IHt op f IHf globals. rewrite IHt.
    destruct (term_value t) as [x| |]; simpl; [| done | done].
    rewrite IHf. destruct (factor_value f) as [y| |]; simpl; [| done | done].
    destruct op; simpl; [done |].
    unfold py_truediv. by destruct (PrimFloat.eqb y 0).
Qed.

(** ** The NUMBER tokens of [lex] *)

Lemma regex_NUMBER s m rest :
  regex s = Some (NUMBER, m, rest) → re_NUMBER s = Some (m, rest).
Proof.
  unfold regex, TOKEN_TYPES.
  destruct (re_NUMBER s) as [[m' rest']|] eqn:Hn.
  - rewrite (alternation_cons_Some _ _ _ _ _ _ Hn). by intros [= <- <-].
  - rewrite (alternation_cons_None _ _ _ _ Hn).
    intros (pat & Hin & _)%alternation_Some.
    rewrite !elem_of_cons, elem_of_nil in Hin.
    repeat (destruct Hin as [Hin | Hin]; [discriminate |]). done.
Qed.

Lemma re_NUMBER_digits (whole r : string) :
  whole ≠ "" → string_forallb is_digit whole = true →
  (∀ d r', r = String d r' → is_digit d = false ∧ d ≠ "."%char) →
  re_NUMBER (whole +:+ r) = Some (whole, r).
Proof.
  intros Hne Hall Hr. unfold re_NUMBER.
  destruct r as [|d r'].
  - rewrite string_app_nil_r, (many_of_all _ _ Hall). by destruct whole.
  - destruct (Hr d r' eq_refl) as [Hd Hp].
    rewrite (many_of_all_stop _ _ _ _ Hall Hd).
    destruct whole; [done |]. by rewrite not_point_match.
Qed.

Lemma re_NUMBER_fraction (whole frac : string) :
  whole ≠ "" → string_forallb is_digit whole = true →
  frac ≠ "" → string_forallb is_digit frac = true →
  re_NUMBER (whole +:+ String "." frac) = Some (whole +:+ String "." frac, "").
Proof.
  intros Hne Hall Hnef Hallf. unfold re_NUMBER.
  rewrite (many_of_all_stop _ _ _ _ Hall) by done.
  destruct whole; [done |]. rewrite (many_of_all _ _ Hallf).
  by destruct frac.
Qed.

(** What the NUMBER pattern matches is the text of a NUMBER token: matched
    again, alone, it matches itself. *)
Lemma re_NUMBER_is_number s m rest :
  re_NUMBER s = Some (m, rest) → is_number m = true.
Proof.
  unfold is_number. rewrite bool_decide_eq_true. unfold re_NUMBER at 1.
  pose proof (many_all is_digit s) as Hall.
  destruct (many is_digit s) as [whole r]. simpl in Hall.
  destruct whole as [|w whole]; [done |].
  assert (re_NUMBER (String w whole) = Some (String w whole, "")) as Hwhole.
  { rewrite <- (string_app_nil_r (String w whole)) at 1.
    by apply re_NUMBER_digits. }
  destruct r as [|d r]; [by intros [= <- <-] |].
  destruct (decide (d = "."%char)) as [-> | Hd].
  - pose proof (many_all is_digit r) as Hallf.
    destruct (many is_digit r) as [frac r']. simpl in Hallf.
    destruct frac as [|f frac]; [by intros [= <- <-] |].
    intros [= <- <-]. by apply re_NUMBER_fraction.
  - rewrite not_point_match by done. by intros [= <- <-].
Qed.

Lemma lex_numbers text toks :
  lex text = Return toks →
  Forall (λ t, type t = NUMBER → is_number (value t) = true) toks.
Proof.
  remember (String.length text) as n eqn:Hn. revert text toks Hn.
  induction n as [n IH] using lt_wf_ind. intros text toks ->.
  rewrite lex_unfold.
  destruct (regex text) as [[[kind m] rest]|] eqn:Hre.
  2:{ intros [= <-]. constructor. }
  pose proof (regex_shorter _ _ _ _ Hre) as Hlt.
  pose proof (IH _ Hlt rest) as IHrest.
  destruct kind; try done;
    try (destruct (lex rest) as [toks'| |]; [| done | done];
         intros [= <-]; constructor; [done | by apply IHrest]).
  - destruct (lex rest) as [toks'| |]; [| done | done].
    intros [= <-]. constructor; [| by apply IHrest].
    intros _. simpl. apply regex_NUMBER in Hre. by eapply re_NUMBER_is_number.
  - intros H. by apply IHrest.
Qed.

Lemma derivation_tokens_wf :
  (∀ e, Forall (λ t, type t = NUMBER → is_number (value t) = true)
          (expression_tokens e) → expression_wf e = true) ∧
  (∀ t, Forall (λ t, type t = NUMBER → is_number (value t) = true)
          (term_tokens t) → term_wf t = true) ∧
  (∀ f, Forall (λ t, type t = NUMBER → is_number (value t) = true)
          (factor_tokens f) → factor_wf f = true).
Proof.
  apply grammar_mutind; simpl; try done.
  - intros e IHe op t IHt [He Ht]%Forall_app.
    apply Forall_cons in Ht as [_ Ht]. rewrite IHe, IHt; done.
  - intros t IHt op f IHf [Ht Hf]%Forall_app.
    apply Forall_cons in Hf as [_ Hf]. rewrite IHt, IHf; done.
  - intros lexeme [H _]%Forall_cons. by apply H.
  - intros e IHe [_ [He _]%Forall_app]%Forall_cons. by apply IHe.
Qed.

(** A line whose tokens are those of a derivation evaluates to the value of
    the derivation and leaves the dictionary as it was. *)
Lemma run_line_derivation (e : expression) (text : string)
    (globals : gmap string PyValue) :
  lex text = Return (expression_tokens e) →
  run_line text globals = (PyFloat <$> expression_value e, globals).
Proof.
  intros Hlex. unfold run_line. rewrite Hlex.
  assert (expression_wf e = true) as Hwf.
  { apply derivation_tokens_wf. by eapply lex_numbers. }
  destruct (parse_statement_derivation e Hwf) as [self' ->].
  apply visit_derivation.
Qed.

(** ** The text of a derivation *)

Lemma lex_empty : lex "" = Return [].
Proof. reflexivity. Qed.

Lemma lex_number (n : string) :
  is_number n = true → lex n = Return [mkToken NUMBER n].
Proof.
  unfold is_number. intros H%bool_decide_eq_true.
  rewrite lex_unfold. unfold regex, TOKEN_TYPES.
  by rewrite (alternation_cons_Some _ _ _ _ _ _ H).
Qed.

Lemma lex_one (c : ascii) (kind : TokenType) (rest : string) :
  (c, kind) ∈ [("+"%char, PLUS); ("-"%char, MINUS); ("*"%char, MUL);
               ("/"%char, DIV); ("("%char, LPAREN); (")"%char, RPAREN);
               (newline, NEWLINE)] →
  lex (String c rest) = (mkToken kind (String c "") ::.) <$> lex rest.
Proof.
  rewrite !elem_of_cons, elem_of_nil. intros H.
  repeat (destruct H as [[= -> ->] | H]; [by rewrite lex_unfold |]). done.
Qed.

Lemma lex_derivation_text :
  (∀ e x, expression_wf e = true → ends_token x = true →
     lex (expression_text e +:+ x) = (expression_tokens e ++.) <$> lex x) ∧
  (∀ t x, term_wf t = true → ends_token x = true →
     lex (term_text t +:+ x) = (term_tokens t ++.) <$> lex x) ∧
  (∀ f x, factor_wf f = true → ends_token x = true →
     lex (factor_text f +:+ x) = (factor_tokens f ++.) <$> lex x).
Proof.
  apply grammar_mutind; simpl.
  - done.
  - intros e IHe op t IHt x [Hwfe Hwft]%andb_prop Hx.
    rewrite !string_app_assoc, IHe by (by destruct op).
    assert (lex (addop_text op +:+ term_text t +:+ x) =
            (mkToken (addop_type op) (addop_text op) ::.) <$> lex (term_text t +:+ x))
      as ->.
    { destruct op; apply lex_one; rewrite !elem_of_cons; auto. }
    rewrite (IHt x Hwft Hx).
    destruct (lex x); simpl; [| done | done].
    by rewrite <- app_assoc.
  - done.
  - intros t IHt op f IHf x [Hwft Hwff]%andb_prop Hx.
    rewrite !string_app_assoc, IHt by (by destruct op).
    assert (lex (mulop_text op +:+ factor_text f +:+ x) =
            (mkToken (mulop_type op) (mulop_text op) ::.) <$> lex (factor_text f +:+ x))
      as ->.
    { destruct op; apply lex_one; rewrite !elem_of_cons; auto 10. }
    rewrite (IHf x Hwff Hx).
    destruct (lex x); simpl; [| done | done].
    by rewrite <- app_assoc.
  - intros lexeme x Hwf Hx. destruct x as [|c post].
    + by rewrite string_app_nil_r, (lex_number _ Hwf).
    + by rewrite (lex_app_boundary _ _ _ _ Hx (lex_number _ Hwf)).
  - intros e IHe x Hwf Hx.
    rewrite !string_app_assoc.
    change (lex (String "(" (expression_text e +:+ String ")" x)) =
            app (mkToken LPAREN "(" :: expression_tokens e ++ [mkToken RPAREN ")"])
              <$> lex x).
    rewrite (lex_one "(" LPAREN) by (rewrite !elem_of_cons; auto 10).
    rewrite IHe by done.
    rewrite (lex_one ")" RPAREN) by (rewrite !elem_of_cons; auto 10).
    destruct (lex x); simpl; [| done | done].
    by rewrite <- app_assoc.
Qed.

Lemma lex_expression_text (e : expression) :
  expression_wf e = true → lex (expression_text e) = Return (expression_tokens e).
Proof.
  intros Hwf. destruct lex_derivation_text as (H & _ & _).
  specialize (H e "" Hwf eq_refl).
  rewrite string_app_nil_r in H. rewrite H, lex_empty. simpl.
  by rewrite app_nil_r.
Qed.

(** ** Newlines and characters of no class *)

Lemma lex_newline_after (pre post : string) (toks : list Token) :
  lex pre = Return toks →
  lex (pre +:+ String newline post) =
    (λ rest, toks ++ mkToken NEWLINE (String newline "") :: rest) <$> lex post.
Proof.
  intros Hpre. rewrite (lex_app_boundary pre newline post toks eq_refl Hpre).
  rewrite (lex_one newline NEWLINE) by (rewrite !elem_of_cons; auto 10).
  by destruct (lex post).
Qed.

Lemma no_class_boundary (c : ascii) : in_some_class c = false → is_boundary c = true.
Proof.
  unfold in_some_class, is_boundary, is_ident_char.
  rewrite !orb_false_iff, negb_true_iff, !orb_false_iff.
  intros [[[Hd Hi] Hb] Hl%bool_decide_eq_false]. repeat split; try done.
  apply bool_decide_eq_false. intros ->. apply Hl. rewrite !elem_of_cons. auto 20.
Qed.

Lemma regex_no_class (c : ascii) (post : string) :
  in_some_class c = false → regex (String c post) = Some (ERROR, String c "", post).
Proof.
  destruct c as [[] [] [] [] [] [] [] []]; intros H;
    first [ discriminate H | reflexivity ].
Qed.

(** ** The trees the parser builds *)

Lemma parse_builds_expressions (fuel : nat) :
  (∀ self node self', parse_expression fuel self = Return (node, self') →
     is_expression node = true) ∧
  (∀ node0 self node self', is_expression node0 = true →
     parse_expression_loop fuel node0 self = Return (node, self') →
     is_expression node = true) ∧
  (∀ self node self', parse_term fuel self = Return (node, self') →
     is_expression node = true) ∧
  (∀ node0 self node self', is_expression node0 = true →
     parse_term_loop fuel node0 self = Return (node, self') →
     is_expression node = true) ∧
  (∀ self node self', parse_factor fuel self = Return (node, self') →
     is_expression node = true).
Proof.
  induction fuel as [|fuel (IHe & IHel & IHt & IHtl & IHf)].
  { repeat split; intros; simpl in *; done. }
  repeat split.
  - intros self node self'. simpl.
    destruct (parse_term fuel self) as [[n1 s1]| |] eqn:Ht; [| done | done].
    simpl. apply IHel. by eapply IHt.
  - intros node0 self node self' H0. simpl.
    destruct (peek_in [PLUS; MINUS] self); [| by intros [= <- <-]].
    destruct (consume None self) as [[[tok|] s1]| |]; try done. simpl.
    destruct (parse_term fuel s1) as [[n2 s2]| |] eqn:Ht; [| done | done].
    simpl. apply IHel. simpl. rewrite H0. by eapply IHt.
  - intros self node self'. simpl.
    destruct (parse_factor fuel self) as [[n1 s1]| |] eqn:Hf; [| done | done].
    simpl. apply IHtl. by eapply IHf.
  - intros node0 self node self' H0. simpl.
    destruct (peek_in [MUL; DIV] self); [| by intros [= <- <-]].
    destruct (consume None self) as [[[tok|] s1]| |]; try done. simpl.
    destruct (parse_factor fuel s1) as [[n2 s2]| |] eqn:Hf; [| done | done].
    simpl. apply IHtl. simpl. rewrite H0. by eapply IHf.
  - intros self node self'. simpl.
    destruct (consume None self) as [[[tok|] s1]| |]; try done. simpl.
    destruct (type tok); try (by intros [= <- <-]).
    + unfold make_Num. destruct (py_float (value tok)); [| done].
      simpl. by intros [= <- <-].
    + destruct (parse_expression fuel s1) as [[n2 s2]| |] eqn:He; [| done | done].
      simpl. destruct (consume (Some RPAREN) s2) as [[x s3]| |]; [| done | done].
      simpl. intros [= <- <-]. by eapply IHe.
Qed.

Lemma parse_statement_builds self node self' :
  parse_statement self = Return (node, self') → is_statement node = true.
Proof.
  assert (∀ fuel s n s', parse_expression fuel s = Return (n, s') →
            is_expression n = true) as He.
  { intros fuel. apply (parse_builds_expressions fuel). }
  assert (∀ n, is_expression n = true → is_statement n = true) as Hes.
  { intros n. by destruct n. }
  unfold parse_statement.
  destruct (peek self) as [t|]; [| done].
  case_bool_decide; [| intros H'; by eapply Hes, He].
  destruct (consume None self) as [[[tok|] s1]| |]; try done. simpl.
  destruct (peek_in [ASSIGN] s1).
  { destruct (consume None s1) as [[x s2]| |]; [| done | done]. simpl.
    destruct (parse_expression _ s2) as [[n s3]| |] eqn:Hp; [| done | done].
    simpl. intros [= <- <-]. simpl. by eapply He. }
  destruct (peek_in [EQUALS] s1).
  { destruct (consume None s1) as [[x s2]| |]; [| done | done]. simpl.
    destruct (parse_expression _ s2) as [[n s3]| |] eqn:Hp; [| done | done].
    simpl. intros [= <- <-]. simpl. by eapply He. }
  intros H'. by eapply Hes, He.
Qed.

(** ** The interpreter and the dictionary *)

(** Evaluating an expression leaves the dictionary as it was. *)
Lemma visit_expression_globals (node : ASTNode) (globals : gmap string PyValue) :
  is_expression node = true → (visit node globals).2 = globals.
Proof.
  revert globals. induction node as [lhs IHl op rhs IHr| | | |]; intros globals; simpl;
    try done.
  - intros [Hl Hr]%andb_prop.
    specialize (IHl globals Hl). specialize (IHr globals Hr).
    destruct (visit lhs globals) as [[l| |] g1]; simpl in *; subst g1; try done.
    destruct (visit rhs globals) as [[r| |] g2]; simpl in *; subst g2; try done.
    by destruct op.
  - intros _. by destruct (globals !! name).
Qed.

Lemma visit_expression_pair node globals :
  is_expression node = true → visit node globals = ((visit node globals).1, globals).
Proof.
  intros H. rewrite <- (visit_expression_globals node globals H) at 3.
  by destruct (visit node globals).
Qed.

(** [visit] of an [Assign] whose value is an expression. *)
Lemma visit_Assign name value is_decl globals :
  is_expression value = true →
  visit (Assign name value is_decl) globals =
    match (visit value globals).1 with
    | Return val =>
        if is_decl && bool_decide (is_Some (globals !! name)) then
          (Raise (NameError ("Variable '" +:+ name
                             +:+ "' already declared (use = to update)")),
           globals)
        else (Return val, <[name := val]> globals)
    | Raise e => (Raise e, globals)
    | OutOfFuel => (OutOfFuel, globals)
    end.
Proof.
  intros H. simpl. rewrite (visit_expression_pair _ _ H).
  by destruct (visit value globals).1.
Qed.

(** [visit] never runs out of fuel: it takes none. *)
Lemma visit_total node globals : (visit node globals).1 ≠ OutOfFuel.
Proof.
  revert globals. induction node as [lhs IHl op rhs IHr| | |name value IHv d|];
    intros globals; simpl; try done.
  - specialize (IHl globals).
    destruct (visit lhs globals) as [[l| |] g1]; simpl in *; try done.
    specialize (IHr g1).
    destruct (visit rhs g1) as [[r| |] g2]; simpl in *; try done.
    destruct op; simpl; try done; destruct l as [x|], r as [y|]; simpl; try done.
    by destruct (PrimFloat.eqb y 0).
  - by destruct (globals !! name).
  - specialize (IHv globals).
    destruct (visit value globals) as [[v| |] g1]; simpl in *; try done.
    by destruct (d && bool_decide (is_Some (g1 !! name))).
Qed.

(** A line never runs out of fuel. *)
Lemma run_line_total text globals : (run_line text globals).1 ≠ OutOfFuel.
Proof.
  unfold run_line. pose proof (lex_total text) as Hlex.
  destruct (lex text) as [toks| |]; [| done | done].
  pose proof (parse_statement_total (mkParser toks 0)) as Hparse.
  destruct (parse_statement (mkParser toks 0)) as [[ast self']| |]; [| done | done].
  apply visit_total.
Qed.

(** ** A text with a character of no class and no string literal *)

Lemma string_forallb_app cls (a b : string) :
  string_forallb cls (a +:+ b) = string_forallb cls a && string_forallb cls b.
Proof.
  induction a as [|c a IH]; [done |].
  rewrite string_app_cons. simpl. by rewrite IH, andb_assoc.
Qed.

Lemma string_existsb_app cls (a b : string) :
  string_existsb cls (a +:+ b) = string_existsb cls a || string_existsb cls b.
Proof.
  induction a as [|c a IH]; [done |].
  rewrite string_app_cons. simpl. by rewrite IH, orb_assoc.
Qed.

Lemma string_forallb_impl (cls cls' : ascii → bool) (s : string) :
  (∀ c, cls c = true → cls' c = true) →
  string_forallb cls s = true → string_forallb cls' s = true.
Proof.
  intros Himpl. induction s as [|c s IH]; [done |]. simpl.
  intros [Hc Hs]%andb_prop. by rewrite (Himpl c Hc), (IH Hs).
Qed.

Lemma string_forallb_not_existsb (cls : ascii → bool) (s : string) :
  string_forallb cls s = true → string_existsb (λ c, negb (cls c)) s = false.
Proof.
  induction s as [|c s IH]; [done |]. simpl.
  intros [Hc Hs]%andb_prop. by rewrite Hc, (IH Hs).
Qed.

Lemma digit_in_some_class c : is_digit c = true → in_some_class c = true.
Proof. unfold in_some_class. by intros ->. Qed.

Lemma ident_char_in_some_class c : is_ident_char c = true → in_some_class c = true.
Proof.
  unfold in_some_class, is_ident_char.
  intros [-> | ->]%orb_prop; by rewrite ?orb_true_r.
Qed.

Lemma blank_in_some_class c : is_blank c = true → in_some_class c = true.
Proof. unfold in_some_class. intros ->. by rewrite ?orb_true_r. Qed.

Lemma re_NUMBER_classes s m rest :
  re_NUMBER s = Some (m, rest) → string_forallb in_some_class m = true.
Proof.
  unfold re_NUMBER.
  pose proof (many_all is_digit s) as Hall.
  destruct (many is_digit s) as [whole r]. simpl in Hall.
  apply (string_forallb_impl _ _ _ digit_in_some_class) in Hall.
  destruct whole as [|w whole]; [done |].
  destruct r as [|d r]; [by intros [= <- <-] |].
  destruct (decide (d = "."%char)) as [-> | Hd].
  - pose proof (many_all is_digit r) as Hallf.
    destruct (many is_digit r) as [frac r']. simpl in Hallf.
    apply (string_forallb_impl _ _ _ digit_in_some_class) in Hallf.
    destruct frac as [|f frac]; [by intros [= <- <-] |].
    intros [= <- <-]. rewrite string_forallb_app, Hall.
    simpl string_forallb at 1. simpl in Hallf. by rewrite Hallf.
  - rewrite not_point_match by done. by intros [= <- <-].
Qed.

Lemma re_IDENT_classes s m rest :
  re_IDENT s = Some (m, rest) → string_forallb in_some_class m = true.
Proof.
  unfold re_IDENT. destruct s as [|c s]; [done |].
  destruct (is_ident_start c) eqn:Hc; [| done].
  pose proof (many_all is_ident_char s) as Hall.
  destruct (many is_ident_char s) as [m' r]. simpl in Hall.
  apply (string_forallb_impl _ _ _ ident_char_in_some_class) in Hall.
  intros [= <- <-]. simpl. rewrite Hall, andb_true_r.
  apply ident_char_in_some_class. unfold is_ident_char. by rewrite Hc.
Qed.

Lemma re_SKIP_classes s m rest :
  re_SKIP s = Some (m, rest) → string_forallb in_some_class m = true.
Proof.
  unfold re_SKIP.
  pose proof (many_all is_blank s) as Hall.
  destruct (many is_blank s) as [m' r]. simpl in Hall.
  apply (string_forallb_impl _ _ _ blank_in_some_class) in Hall.
  destruct m'; [done |]. by intros [= <- <-].
Qed.

Lemma TOKEN_TYPES_pattern_of kind pat :
  (kind, pat) ∈ TOKEN_TYPES → pat = pattern_of kind.
Proof.
  unfold TOKEN_TYPES. rewrite !elem_of_cons, elem_of_nil. intros Hin.
  repeat (destruct Hin as [[= -> ->] | Hin]; [reflexivity |]). done.
Qed.

Lemma regex_pattern_of s kind m rest :
  regex s = Some (kind, m, rest) → pattern_of kind s = Some (m, rest).
Proof.
  intros (pat & Hin & Hpat)%alternation_Some.
  by rewrite <- (TOKEN_TYPES_pattern_of _ _ Hin).
Qed.

(** Apart from STRING and ERROR, a match is made of characters of the
    classes. *)
Lemma regex_classes s kind m rest :
  regex s = Some (kind, m, rest) → kind ≠ ERROR → kind ≠ STRING →
  string_forallb in_some_class m = true.
Proof.
  intros Hpat%regex_pattern_of Herr Hstr.
  destruct kind; try done; cbv [pattern_of] in Hpat;
    first [ by eapply re_NUMBER_classes
          | by eapply re_IDENT_classes
          | by eapply re_SKIP_classes
          | by apply literal_prefix in Hpat as [-> _] ].
Qed.

Lemma regex_STRING_quote s m rest :
  regex s = Some (STRING, m, rest) → string_existsb (Ascii.eqb quote) s = true.
Proof.
  intros Hpat%regex_pattern_of. cbv [pattern_of] in Hpat.
  unfold re_STRING in Hpat. destruct s as [|c s]; [done |].
  destruct (Ascii.eqb c quote) eqn:Hc; [| done].
  change (Ascii.eqb quote c || string_existsb (Ascii.eqb quote) s = true).
  by rewrite Ascii.eqb_sym, Hc.
Qed.

Lemma regex_ERROR s m rest :
  regex s = Some (ERROR, m, rest) → ∃ c, s = String c rest ∧ m = String c "".
Proof.
  intros Hpat%regex_pattern_of. cbv [pattern_of] in Hpat.
  unfold re_ERROR in Hpat. destruct s as [|c s]; [done |].
  destruct (Ascii.eqb c newline); [done |].
  injection Hpat as <- <-. eauto.
Qed.

(** Without a double quote in the text there is no string literal to hide
    in: a character of no class makes [lex] fail, on the first character
    that nothing matches. *)
Lemma lex_no_class_no_quote (text : string) :
  string_existsb (λ c, negb (in_some_class c)) text = true →
  string_existsb (Ascii.eqb quote) text = false →
  ∃ pre c post,
    text = pre +:+ String c post ∧
    lex text = Raise (SyntaxError ("Illegal character: " +:+ String c "")).
Proof.
  remember (String.length text) as n eqn:Hn. revert text Hn.
  induction n as [n IH] using lt_wf_ind. intros text -> Hbad Hquote.
  destruct text as [|a s]; [done |].
  destruct (regex_total a s) as [[[kind m] rest] Hre].
  pose proof (regex_shorter _ _ _ _ Hre) as Hlt.
  destruct (regex_consumes _ _ _ _ Hre) as [Htext _].
  rewrite lex_unfold, Hre.
  destruct (decide (kind = ERROR)) as [-> | Herr].
  { apply regex_ERROR in Hre as (c & [= -> ->] & ->). by exists "", c, rest. }
  destruct (decide (kind = STRING)) as [-> | Hstr].
  { apply regex_STRING_quote in Hre. congruence. }
  pose proof (regex_classes _ _ _ _ Hre Herr Hstr) as Hm.
  apply string_forallb_not_existsb in Hm.
  rewrite Htext, string_existsb_app in Hbad, Hquote.
  rewrite Hm in Hbad. simpl in Hbad.
  apply orb_false_elim in Hquote as [_ Hquote].
  destruct (IH _ Hlt rest eq_refl Hbad Hquote) as (pre & c & post & -> & Hlex).
  exists (m +:+ pre), c, post. split.
  { by rewrite Htext, string_app_assoc. }
  rewrite Hlex. by destruct kind.
Qed.

(** Every exception of [lex] is the SyntaxError of an illegal character, and
    carries a character of the text: the one at which the scan stopped. *)
Lemma lex_Raise (text : string) (e : exception) :
  lex text = Raise e →
  ∃ pre c post,
    text = pre +:+ String c post ∧
    e = SyntaxError ("Illegal character: " +:+ String c "").
Proof.
  remember (String.length text) as n eqn:Hn. revert text Hn.
  induction n as [n IH] using lt_wf_ind. intros text ->.
  rewrite lex_unfold.
  destruct (regex text) as [[[kind m] rest]|] eqn:Hre; [| done].
  pose proof (regex_shorter _ _ _ _ Hre) as Hlt.
  destruct (regex_consumes _ _ _ _ Hre) as [Htext _].
  destruct (decide (kind = ERROR)) as [-> | Herr].
  { apply regex_ERROR in Hre as (c & -> & ->). intros [= <-]. by exists "", c, rest. }
  intros Hlex.
  assert (lex rest = Raise e) as Hrest.
  { destruct kind; try done; by destruct (lex rest). }
  destruct (IH _ Hlt rest eq_refl Hrest) as (pre & c & post & -> & ->).
  exists (m +:+ pre), c, post. split; [| done].
  by rewrite Htext, string_app_assoc.
Qed.

(** ** The interpreter on any tree, and the loop *)

(** [visit] binds names and never removes one. *)
Lemma visit_keeps_names (node : ASTNode) (globals : gmap string PyValue) (name : string) :
  is_Some (globals !! name) → is_Some ((visit node globals).2 !! name).
Proof.
  revert globals.
  induction node as [lhs IHl op rhs IHr| | |target value IH is_decl|]; intros globals H;
    simpl; try done.
  - specialize (IHl globals H).
    destruct (visit lhs globals) as [[l| |] g1]; simpl in *; try done.
    specialize (IHr g1 IHl).
    destruct (visit rhs g1) as [[r| |] g2]; simpl in *; try done.
    by destruct op.
  - by destruct (globals !! name0).
  - specialize (IH globals H).
    destruct (visit value globals) as [[val| |] g1]; simpl in *; try done.
    destruct (is_decl && bool_decide (is_Some (g1 !! target))); simpl; [done |].
    destruct (decide (target = name)) as [-> | Hne].
    + rewrite lookup_insert_eq. by eexists.
    + by rewrite lookup_insert_ne.
Qed.

Lemma run_line_keeps_names (text : string) (globals : gmap string PyValue) (name : string) :
  is_Some (globals !! name) → is_Some ((run_line text globals).2 !! name).
Proof.
  intros H. unfold run_line.
  destruct (lex text) as [toks| |]; simpl; try done.
  destruct (parse_statement (mkParser toks 0)) as [[ast ?]| |]; simpl; try done.
  by apply visit_keeps_names.
Qed.

Lemma run_lines_keeps_names (inputs : list string) (globals : gmap string PyValue)
    (name : string) :
  is_Some (globals !! name) → is_Some ((run_lines inputs globals).2 !! name).
Proof.
  revert globals. induction inputs as [|text inputs IH]; intros globals H; simpl; [done |].
  destruct (is_exit text); [done |].
  pose proof (run_line_keeps_names text globals name H) as H1.
  destruct (run_line text globals) as [result g1]. simpl in H1.
  specialize (IH g1 H1).
  by destruct (run_lines inputs g1) as [results g2].
Qed.

(** A line that raises leaves the dictionary as it was. *)
Lemma run_line_Raise (text : string) (globals : gmap string PyValue) (e : exception) :
  (run_line text globals).1 = Raise e → (run_line text globals).2 = globals.
Proof.
  unfold run_line.
  destruct (lex text) as [toks| |]; simpl; try done.
  destruct (parse_statement (mkParser toks 0)) as [[ast self']| |] eqn:Hp; simpl; try done.
  apply parse_statement_builds in Hp.
  destruct ast as [lhs op rhs|x|name|name value is_decl|].
  1-3, 5: by rewrite visit_expression_globals.
  simpl in Hp. rewrite (visit_Assign _ _ _ _ Hp).
  destruct (visit value globals).1; simpl; try done.
  by destruct (is_decl && bool_decide (is_Some (globals !! name))).
Qed.

(** A line that returns a value has bound one name to that value, or has
    bound nothing. *)
Lemma run_line_Return (text : string) (globals : gmap string PyValue) (v : PyValue) :
  (run_line text globals).1 = Return v →
  (run_line text globals).2 = globals ∨
  ∃ name, (run_line text globals).2 = <[name := v]> globals.
Proof.
  unfold run_line.
  destruct (lex text) as [toks| |]; simpl; try done.
  destruct (parse_statement (mkParser toks 0)) as [[ast self']| |] eqn:Hp; simpl; try done.
  apply parse_statement_builds in Hp.
  destruct ast as [lhs op rhs|x|name|name value is_decl|].
  1-3, 5: intros _; left; by rewrite visit_expression_globals.
  simpl in Hp. rewrite (visit_Assign _ _ _ _ Hp).
  destruct (visit value globals).1; simpl; try done.
  destruct (is_decl && bool_decide (is_Some (globals !! name))); simpl; [done |].
  intros [= ->]. right. by exists name.
Qed.

Lemma run_lines_cons (text : string) (inputs : list string) (globals : gmap string PyValue) :
  is_exit text = false →
  run_lines (text :: inputs) globals =
    ((run_line text globals).1 :: (run_lines inputs (run_line text globals).2).1,
     (run_lines inputs (run_line text globals).2).2).
Proof.
  intros H. simpl. rewrite H.
  destruct (run_line text globals) as [result g1]. simpl.
  by destruct (run_lines inputs g1).
Qed.

Lemma run_lines_app (l1 l2 : list string) (globals : gmap string PyValue) :
  forallb (λ text, negb (is_exit text)) l1 = true →
  run_lines (l1 ++ l2) globals =
    ((run_lines l1 globals).1 ++ (run_lines l2 (run_lines l1 globals).2).1,
     (run_lines l2 (run_lines l1 globals).2).2).
Proof.
  revert globals. induction l1 as [|text l1 IH]; intros globals H.
  - simpl. by destruct (run_lines l2 globals).
  - simpl in H. apply andb_prop in H as [Ht H]. apply negb_true_iff in Ht.
    rewrite <- app_comm_cons, !run_lines_cons by done.
    by rewrite (IH _ H).
Qed.

Lemma run_lines_length (l1 : list string) (globals : gmap string PyValue) :
  forallb (λ text, negb (is_exit text)) l1 = true →
  length (run_lines l1 globals).1 = length l1.
Proof.
  revert globals. induction l1 as [|text l1 IH]; intros globals H; [done |].
  simpl in H. apply andb_prop in H as [Ht H]. apply negb_true_iff in Ht.
  rewrite run_lines_cons by done. simpl. by rewrite IH.
Qed.

(** ** The sentinel *)

Lemma lower_char_letter (c l u : ascii) :
  lower_char l = l → lower_char u = l → (∀ d, lower_char d = l → d = l ∨ d = u) →
  lower_char c = l ↔ c ∈ [l; u].
Proof.
  intros Hl Hu H. rewrite !elem_of_cons, elem_of_nil. split.
  - intros Hc. destruct (H c Hc); auto.
  - intros [-> | [-> | []]]; done.
Qed.

Lemma lower_char_e (c : ascii) : lower_char c = "e"%char ↔ c ∈ ["e"; "E"]%char.
Proof.
  apply lower_char_letter; [done | done |].
  intros d. destruct d as [[] [] [] [] [] [] [] []]; vm_compute; intros; try discriminate; auto.
Qed.

Lemma lower_char_x (c : ascii) : lower_char c = "x"%char ↔ c ∈ ["x"; "X"]%char.
Proof.
  apply lower_char_letter; [done | done |].
  intros d. destruct d as [[] [] [] [] [] [] [] []]; vm_compute; intros; try discriminate; auto.
Qed.

Lemma lower_char_i (c : ascii) : lower_char c = "i"%char ↔ c ∈ ["i"; "I"]%char.
Proof.
  apply lower_char_letter; [done | done |].
  intros d. destruct d as [[] [] [] [] [] [] [] []]; vm_compute; intros; try discriminate; auto.
Qed.

Lemma lower_char_t (c : ascii) : lower_char c = "t"%char ↔ c ∈ ["t"; "T"]%char.
Proof.
  apply lower_char_letter; [done | done |].
  intros d. destruct d as [[] [] [] [] [] [] [] []]; vm_compute; intros; try discriminate; auto.
Qed.

Lemma is_exit_spelling (text : string) :
  is_exit text = true ↔
  text = "" ∨
  ∃ a b c d : ascii,
    text = String a (String b (String c (String d ""))) ∧
    a ∈ ["e"; "E"]%char ∧ b ∈ ["x"; "X"]%char ∧
    c ∈ ["i"; "I"]%char ∧ d ∈ ["t"; "T"]%char.
Proof.
  unfold is_exit. rewrite orb_true_iff, !bool_decide_eq_true. split.
  - intros [-> | H]; [by left |]. right.
    destruct text as [|a [|b [|c [|d [|]]]]]; try discriminate.
    simpl in H. injection H as Ha Hb Hc Hd.
    exists a, b, c, d.
    by rewrite <- lower_char_e, <- lower_char_x, <- lower_char_i, <- lower_char_t.
  - intros [-> | (a & b & c & d & -> & Ha & Hb & Hc & Hd)]; [by left |]. right.
    apply lower_char_e in Ha. apply lower_char_x in Hb.
    apply lower_char_i in Hc. apply lower_char_t in Hd.
    simpl. by rewrite Ha, Hb, Hc, Hd.
Qed.

(** ** Dictionaries of floats *)

Lemma all_floats_insert (globals : gmap string PyValue) (name : string) (x : float) :
  all_floats globals → all_floats (<[name := PyFloat x]> globals).
Proof.
  intros H n v. destruct (decide (name = n)) as [-> | Hne].
  - rewrite lookup_insert_eq. intros [= <-]. by eexists.
  - rewrite lookup_insert_ne by done. apply H.
Qed.

Lemma visit_complete (node : ASTNode) (globals : gmap string PyValue) :
  is_complete node = true → all_floats globals →
  all_floats (visit node globals).2 ∧
  match (visit node globals).1 with
  | Return v => ∃ x, v = PyFloat x
  | Raise e =>
      e = ZeroDivisionError ∨
      (∃ name, e = NameError ("Undefined variable: " +:+ name)) ∨
      (∃ name, e = NameError ("Variable '" +:+ name
                              +:+ "' already declared (use = to update)"))
  | OutOfFuel => False
  end.
Proof.
  revert globals.
  induction node as [lhs IHl op rhs IHr|x|name|name value IH is_decl|];
    intros globals Hc Hg; simpl in *; try done.
  - apply andb_prop in Hc as [[Hl Hop]%andb_prop Hr].
    apply bool_decide_eq_true in Hop.
    destruct (IHl globals Hl Hg) as [Hg1 Hv1].
    destruct (visit lhs globals) as [[l| |] g1]; simpl in *; try done.
    destruct (IHr g1 Hr Hg1) as [Hg2 Hv2].
    destruct (visit rhs g1) as [[r| |] g2]; simpl in *; try done.
    destruct Hv1 as [x ->], Hv2 as [y ->].
    rewrite !elem_of_cons, elem_of_nil in Hop.
    destruct Hop as [-> | [-> | [-> | [-> | []]]]]; simpl; split; try done;
      try by eexists.
    unfold py_truediv.
    repeat match goal with |- context [if ?b then _ else _] => destruct b end;
      simpl; eauto.
  - split; [done | by eexists].
  - destruct (globals !! name) as [v|] eqn:Hn; simpl; split; try done.
    + by apply (Hg name).
    + right. left. by eexists.
  - destruct (IH globals Hc Hg) as [Hg1 Hv1].
    destruct (visit value globals) as [[val| |] g1]; simpl in *; try done.
    destruct Hv1 as [x ->].
    destruct (is_decl && bool_decide (is_Some (g1 !! name))); simpl; split; try done.
    + right. right. by eexists.
    + by apply all_floats_insert.
    + by eexists.
Qed.

(** ** The tokens of a text *)

(** Induction on the scan of [lex]: nothing left, a SKIP match, a token. *)
Lemma lex_ind (P : string → list Token → Prop) :
  (∀ s, regex s = None → P s []) →
  (∀ s m rest toks,
     regex s = Some (SKIP, m, rest) → lex rest = Return toks → P rest toks → P s toks) →
  (∀ s kind m rest toks,
     regex s = Some (kind, m, rest) → kind ≠ SKIP → kind ≠ ERROR →
     lex rest = Return toks → P rest toks → P s (mkToken kind m :: toks)) →
  ∀ text toks, lex text = Return toks → P text toks.
Proof.
  intros Hnil Hskip Htok text.
  remember (String.length text) as n eqn:Hn. revert text Hn.
  induction n as [n IH] using lt_wf_ind. intros text -> toks.
  rewrite lex_unfold.
  destruct (regex text) as [[[kind m] rest]|] eqn:Hre.
  2:{ intros [= <-]. by apply Hnil. }
  pose proof (regex_shorter _ _ _ _ Hre) as Hlt.
  pose proof (IH _ Hlt rest eq_refl) as IHrest.
  destruct kind; try done;
    try (destruct (lex rest) as [toks'| |] eqn:Hrest; [| done | done];
         intros [= <-]; eapply Htok; eauto; done).
  intros H. eapply Hskip; eauto.
Qed.

Lemma literal_self (lit : string) : literal lit lit = Some (lit, "").
Proof.
  induction lit as [|a lit IH]; [done |].
  rewrite literal_cons, Ascii.eqb_refl, IH. done.
Qed.

Lemma many_stop (cls : ascii → bool) (s m r : string) (d : ascii) :
  many cls s = (m, String d r) → cls d = false.
Proof.
  revert m. induction s as [|a s IH]; intros m; [done |]. simpl.
  destruct (cls a) eqn:Ha.
  - destruct (many cls s) as [m' r'] eqn:Hm. intros [= <- ->]. by eapply IH.
  - by intros [= <- <- <-].
Qed.

Lemma re_STRING_self s m rest : re_STRING s = Some (m, rest) → re_STRING m = Some (m, "").
Proof.
  unfold re_STRING at 1. destruct s as [|c s]; [done |].
  destruct (Ascii.eqb c quote) eqn:Hc; [| done].
  pose proof (many_all is_not_quote s) as Hall.
  destruct (many is_not_quote s) as [body r] eqn:Hb. simpl in Hall.
  destruct r as [|q r]; [done |].
  pose proof (many_stop _ _ _ _ _ Hb) as Hq.
  intros [= <- <-]. unfold re_STRING. rewrite Hc.
  by rewrite (many_of_all_stop _ _ _ _ Hall Hq).
Qed.

Lemma re_IDENT_self s m rest : re_IDENT s = Some (m, rest) → re_IDENT m = Some (m, "").
Proof.
  unfold re_IDENT at 1. destruct s as [|c s]; [done |].
  destruct (is_ident_start c) eqn:Hc; [| done].
  pose proof (many_all is_ident_char s) as Hall.
  destruct (many is_ident_char s) as [m' r]. simpl in Hall.
  intros [= <- <-]. unfold re_IDENT. by rewrite Hc, (many_of_all _ _ Hall).
Qed.

Lemma re_SKIP_blanks s m rest :
  re_SKIP s = Some (m, rest) → string_forallb is_blank m = true.
Proof.
  unfold re_SKIP.
  pose proof (many_all is_blank s) as Hall.
  destruct (many is_blank s) as [m' r]. simpl in Hall.
  destruct m'; [done |]. by intros [= <- <-].
Qed.

(** What an alternative matched, it matches again, all of it. *)
Lemma regex_self s kind m rest :
  regex s = Some (kind, m, rest) → kind ≠ SKIP → kind ≠ ERROR →
  pattern_of kind m = Some (m, "").
Proof.
  intros Hpat%regex_pattern_of Hskip Herr.
  destruct kind; try done; cbv [pattern_of] in *;
    first [ apply re_NUMBER_is_number in Hpat; by apply bool_decide_eq_true in Hpat
          | by eapply re_STRING_self
          | by eapply re_IDENT_self
          | apply literal_prefix in Hpat as [-> _]; apply literal_self ].
Qed.

Lemma pattern_of_TOKEN_TYPES (kind : TokenType) : (kind, pattern_of kind) ∈ TOKEN_TYPES.
Proof.
  unfold TOKEN_TYPES. rewrite !elem_of_cons.
  destruct kind; simpl; auto 20.
Qed.

Lemma lex_token_shapes (text : string) (toks : list Token) :
  lex text = Return toks →
  Forall (λ t, type t ≠ SKIP ∧ type t ≠ ERROR ∧
               pattern_of (type t) (value t) = Some (value t, "")) toks.
Proof.
  revert text toks. apply lex_ind.
  - constructor.
  - done.
  - intros s kind m rest toks Hre Hskip Herr _ IH.
    constructor; [| done]. simpl. repeat split; try done. by eapply regex_self.
Qed.

(** ** Blanks *)

Lemma remove_blanks_app (a b : string) :
  remove_blanks (a +:+ b) = remove_blanks a +:+ remove_blanks b.
Proof.
  induction a as [|c a IH]; [by rewrite !string_app_nil_l |].
  rewrite string_app_cons. simpl. destruct (is_blank c); [done |].
  by rewrite string_app_cons, IH.
Qed.

Lemma remove_blanks_all (s : string) :
  string_forallb is_blank s = true → remove_blanks s = "".
Proof.
  induction s as [|c s IH]; [done |]. simpl.
  intros [Hc Hs]%andb_prop. rewrite Hc. auto.
Qed.

Lemma lex_keeps_text (text : string) (toks : list Token) :
  lex text = Return toks → remove_blanks (tokens_text toks) = remove_blanks text.
Proof.
  revert text toks. apply lex_ind.
  - intros [|c s] H; [done |]. destruct (regex_total c s) as [x Hx]. congruence.
  - intros s m rest toks Hre _ ->.
    pose proof (regex_consumes _ _ _ _ Hre) as [-> _].
    apply regex_pattern_of in Hre. cbv [pattern_of] in Hre.
    apply re_SKIP_blanks in Hre.
    by rewrite remove_blanks_app, (remove_blanks_all _ Hre), string_app_nil_l.
  - intros s kind m rest toks Hre _ _ _ IH.
    pose proof (regex_consumes _ _ _ _ Hre) as [-> _].
    simpl. by rewrite !remove_blanks_app, IH.
Qed.

Lemma is_blank_cases (c : ascii) : is_blank c = true → c = " "%char ∨ c = "009"%char.
Proof.
  destruct c as [[] [] [] [] [] [] [] []]; vm_compute; intros; try discriminate; auto.
Qed.

Lemma is_blank_separator (c : ascii) : is_blank c = true → is_separator c = true.
Proof. by intros [-> | ->]%is_blank_cases. Qed.

Lemma is_boundary_separator (c : ascii) : is_boundary c = true → is_separator c = true.
Proof.
  intros (Hd & Hi & _ & Hp)%is_boundary_true. unfold is_separator.
  by rewrite Hd, Hi, bool_decide_eq_false_2.
Qed.

Lemma is_separator_true (c : ascii) :
  is_separator c = true → is_digit c = false ∧ is_ident_char c = false ∧ c ≠ "."%char.
Proof.
  unfold is_separator. rewrite negb_true_iff, !orb_false_iff.
  intros [[? ?] ?%bool_decide_eq_false]. done.
Qed.

(** On a blank the regex matches SKIP: the run of blanks. *)
Lemma regex_blank (c : ascii) (s : string) :
  is_blank c = true →
  regex (String c s) = Some (SKIP, String c (many is_blank s).1, (many is_blank s).2).
Proof.
  intros Hc. unfold regex, TOKEN_TYPES.
  assert (re_SKIP (String c s) = Some (String c (many is_blank s).1, (many is_blank s).2))
    as Hskip.
  { unfold re_SKIP. simpl. rewrite Hc. by destruct (many is_blank s). }
  destruct (is_blank_cases c Hc) as [-> | ->].
  all: do 12 rewrite alternation_cons_None by reflexivity.
  all: by rewrite (alternation_cons_Some _ _ _ _ _ _ Hskip).
Qed.

Lemma lex_strip (s : string) : lex s = lex (many is_blank s).2.
Proof.
  destruct s as [|c s]; [done |]. simpl.
  destruct (is_blank c) eqn:Hc; [| done].
  rewrite lex_unfold, (regex_blank _ _ Hc).
  by destruct (many is_blank s).
Qed.

(** A blank in front of a text is skipped. *)
Lemma lex_blank (c : ascii) (s : string) : is_blank c = true → lex (String c s) = lex s.
Proof.
  intros Hc. rewrite (lex_strip (String c s)), (lex_strip s). simpl. rewrite Hc.
  by destruct (many is_blank s).
Qed.

Lemma lex_blanks (s : string) : string_forallb is_blank s = true → lex s = Return [].
Proof.
  induction s as [|c s IH]; [done |]. simpl.
  intros [Hc Hs]%andb_prop. rewrite (lex_blank _ _ Hc). auto.
Qed.

Lemma regex_not_blank (a : ascii) (s : string) kind m rest :
  is_blank a = false → regex (String a s) = Some (kind, m, rest) → kind ≠ SKIP.
Proof.
  intros Ha Hre ->.
  pose proof (regex_consumes _ _ _ _ Hre) as [Heq Hm].
  apply regex_pattern_of in Hre. cbv [pattern_of] in Hre.
  apply re_SKIP_blanks in Hre.
  destruct m as [|b m]; [done |]. rewrite string_app_cons in Heq.
  injection Heq as <- _. simpl in Hre. by rewrite Ha in Hre.
Qed.

Section Separator.
Variables (a c : ascii) (s post : string).
Hypothesis Hc : is_separator c = true.

Lemma re_NUMBER_separator : stable_at (String a s) (String c post) re_NUMBER.
Proof.
  destruct (is_separator_true c Hc) as (Hd & _ & Hp).
  unfold stable_at, re_NUMBER. rewrite (many_app_stop _ _ _ _ Hd).
  destruct (many is_digit (String a s)) as [whole r]. simpl.
  destruct whole as [|w whole]; [done |].
  destruct r as [|d r].
  { rewrite string_app_nil_l. by rewrite not_point_match. }
  rewrite string_app_cons.
  destruct (decide (d = "."%char)) as [-> | Hd'].
  - rewrite (many_app_stop _ _ _ _ Hd).
    destruct (many is_digit r) as [frac r']. simpl.
    by destruct frac.
  - by rewrite !not_point_match.
Qed.

Lemma re_IDENT_separator : stable_at (String a s) (String c post) re_IDENT.
Proof.
  destruct (is_separator_true c Hc) as (_ & Hi & _).
  unfold stable_at, re_IDENT. rewrite string_app_cons.
  destruct (is_ident_start a); [| done].
  rewrite (many_app_stop _ _ _ _ Hi). by destruct (many is_ident_char s).
Qed.

Lemma tokens_separator :
  a ≠ quote → a ≠ ":"%char →
  Forall (λ np : TokenType * pattern, stable_at (String a s) (String c post) np.2)
    (take 12 TOKEN_TYPES).
Proof.
  intros Hq Hcolon.
  change (take 12 TOKEN_TYPES) with
    [ (NUMBER, re_NUMBER); (STRING, re_STRING); (ASSIGN, literal ":=");
      (EQUALS, literal "="); (PLUS, literal "+"); (MINUS, literal "-");
      (MUL, literal "*"); (DIV, literal "/"); (LPAREN, literal "(");
      (RPAREN, literal ")"); (IDENT, re_IDENT);
      (NEWLINE, literal (String newline "")) ].
  repeat (apply Forall_cons; split;
    [first [ apply re_NUMBER_separator | by apply re_STRING_stable
           | by apply literal_ASSIGN_stable | apply literal_one_stable
           | apply re_IDENT_separator ] |]).
  apply Forall_nil_2.
Qed.
End Separator.

Lemma alternation_app alts1 alts2 s :
  alternation (alts1 ++ alts2) s =
    match alternation alts1 s with
    | Some r => Some r
    | None => alternation alts2 s
    end.
Proof.
  induction alts1 as [|[k p] alts1 IH]; [done |]. simpl.
  by destruct (p s) as [[m rest]|].
Qed.

(** A match of a token stays the same when the text goes on with a
    separator. *)
Lemma regex_app_separator pre c post kind m rest :
  is_separator c = true →
  regex pre = Some (kind, m, rest) → kind ≠ ERROR → kind ≠ SKIP →
  regex (pre +:+ String c post) = Some (kind, m, rest +:+ String c post).
Proof.
  intros Hc Hre Hkind Hskip. destruct pre as [|a s]; [done |].
  destruct (decide (a = quote)) as [-> | Hq].
  { rewrite string_app_cons, regex_quote. rewrite regex_quote in Hre.
    destruct (re_STRING (String quote s)) as [[m' rest']|] eqn:Hs.
    - injection Hre as <- <- <-.
      pose proof (re_STRING_stable_Some quote c s post _ _ Hs) as H.
      rewrite string_app_cons in H. by rewrite H.
    - by injection Hre as <- <- <-. }
  destruct (decide (a = ":"%char)) as [-> | Hcolon].
  { rewrite string_app_cons, regex_colon. rewrite regex_colon in Hre.
    destruct (literal ":=" (String ":" s)) as [[m' rest']|] eqn:Hs.
    - injection Hre as <- <- <-.
      pose proof (literal_app _ _ (String c post) _ _ Hs) as H.
      rewrite string_app_cons in H. by rewrite H.
    - by injection Hre as <- <- <-. }
  unfold regex in *. rewrite <- (take_drop 12 TOKEN_TYPES) in Hre |- *.
  rewrite alternation_app in Hre |- *.
  rewrite (alternation_stable _ _ _ (tokens_separator a c s post Hc Hq Hcolon)).
  destruct (alternation (take 12 TOKEN_TYPES) (String a s)) as [[[k' m'] rest']|].
  - by injection Hre as <- <- <-.
  - apply alternation_Some in Hre as (pat & Hin & _).
    change (drop 12 TOKEN_TYPES) with [(SKIP, re_SKIP); (ERROR, re_ERROR)] in Hin.
    rewrite !elem_of_cons, elem_of_nil in Hin.
    destruct Hin as [[= -> _] | [[= -> _] | []]]; done.
Qed.

(** [lex] of a text that lexes, followed by a separator and more text: the
    tokens of the text, then those of what follows. *)
Lemma lex_app_separator pre c post toks :
  is_separator c = true →
  lex pre = Return toks →
  lex (pre +:+ String c post) = (toks ++.) <$> lex (String c post).
Proof.
  intros Hc. remember (String.length pre) as n eqn:Hn. revert pre toks Hn.
  induction n as [n IH] using lt_wf_ind. intros pre toks -> Hlex.
  destruct pre as [|a s].
  { rewrite lex_unfold in Hlex. simpl in Hlex. injection Hlex as <-.
    rewrite string_app_nil_l. destruct (lex (String c post)); reflexivity. }
  destruct (is_blank a) eqn:Ha.
  { rewrite lex_blank in Hlex by done. rewrite string_app_cons, lex_blank by done.
    apply (IH (String.length s)); simpl; [lia | done | done]. }
  rewrite lex_unfold in Hlex.
  destruct (regex_total a s) as [[[kind m] rest] Hre]. rewrite Hre in Hlex.
  pose proof (regex_shorter _ _ _ _ Hre) as Hlt.
  pose proof (regex_not_blank _ _ _ _ _ Ha Hre) as Hskip.
  assert (kind ≠ ERROR) as Hkind by (by intros ->).
  rewrite lex_unfold, (regex_app_separator _ _ _ _ _ _ Hc Hre Hkind Hskip).
  destruct kind; try done.
  all: try (destruct (lex rest) as [toks'| |] eqn:Hrest; [| done | done];
            simpl in Hlex; injection Hlex as <-;
            rewrite (IH _ Hlt rest toks' eq_refl Hrest);
            destruct (lex (String c post)); reflexivity).
Qed.

Lemma lex_app_blank pre c post toks :
  is_blank c = true →
  lex pre = Return toks →
  lex (pre +:+ String c post) = (toks ++.) <$> lex post.
Proof.
  intros Hc Hlex.
  rewrite (lex_app_separator _ _ _ _ (is_blank_separator _ Hc) Hlex).
  by rewrite lex_blank.
Qed.

(** ** Characters that match no class where they stand *)

Lemma scan_S (n : nat) (code : string) :
  scan (S n) code =
    match regex code with
    | Some (SKIP, _, rest) => scan n rest
    | Some (ERROR, _, _) => None
    | Some (kind, m, rest) =>
        match scan n rest with
        | Some (toks, text) => Some (mkToken kind m :: toks, text)
        | None => None
        end
    | None => None
    end.
Proof. reflexivity. Qed.

(** What [scan] has read and what it has left make up the text. *)
Lemma scan_app (n : nat) (code : string) (toks : list Token) (text : string) :
  scan n code = Some (toks, text) → ∃ pre, code = pre +:+ text.
Proof.
  revert code toks. induction n as [|n IH]; intros code toks.
  { intros [= <- <-]. by exists "". }
  rewrite scan_S.
  destruct (regex code) as [[[kind m] rest]|] eqn:Hre; [| done].
  destruct (regex_consumes _ _ _ _ Hre) as [-> _].
  assert (∀ toks', scan n rest = Some (toks', text) → ∃ pre, m +:+ rest = pre +:+ text)
    as Hrest.
  { intros toks' H. destruct (IH _ _ H) as [pre ->].
    exists (m +:+ pre). by rewrite string_app_assoc. }
  destruct kind; try done;
    try (destruct (scan n rest) as [[toks' text']|] eqn:Hs; [| done];
         intros [= <- <-]; by eapply Hrest).
Qed.

(** When the scan arrives at a character where only ERROR matches, [lex]
    raises the SyntaxError that carries the character. *)
Lemma scan_Raise (n : nat) (code : string) (toks : list Token) (c : ascii) (post m rest : string) :
  scan n code = Some (toks, String c post) →
  regex (String c post) = Some (ERROR, m, rest) →
  lex code = Raise (SyntaxError ("Illegal character: " +:+ String c "")).
Proof.
  intros Hscan Hre. revert code toks Hscan. induction n as [|n IH]; intros code toks.
  { intros [= <- ->]. rewrite lex_unfold, Hre.
    by apply regex_ERROR in Hre as (c' & [= <- <-] & ->). }
  rewrite scan_S, lex_unfold.
  destruct (regex code) as [[[kind m'] rest']|]; [| done].
  destruct kind; try done;
    try (destruct (scan n rest') as [[toks' text']|] eqn:Hs; [| done];
         intros [= <- ->]; by rewrite (IH _ _ Hs)).
Qed.

(** Every exception of [lex] is raised at a character at which the scan
    arrives and where only ERROR matches. *)
Lemma lex_Raise_scan (text : string) (e : exception) :
  lex text = Raise e →
  ∃ n toks c post,
    scan n text = Some (toks, String c post) ∧
    regex (String c post) = Some (ERROR, String c "", post) ∧
    e = SyntaxError ("Illegal character: " +:+ String c "").
Proof.
  remember (String.length text) as k eqn:Hk. revert text Hk.
  induction k as [k IH] using lt_wf_ind. intros text ->.
  rewrite lex_unfold.
  destruct (regex text) as [[[kind m] rest]|] eqn:Hre; [| done].
  pose proof (regex_shorter _ _ _ _ Hre) as Hlt.
  destruct (decide (kind = ERROR)) as [-> | Herr].
  { pose proof Hre as Hre'. apply regex_ERROR in Hre' as (c & -> & ->).
    intros [= <-]. by exists 0, [], c, rest. }
  intros Hlex.
  assert (lex rest = Raise e) as Hrest.
  { destruct kind; try done; by destruct (lex rest). }
  destruct (IH _ Hlt rest eq_refl Hrest) as (n & toks & c & post & Hscan & Hc & ->).
  destruct (decide (kind = SKIP)) as [-> | Hskip].
  { exists (S n), toks, c, post. by rewrite scan_S, Hre. }
  exists (S n), (mkToken kind m :: toks), c, post.
  rewrite scan_S, Hre, Hscan. by destruct kind.
Qed.

(** Where ERROR matches, none of the thirteen patterns before it does. *)
Lemma regex_ERROR_None s m rest :
  regex s = Some (ERROR, m, rest) →
  Forall (λ np : TokenType * pattern, np.2 s = None) (take 13 TOKEN_TYPES).
Proof.
  unfold regex. rewrite <- (take_drop 13 TOKEN_TYPES) at 1.
  rewrite alternation_app.
  destruct (alternation (take 13 TOKEN_TYPES) s) as [[[k m'] rest']|] eqn:Ha.
  - intros [= -> -> ->]. apply alternation_Some in Ha as (pat & Hin & _).
    change (take 13 TOKEN_TYPES) with
      [ (NUMBER, re_NUMBER); (STRING, re_STRING); (ASSIGN, literal ":=");
        (EQUALS, literal "="); (PLUS, literal "+"); (MINUS, literal "-");
        (MUL, literal "*"); (DIV, literal "/"); (LPAREN, literal "(");
        (RPAREN, literal ")"); (IDENT, re_IDENT);
        (NEWLINE, literal (String newline "")); (SKIP, re_SKIP) ] in Hin.
    rewrite !elem_of_cons, elem_of_nil in Hin.
    repeat (destruct Hin as [Hin | Hin]; [discriminate |]). done.
  - intros _. by apply alternation_None.
Qed.

Lemma re_NUMBER_digit (c : ascii) (post : string) :
  is_digit c = true → is_Some (re_NUMBER (String c post)).
Proof.
  intros Hc. unfold re_NUMBER. simpl. rewrite Hc.
  destruct (many is_digit post) as [whole r].
  destruct r as [|d r]; [by eexists |].
  destruct (decide (d = "."%char)) as [-> | Hd].
  - destruct (many is_digit r) as [frac r']. destruct frac; by eexists.
  - rewrite not_point_match by done. by eexists.
Qed.

Lemma no_quote_many (s : string) :
  string_existsb (Ascii.eqb quote) s = false → many is_not_quote s = (s, "").
Proof.
  intros H. apply many_of_all. induction s as [|c s IH]; [done |].
  change (Ascii.eqb quote c || string_existsb (Ascii.eqb quote) s = false) in H.
  change (is_not_quote c && string_forallb is_not_quote s = true).
  apply orb_false_elim in H as [Hc Hs].
  unfold is_not_quote at 1. by rewrite (Ascii.eqb_sym c quote), Hc, (IH Hs).
Qed.

Lemma quote_many (s : string) :
  string_existsb (Ascii.eqb quote) s = true →
  ∃ body q rest, many is_not_quote s = (body, String q rest).
Proof.
  induction s as [|c s IH]; [done |].
  change (string_existsb (Ascii.eqb quote) (String c s))
    with (Ascii.eqb quote c || string_existsb (Ascii.eqb quote) s).
  change (many is_not_quote (String c s))
    with (if is_not_quote c then let '(m, r) := many is_not_quote s in (String c m, r)
          else ("", String c s)).
  unfold is_not_quote at 1. rewrite (Ascii.eqb_sym quote c).
  destruct (Ascii.eqb c quote); simpl; [eauto |].
  intros H. destruct (IH H) as (body & q & rest & ->). eauto.
Qed.

(** The characters that match no class where they stand are those of
    [illegal_at]. *)
Lemma regex_illegal_at (c : ascii) (post : string) :
  regex (String c post) = Some (ERROR, String c "", post) ↔ illegal_at c post = true.
Proof.
  split.
  - intros Hre. destruct (illegal_at c post) eqn:Hill; [done |]. exfalso.
    apply regex_ERROR_None in Hre.
    change (take 13 TOKEN_TYPES) with
      [ (NUMBER, re_NUMBER); (STRING, re_STRING); (ASSIGN, literal ":=");
        (EQUALS, literal "="); (PLUS, literal "+"); (MINUS, literal "-");
        (MUL, literal "*"); (DIV, literal "/"); (LPAREN, literal "(");
        (RPAREN, literal ")"); (IDENT, re_IDENT);
        (NEWLINE, literal (String newline "")); (SKIP, re_SKIP) ] in Hre.
    rewrite !Forall_cons in Hre. cbn [snd] in Hre.
    destruct Hre as (Hnum & Hstr & Hassign & Heq & Hplus & Hminus & Hmul & Hdiv
                     & Hlp & Hrp & Hident & Hnl & Hskip & _).
    unfold illegal_at in Hill. rewrite !orb_false_iff in Hill.
    destruct Hill as [[[Hin Hpoint] Hcolon] Hquote].
    apply negb_false_iff in Hin. unfold in_some_class in Hin.
    rewrite !orb_true_iff in Hin. destruct Hin as [[[Hd | Hi] | Hb] | Hl].
    + destruct (re_NUMBER_digit c post Hd) as [x Hx]. congruence.
    + unfold re_IDENT in Hident. rewrite Hi in Hident.
      by destruct (many is_ident_char post).
    + unfold re_SKIP in Hskip. simpl in Hskip. rewrite Hb in Hskip.
      by destruct (many is_blank post).
    + apply bool_decide_eq_true in Hl. rewrite !elem_of_cons, elem_of_nil in Hl.
      destruct Hl as [-> | Hl].
      { simpl in Hquote. apply negb_false_iff in Hquote.
        destruct (quote_many _ Hquote) as (body & q & rest & Hm).
        unfold re_STRING in Hstr. simpl in Hstr. by rewrite Hm in Hstr. }
      destruct Hl as [-> | Hl].
      { simpl in Hcolon. apply negb_false_iff in Hcolon.
        destruct post as [|d post]; [done |].
        apply Ascii.eqb_eq in Hcolon as ->. discriminate. }
      repeat (destruct Hl as [-> | Hl];
              [first [ by simpl in Heq | by simpl in Hplus | by simpl in Hminus
                     | by simpl in Hmul | by simpl in Hdiv | by simpl in Hlp
                     | by simpl in Hrp | by simpl in Hnl | by simpl in Hpoint ] |]).
      done.
  - unfold illegal_at. rewrite !orb_true_iff.
    intros [[[Hin | Hpoint] | Hcolon] | Hquote].
    + apply regex_no_class. by apply negb_true_iff.
    + apply Ascii.eqb_eq in Hpoint as ->. reflexivity.
    + apply andb_prop in Hcolon as [->%Ascii.eqb_eq Hpost].
      rewrite regex_colon.
      destruct post as [|d post]; [reflexivity |].
      apply negb_true_iff in Hpost. rewrite !literal_cons.
      by rewrite (Ascii.eqb_sym "=" d), Hpost.
    + apply andb_prop in Hquote as [->%Ascii.eqb_eq Hpost].
      apply negb_true_iff in Hpost.
      rewrite regex_quote. unfold re_STRING. simpl.
      by rewrite (no_quote_many _ Hpost).
Qed.

Lemma illegal_at_classes (c : ascii) (post : string) :
  illegal_at c post = true →
  is_digit c = false ∧ is_ident_char c = false ∧ is_blank c = false.
Proof.
  unfold illegal_at. rewrite !orb_true_iff.
  intros [[[Hin | Hpoint] | Hcolon] | Hquote].
  - apply negb_true_iff in Hin. unfold in_some_class in Hin.
    rewrite !orb_false_iff in Hin. destruct Hin as [[[Hd Hi] Hb] _].
    unfold is_ident_char. by rewrite Hd, Hi, Hb.
  - by apply Ascii.eqb_eq in Hpoint as ->.
  - by apply andb_prop in Hcolon as [->%Ascii.eqb_eq _].
  - by apply andb_prop in Hquote as [->%Ascii.eqb_eq _].
Qed.

(** A token, or a run of blanks, stays the same when the text goes on with a
    character that is no digit, no character of an identifier and no blank,
    and that is no point with a digit behind it. *)
Section Cut.
Variables (a c : ascii) (s post : string).
Hypothesis Hd : is_digit c = false.
Hypothesis Hi : is_ident_char c = false.
Hypothesis Hb : is_blank c = false.
Hypothesis Hp : c = "."%char → starts_with_digit post = false.

Lemma re_NUMBER_cut : stable_at (String a s) (String c post) re_NUMBER.
Proof.
  unfold stable_at, re_NUMBER. rewrite (many_app_stop _ _ _ _ Hd).
  destruct (many is_digit (String a s)) as [whole r]. simpl.
  destruct whole as [|w whole]; [done |].
  destruct r as [|d r].
  { rewrite string_app_nil_l.
    destruct (decide (c = "."%char)) as [-> | Hc]; [| by rewrite not_point_match].
    specialize (Hp eq_refl). destruct post as [|p post']; [done |].
    simpl in Hp. simpl. by rewrite Hp. }
  rewrite string_app_cons.
  destruct (decide (d = "."%char)) as [-> | Hd'].
  - rewrite (many_app_stop _ _ _ _ Hd).
    destruct (many is_digit r) as [frac r']. simpl.
    by destruct frac.
  - by rewrite !not_point_match.
Qed.

Lemma re_IDENT_cut : stable_at (String a s) (String c post) re_IDENT.
Proof.
  unfold stable_at, re_IDENT. rewrite string_app_cons.
  destruct (is_ident_start a); [| done].
  rewrite (many_app_stop _ _ _ _ Hi). by destruct (many is_ident_char s).
Qed.

Lemma re_SKIP_cut : stable_at (String a s) (String c post) re_SKIP.
Proof.
  unfold stable_at, re_SKIP. rewrite (many_app_stop _ _ _ _ Hb).
  destruct (many is_blank (String a s)) as [m r]. simpl. by destruct m.
Qed.

Lemma TOKEN_TYPES_cut :
  a ≠ quote → a ≠ ":"%char →
  Forall (λ np : TokenType * pattern, stable_at (String a s) (String c post) np.2)
    TOKEN_TYPES.
Proof.
  intros Hq Hcolon. unfold TOKEN_TYPES.
  repeat (apply Forall_cons; split;
    [first [ apply re_NUMBER_cut | by apply re_STRING_stable
           | by apply literal_ASSIGN_stable | apply literal_one_stable
           | apply re_IDENT_cut | apply re_SKIP_cut
           | apply re_ERROR_stable ] |]).
  apply Forall_nil_2.
Qed.
End Cut.

Lemma regex_app_cut pre c post kind m rest :
  is_digit c = false → is_ident_char c = false → is_blank c = false →
  (c = "."%char → starts_with_digit post = false) →
  regex pre = Some (kind, m, rest) → kind ≠ ERROR →
  regex (pre +:+ String c post) = Some (kind, m, rest +:+ String c post).
Proof.
  intros Hd Hi Hb Hp Hre Hkind. destruct pre as [|a s]; [done |].
  destruct (decide (a = quote)) as [-> | Hq].
  { rewrite string_app_cons, regex_quote. rewrite regex_quote in Hre.
    destruct (re_STRING (String quote s)) as [[m' rest']|] eqn:Hs.
    - injection Hre as <- <- <-.
      pose proof (re_STRING_stable_Some quote c s post _ _ Hs) as H.
      rewrite string_app_cons in H. by rewrite H.
    - by injection Hre as <- <- <-. }
  destruct (decide (a = ":"%char)) as [-> | Hcolon].
  { rewrite string_app_cons, regex_colon. rewrite regex_colon in Hre.
    destruct (literal ":=" (String ":" s)) as [[m' rest']|] eqn:Hs.
    - injection Hre as <- <- <-.
      pose proof (literal_app _ _ (String c post) _ _ Hs) as H.
      rewrite string_app_cons in H. by rewrite H.
    - by injection Hre as <- <- <-. }
  unfold regex in *.
  rewrite (alternation_stable _ _ _ (TOKEN_TYPES_cut a c s post Hd Hi Hb Hp Hq Hcolon)).
  by rewrite Hre.
Qed.

Lemma lex_app_cut pre c post toks :
  is_digit c = false → is_ident_char c = false → is_blank c = false →
  (c = "."%char → starts_with_digit post = false) →
  lex pre = Return toks →
  lex (pre +:+ String c post) = (toks ++.) <$> lex (String c post).
Proof.
  intros Hd Hi Hb Hp. remember (String.length pre) as n eqn:Hn. revert pre toks Hn.
  induction n as [n IH] using lt_wf_ind. intros pre toks -> Hlex.
  destruct pre as [|a s].
  { rewrite lex_unfold in Hlex. simpl in Hlex. injection Hlex as <-.
    rewrite string_app_nil_l. destruct (lex (String c post)); reflexivity. }
  rewrite lex_unfold in Hlex.
  destruct (regex_total a s) as [[[kind m] rest] Hre]. rewrite Hre in Hlex.
  pose proof (regex_shorter _ _ _ _ Hre) as Hlt.
  assert (kind ≠ ERROR) as Hkind by (by intros ->).
  rewrite lex_unfold, (regex_app_cut _ _ _ _ _ _ Hd Hi Hb Hp Hre Hkind).
  destruct kind; try done.
  all: try (destruct (lex rest) as [toks'| |] eqn:Hrest; [| done | done];
            simpl in Hlex; injection Hlex as <-;
            rewrite (IH _ Hlt rest toks' eq_refl Hrest);
            destruct (lex (String c post)); reflexivity).
Qed.

(** After a text that lexes, a character that matches no class where it
    stands makes [lex] fail with the error that carries it. *)
Lemma lex_illegal_at pre c post toks :
  lex pre = Return toks → illegal_at c post = true →
  (c = "."%char → starts_with_digit post = false) →
  lex (pre +:+ String c post) =
    Raise (SyntaxError ("Illegal character: " +:+ String c "")).
Proof.
  intros Hlex Hill Hp.
  destruct (illegal_at_classes _ _ Hill) as (Hd & Hi & Hb).
  rewrite (lex_app_cut _ _ _ _ Hd Hi Hb Hp Hlex).
  apply regex_illegal_at in Hill. by rewrite lex_unfold, Hill.
Qed.

(** ** What the parser keeps, and what it raises *)

Section ParseInvariant.
Variables (I : Parser → Prop) (E : exception → Prop).
Hypothesis consume_I : ∀ expected self x self',
  I self → consume expected self = Return (x, self') → I self'.
Hypothesis consume_E : ∀ self e,
  I self → consume (Some RPAREN) self = Raise e → E e.
Hypothesis make_Num_E : ∀ self t e,
  I self → peek self = Some t → type t = NUMBER → make_Num (value t) = Raise e → E e.
Hypothesis AttributeError_E : E AttributeError.

Lemma consume_None_Return self : ∃ x self', consume None self = Return (x, self').
Proof. unfold consume. destruct (tokens self !! pos self); eauto. Qed.

Lemma parse_respects (fuel : nat) :
  (∀ self, I self → respects I E (parse_expression fuel self)) ∧
  (∀ node self, I self → respects I E (parse_expression_loop fuel node self)) ∧
  (∀ self, I self → respects I E (parse_term fuel self)) ∧
  (∀ node self, I self → respects I E (parse_term_loop fuel node self)) ∧
  (∀ self, I self → respects I E (parse_factor fuel self)).
Proof.
  induction fuel as [|fuel (IHe & IHel & IHt & IHtl & IHf)].
  { repeat split; intros; simpl; done. }
  repeat split.
  - intros self HI. simpl.
    specialize (IHt self HI).
    destruct (parse_term fuel self) as [[n1 s1]| |]; simpl in *; [| done | done].
    by apply IHel.
  - intros node self HI. simpl.
    destruct (peek_in [PLUS; MINUS] self); [| done].
    destruct (consume_None_Return self) as (x & s1 & Hc). rewrite Hc. simpl.
    pose proof (consume_I _ _ _ _ HI Hc) as HI1.
    destruct x as [tok|]; [| done].
    specialize (IHt s1 HI1).
    destruct (parse_term fuel s1) as [[n2 s2]| |]; simpl in *; [| done | done].
    by apply IHel.
  - intros self HI. simpl.
    specialize (IHf self HI).
    destruct (parse_factor fuel self) as [[n1 s1]| |]; simpl in *; [| done | done].
    by apply IHtl.
  - intros node self HI. simpl.
    destruct (peek_in [MUL; DIV] self); [| done].
    destruct (consume_None_Return self) as (x & s1 & Hc). rewrite Hc. simpl.
    pose proof (consume_I _ _ _ _ HI Hc) as HI1.
    destruct x as [tok|]; [| done].
    specialize (IHf s1 HI1).
    destruct (parse_factor fuel s1) as [[n2 s2]| |]; simpl in *; [| done | done].
    by apply IHtl.
  - intros self HI. simpl.
    destruct (consume_None_Return self) as (x & s1 & Hc). rewrite Hc. simpl.
    pose proof (consume_I _ _ _ _ HI Hc) as HI1.
    destruct x as [tok|]; [| done].
    assert (peek self = Some tok) as Hpeek.
    { unfold consume in Hc. unfold peek.
      destruct (tokens self !! pos self); by injection Hc as <- <-. }
    destruct (type tok) eqn:Hty; simpl; try done.
    + pose proof (make_Num_E self tok) as HN.
      destruct (make_Num (value tok)) as [n| |]; simpl; [done | | done].
      by eapply HN.
    + specialize (IHe s1 HI1).
      destruct (parse_expression fuel s1) as [[n2 s2]| |]; simpl in *; [| done | done].
      pose proof (consume_I (Some RPAREN) s2) as HcI.
      pose proof (consume_E s2) as HcE.
      destruct (consume (Some RPAREN) s2) as [[x s3]| |]; simpl; [| | done].
      * by eapply HcI.
      * by eapply HcE.
Qed.

Lemma parse_statement_respects self :
  I self → respects I E (parse_statement self).
Proof.
  intros HI. unfold parse_statement.
  destruct (peek self) as [t|]; [| done].
  assert (∀ s, I s → respects I E (parse_expression (parse_fuel s) s)) as He.
  { intros s. apply (parse_respects (parse_fuel s)). }
  case_bool_decide; [| by apply He].
  destruct (consume_None_Return self) as (x & s1 & Hc). rewrite Hc. simpl.
  pose proof (consume_I _ _ _ _ HI Hc) as HI1.
  destruct x as [tok|]; [| done].
  assert (∀ d s2, I s2 →
            respects I E ('(node, self3) ← parse_expression (parse_fuel s2) s2;
                          Return (Assign (value tok) node d, self3))) as Ha.
  { intros d s2 HI2. specialize (He s2 HI2).
    by destruct (parse_expression (parse_fuel s2) s2) as [[??]| |]. }
  destruct (peek_in [ASSIGN] s1).
  { destruct (consume_None_Return s1) as (y & s2 & Hc2). rewrite Hc2. simpl.
    eapply Ha, consume_I; eauto. }
  destruct (peek_in [EQUALS] s1).
  { destruct (consume_None_Return s1) as (y & s2 & Hc2). rewrite Hc2. simpl.
    eapply Ha, consume_I; eauto. }
  by apply He.
Qed.
End ParseInvariant.

(** [consume] leaves the tokens as they are and does not pass their end. *)
Lemma consume_within (toks : list Token) expected self x self' :
  (tokens self = toks ∧ pos self ≤ length toks) →
  consume expected self = Return (x, self') →
  tokens self' = toks ∧ pos self' ≤ length toks.
Proof.
  intros [Ht Hp]. unfold consume.
  destruct (tokens self !! pos self) as [t|] eqn:Hl.
  - apply lookup_lt_Some in Hl. rewrite Ht in Hl.
    destruct expected as [e|]; [case_bool_decide; [done |] |];
      intros [= <- <-]; simpl; split; (done || lia).
  - by intros [= <- <-].
Qed.

Lemma parse_statement_within self node self' :
  parse_statement self = Return (node, self') →
  tokens self' = tokens self ∧ pos self < pos self' ≤ length (tokens self).
Proof.
  intros H.
  assert (pos self < length (tokens self)) as Hlt.
  { unfold parse_statement in H. unfold peek in H.
    destruct (tokens self !! pos self) as [t|] eqn:Hl; [| done].
    by apply lookup_lt_Some in Hl. }
  pose proof (parse_statement_respects
                (λ s, tokens s = tokens self ∧ pos s ≤ length (tokens self))
                (λ _, True) (consume_within (tokens self))) as HI.
  specialize (HI (λ _ _ _ _, Logic.I) (λ _ _ _ _ _ _ _, Logic.I) Logic.I self).
  rewrite H in HI. simpl in HI. destruct HI as [Ht Hle]; [split; [done | lia] |].
  split; [done |]. split; [| done].
  (* the position moved forward *)
  rewrite parse_statement_eq in H.
  assert (∀ s n s', expression_at s = Return (n, s') → pos s ≤ length (tokens s) →
            pos s' ≤ length (tokens s') → pos s < pos s') as Hadv.
  { intros s n s' Hs Hle1 Hle2. pose proof (expression_at_advances s) as Ha.
    rewrite Hs in Ha. simpl in Ha. destruct Ha as [Ht' Hl'].
    unfold tokens_left in Hl'. rewrite Ht' in *. lia. }
  destruct (peek self) as [t|]; [| done].
  case_bool_decide.
  - destruct (peek_in [ASSIGN] (advance self)) eqn:Hin.
    { apply peek_in_Some in Hin as (t' & Hpeek' & _).
      apply lookup_lt_Some in Hpeek'. simpl in Hpeek'.
      destruct (expression_at (advance (advance self))) as [[n s3]| |] eqn:He;
        [| done | done].
      simpl in H. injection H as <- <-.
      apply Hadv in He; simpl in *; [lia | lia | by rewrite Ht]. }
    destruct (peek_in [EQUALS] (advance self)) eqn:Hin'.
    { apply peek_in_Some in Hin' as (t' & Hpeek' & _).
      apply lookup_lt_Some in Hpeek'. simpl in Hpeek'.
      destruct (expression_at (advance (advance self))) as [[n s3]| |] eqn:He;
        [| done | done].
      simpl in H. injection H as <- <-.
      apply Hadv in He; simpl in *; [lia | lia | by rewrite Ht]. }
    apply Hadv in H; simpl in *; [lia | lia | by rewrite Ht].
  - apply Hadv in H; [done | lia | by rewrite Ht].
Qed.

Lemma consume_RPAREN_Raise self e :
  consume (Some RPAREN) self = Raise e → parse_error e.
Proof.
  unfold consume. destruct (tokens self !! pos self) as [t|]; [| done].
  case_bool_decide as Hne; [| done].
  intros [= <-]. right. by exists (type t).
Qed.

(** On tokens whose NUMBER lexemes are numbers, the parser raises
    AttributeError or the SyntaxError of a missing closing parenthesis. *)
Lemma parse_statement_Raise self e :
  Forall (λ t, type t = NUMBER → is_number (value t) = true) (tokens self) →
  parse_statement self = Raise e → parse_error e.
Proof.
  intros Hall H.
  assert (respects (λ s, tokens s = tokens self) parse_error (parse_statement self)) as HI.
  2:{ by rewrite H in HI. }
  apply parse_statement_respects; try done.
  - intros expected s x s' Hs Hc. apply consume_left in Hc as [-> _]. done.
  - intros s e' _. apply consume_RPAREN_Raise.
  - intros s t e' Hs Hpeek Hty. unfold peek in Hpeek. rewrite Hs in Hpeek.
    apply list_elem_of_lookup_2 in Hpeek.
    rewrite Forall_forall in Hall. specialize (Hall t Hpeek Hty).
    apply make_Num_number in Hall. rewrite Hall. done.
  - by left.
Qed.

Lemma visit_Raise (node : ASTNode) (globals : gmap string PyValue) (e : exception) :
  (visit node globals).1 = Raise e → visit_error e.
Proof.
  revert globals.
  induction node as [lhs IHl op rhs IHr|x|name|name value IH is_decl|];
    intros globals; simpl; try done.
  - specialize (IHl globals).
    destruct (visit lhs globals) as [[l| |] g1]; simpl in *; try done.
    specialize (IHr g1).
    destruct (visit rhs g1) as [[r| |] g2]; simpl in *; try done.
    unfold visit_error.
    destruct op; simpl; try done;
      destruct l, r; simpl; try (intros [= <-]; by auto).
    destruct (PrimFloat.eqb _ _); simpl; [| done]. intros [= <-]. auto.
  - destruct (globals !! name); simpl; [done |]. intros [= <-]. left. by eexists.
  - specialize (IH globals).
    destruct (visit value globals) as [[val| |] g1]; simpl in *; try done.
    destruct (is_decl && bool_decide (is_Some (g1 !! name))); simpl; [| done].
    intros [= <-]. right. left. by eexists.
Qed.

Lemma run_line_Raise_kinds (text : string) (globals : gmap string PyValue) (e : exception) :
  (run_line text globals).1 = Raise e → line_error e.
Proof.
  unfold run_line.
  destruct (lex text) as [toks| |] eqn:Hlex; simpl.
  - pose proof (lex_numbers _ _ Hlex) as Hall.
    destruct (parse_statement (mkParser toks 0)) as [[ast self']| |] eqn:Hp; simpl.
    + intros H%visit_Raise. unfold line_error.
      destruct H as [H | [H | [H | H]]]; auto 10.
    + intros [= <-]. apply parse_statement_Raise in Hp; [| done].
      unfold line_error. destruct Hp as [-> | H]; auto.
    + done.
  - intros [= <-]. apply lex_Raise in Hlex as (pre & c & post & _ & ->).
    left. by exists c.
  - done.
Qed.

(** ** Lines with variables *)

Lemma peek_numbers_lexed self t :
  numbers_lexed (tokens self) → peek self = Some t → type t = NUMBER →
  make_Num (value t) = Return (Num (literal_value (value t))).
Proof.
  intros Hall Hpeek Hty. apply make_Num_number.
  unfold numbers_lexed in Hall. rewrite Forall_forall in Hall.
  apply Hall; [| done]. by eapply list_elem_of_lookup_2.
Qed.

(** The descent on the tokens of a derivation with identifiers builds its
    tree. *)
Lemma parse_vderivation :
  (∀ e self suffix, numbers_lexed (tokens self) →
     remaining self = vexpression_tokens e ++ suffix →
     starts_with [MUL; DIV] suffix = false →
     expression_at self =
       expression_loop_at (vexpression_node e)
         (skip (length (vexpression_tokens e)) self)) ∧
  (∀ t self suffix, numbers_lexed (tokens self) →
     remaining self = vterm_tokens t ++ suffix →
     term_at self =
       term_loop_at (vterm_node t) (skip (length (vterm_tokens t)) self)) ∧
  (∀ f self suffix, numbers_lexed (tokens self) →
     remaining self = vfactor_tokens f ++ suffix →
     factor_at self =
       Return (vfactor_node f, skip (length (vfactor_tokens f)) self)).
Proof.
  apply vgrammar_mutind.
  - (* VE_term *)
    intros t IHt self suffix Hwf Hrem Hsuffix. simpl in *.
    rewrite expression_at_eq, (IHt self suffix Hwf Hrem).
    rewrite term_loop_at_eq, peek_in_remaining.
    by rewrite (remaining_skip _ _ _ Hrem), Hsuffix.
  - (* VE_binary *)
    intros e IHe op t IHt self suffix Hwf Hrem Hsuffix.
    simpl in *. rewrite <- app_assoc in Hrem. simpl in Hrem.
    rewrite (IHe self _ Hwf Hrem) by (by destruct op).
    pose proof (remaining_skip _ _ _ Hrem) as Hrem1.
    rewrite expression_loop_at_eq, peek_in_remaining, Hrem1.
    destruct (remaining_cons _ _ _ Hrem1) as [Hpeek Hrem2].
    replace (starts_with [PLUS; MINUS] _) with true by (by destruct op).
    rewrite Hpeek.
    rewrite (IHt (advance (skip (length (vexpression_tokens e)) self)) suffix Hwf Hrem2).
    pose proof (remaining_skip _ _ _ Hrem2) as Hrem3.
    rewrite term_loop_at_eq, peek_in_remaining, Hrem3, Hsuffix. simpl.
    f_equal. rewrite skip_advance, skip_skip, length_app. simpl.
    f_equal. lia.
  - (* VT_factor *)
    intros f IHf self suffix Hwf Hrem. simpl in *.
    by rewrite term_at_eq, (IHf self suffix Hwf Hrem).
  - (* VT_binary *)
    intros t IHt op f IHf self suffix Hwf Hrem.
    simpl in *. rewrite <- app_assoc in Hrem. simpl in Hrem.
    rewrite (IHt self _ Hwf Hrem).
    pose proof (remaining_skip _ _ _ Hrem) as Hrem1.
    rewrite term_loop_at_eq, peek_in_remaining, Hrem1.
    destruct (remaining_cons _ _ _ Hrem1) as [Hpeek Hrem2].
    replace (starts_with [MUL; DIV] _) with true by (by destruct op).
    rewrite Hpeek.
    rewrite (IHf (advance (skip (length (vterm_tokens t)) self)) suffix Hwf Hrem2). simpl.
    f_equal. rewrite skip_advance, skip_skip, length_app. simpl.
    f_equal. lia.
  - (* VF_number *)
    intros lexeme self suffix Hwf Hrem. simpl in *.
    destruct (remaining_cons _ _ _ Hrem) as [Hpeek _].
    rewrite factor_at_eq, Hpeek. simpl.
    pose proof (peek_numbers_lexed _ _ Hwf Hpeek eq_refl) as Hnum. simpl in Hnum.
    rewrite Hnum. simpl. by rewrite advance_skip.
  - (* VF_ident *)
    intros name self suffix Hwf Hrem. simpl in *.
    destruct (remaining_cons _ _ _ Hrem) as [Hpeek _].
    rewrite factor_at_eq, Hpeek. simpl. by rewrite advance_skip.
  - (* VF_paren *)
    intros e IHe self suffix Hwf Hrem. simpl in *.
    destruct (remaining_cons _ _ _ Hrem) as [Hpeek Hrem1].
    rewrite factor_at_eq, Hpeek. simpl.
    rewrite <- app_assoc in Hrem1. simpl in Hrem1.
    rewrite (IHe (advance self) _ Hwf Hrem1) by done.
    pose proof (remaining_skip _ _ _ Hrem1) as Hrem2.
    rewrite expression_loop_at_eq, peek_in_remaining, Hrem2. simpl.
    destruct (remaining_cons _ _ _ Hrem2) as [Hpeek2 _].
    unfold consume. unfold peek in Hpeek2. rewrite Hpeek2. simpl.
    f_equal. f_equal. rewrite skip_advance, advance_skip, skip_skip.
    rewrite length_app. simpl. f_equal. lia.
Qed.

Lemma starts_with_operators (suffix : list Token) :
  starts_with [PLUS; MINUS; MUL; DIV] suffix = false →
  starts_with [PLUS; MINUS] suffix = false ∧ starts_with [MUL; DIV] suffix = false.
Proof.
  destruct suffix as [|t ts]; [done |]. simpl.
  rewrite !bool_decide_eq_false, !elem_of_cons, !elem_of_nil. tauto.
Qed.

(** An expression with nothing of an expression behind it is read to its
    end. *)
Lemma expression_at_vderivation (e : vexpression) self suffix :
  numbers_lexed (tokens self) →
  remaining self = vexpression_tokens e ++ suffix →
  starts_with [PLUS; MINUS; MUL; DIV] suffix = false →
  expression_at self =
    Return (vexpression_node e, skip (length (vexpression_tokens e)) self).
Proof.
  intros Hwf Hrem [Hadd Hmul]%starts_with_operators.
  rewrite (proj1 parse_vderivation e self suffix Hwf Hrem Hmul).
  rewrite expression_loop_at_eq, peek_in_remaining.
  by rewrite (remaining_skip _ _ _ Hrem), Hadd.
Qed.

Lemma vderivation_first_token :
  (∀ e, ∃ t ts, vexpression_tokens e = t :: ts) ∧
  (∀ t, ∃ t' ts, vterm_tokens t = t' :: ts) ∧
  (∀ f, ∃ t ts, vfactor_tokens f = t :: ts).
Proof.
  apply vgrammar_mutind; simpl; eauto.
  - intros e (t' & ts & ->) op t _. simpl. eauto.
  - intros t (t' & ts & ->) op f _. simpl. eauto.
Qed.

Lemma remaining_start (toks : list Token) : remaining (mkParser toks 0) = toks.
Proof. done. Qed.

(** [parse_statement] on the tokens of a line, whatever follows them that
    does not carry the expression on, returns the tree of the line. *)
Lemma parse_statement_vderivation (s : statement) (suffix : list Token) :
  numbers_lexed (statement_tokens s ++ suffix) →
  statement_read s = true →
  starts_with [PLUS; MINUS; MUL; DIV] suffix = false →
  ∃ self',
    parse_statement (mkParser (statement_tokens s ++ suffix) 0) =
      Return (statement_node s, self').
Proof.
  intros Hwf Hread Hsuffix.
  set (self := mkParser (statement_tokens s ++ suffix) 0).
  pose proof (remaining_start (statement_tokens s ++ suffix)) as Hrem.
  fold self in Hrem. rewrite parse_statement_eq.
  destruct s as [name e | name e | e]; simpl in Hrem.
  - destruct (remaining_cons _ _ _ Hrem) as [Hpeek Hrem1].
    destruct (remaining_cons _ _ _ Hrem1) as [Hpeek1 Hrem2].
    rewrite Hpeek, bool_decide_eq_true_2 by done.
    rewrite peek_in_remaining, Hrem1. simpl.
    rewrite (expression_at_vderivation e (advance (advance self)) suffix Hwf Hrem2 Hsuffix).
    simpl. eauto.
  - destruct (remaining_cons _ _ _ Hrem) as [Hpeek Hrem1].
    destruct (remaining_cons _ _ _ Hrem1) as [Hpeek1 Hrem2].
    rewrite Hpeek, bool_decide_eq_true_2 by done.
    rewrite !peek_in_remaining, Hrem1. simpl.
    rewrite (expression_at_vderivation e (advance (advance self)) suffix Hwf Hrem2 Hsuffix).
    simpl. eauto.
  - destruct (proj1 vderivation_first_token e) as (t & ts & Hts).
    pose proof Hrem as Hrem0.
    simpl in Hread. rewrite Hts in Hread, Hrem. simpl in Hread, Hrem.
    destruct (remaining_cons _ _ _ Hrem) as [Hpeek _].
    rewrite Hpeek.
    apply negb_true_iff, bool_decide_eq_false in Hread.
    rewrite elem_of_cons, elem_of_nil in Hread.
    rewrite bool_decide_eq_false_2 by tauto.
    rewrite (expression_at_vderivation e self suffix Hwf Hrem0 Hsuffix). eauto.
Qed.

(** ** The interpreter on the trees of lines with variables *)

Lemma visit_vderivation (env : gmap string float) :
  (∀ e, visit (vexpression_node e) (PyFloat <$> env) =
          (PyFloat <$> vexpression_value e env, PyFloat <$> env)) ∧
  (∀ t, visit (vterm_node t) (PyFloat <$> env) =
          (PyFloat <$> vterm_value t env, PyFloat <$> env)) ∧
  (∀ f, visit (vfactor_node f) (PyFloat <$> env) =
          (PyFloat <$> vfactor_value f env, PyFloat <$> env)).
Proof.
  apply vgrammar_mutind; simpl; try done.
  - intros e IHe op t IHt. rewrite IHe.
    destruct (vexpression_value e env) as [x| |]; simpl; [| done | done].
    rewrite IHt. destruct (vterm_value t env) as [y| |]; simpl; [| done | done].
    by destruct op.
  - intros t IHt op f IHf. rewrite IHt.
    destruct (vterm_value t env) as [x| |]; simpl; [| done | done].
    rewrite IHf. destruct (vfactor_value f env) as [y| |]; simpl; [| done | done].
    destruct op; simpl; [done |].
    unfold py_truediv. by destruct (PrimFloat.eqb y 0).
  - intros name. rewrite lookup_fmap. by destruct (env !! name).
Qed.

Lemma visit_statement (s : statement) (env : gmap string float) :
  visit (statement_node s) (PyFloat <$> env) =
    (PyFloat <$> (statement_run s env).1, PyFloat <$> (statement_run s env).2).
Proof.
  destruct (visit_vderivation env) as (He & _ & _).
  destruct s as [name e | name e | e]; simpl; rewrite He.
  - destruct (vexpression_value e env) as [x| |]; simpl; [| done | done].
    rewrite lookup_fmap.
    destruct (env !! name) as [y|] eqn:Hn; simpl; [done | by rewrite fmap_insert].
  - destruct (vexpression_value e env) as [x| |]; simpl; [| done | done].
    by rewrite fmap_insert.
  - done.
Qed.

Lemma run_line_statement (s : statement) (suffix : list Token) (text : string)
    (env : gmap string float) :
  lex text = Return (statement_tokens s ++ suffix) →
  statement_read s = true →
  starts_with [PLUS; MINUS; MUL; DIV] suffix = false →
  run_line text (PyFloat <$> env) =
    (PyFloat <$> (statement_run s env).1, PyFloat <$> (statement_run s env).2).
Proof.
  intros Hlex Hread Hsuffix. unfold run_line. rewrite Hlex.
  destruct (parse_statement_vderivation s suffix) as [self' ->]; try done.
  - by eapply lex_numbers.
  - apply visit_statement.
Qed.

(** ** The sentinel and the lexer *)

Lemma is_exit_lex (text : string) (toks : list Token) :
  is_exit text = true → lex text = Return toks → length toks ≤ 1.
Proof.
  intros [-> | (a & b & c & d & -> & Ha & Hb & Hc & Hd)]%is_exit_spelling.
  { intros [= <-]. simpl. lia. }
  rewrite !elem_of_cons, elem_of_nil in Ha, Hb, Hc, Hd.
  destruct Ha as [-> | [-> | []]], Hb as [-> | [-> | []]],
           Hc as [-> | [-> | []]], Hd as [-> | [-> | []]];
    vm_compute; intros [= <-]; simpl; lia.
Qed.

(** ** The printed form of a token *)

Lemma string_app_inj_r (a b c : string) : a +:+ c = b +:+ c → a = b.
Proof.
  revert b. induction a as [|x a IH]; intros b H.
  - destruct b as [|y b]; [done |].
    apply (f_equal String.length) in H.
    rewrite string_app_nil_l, string_app_cons in H. simpl in H.
    rewrite string_app_length in H. lia.
  - destruct b as [|y b].
    + apply (f_equal String.length) in H.
      rewrite string_app_nil_l, string_app_cons in H. simpl in H.
      rewrite string_app_length in H. lia.
    + rewrite !string_app_cons in H. injection H as -> H. by rewrite (IH b H).
Qed.

Lemma type_name_prefix (k1 k2 : TokenType) (r1 r2 : string) :
  type_name k1 +:+ ", " +:+ r1 = type_name k2 +:+ ", " +:+ r2 → k1 = k2 ∧ r1 = r2.
Proof.
  destruct k1, k2; simpl type_name; rewrite !string_app_cons, !string_app_nil_l;
    intros [=]; done.
Qed.

Lemma token_type_names_type_name (t : string) :
  t ∈ token_type_names → ∃ k, t = type_name k.
Proof.
  unfold token_type_names. rewrite list_elem_of_fmap.
  intros ([k p] & -> & _). by exists k.
Qed.

Lemma Token_repr_of_type_name (k1 k2 : TokenType) (v1 v2 : string) :
  Token_repr_of (type_name k1) v1 = Token_repr_of (type_name k2) v2 →
  k1 = k2 ∧ v1 = v2.
Proof.
  unfold Token_repr_of.
  rewrite !string_app_cons, !string_app_nil_l. intros [= H].
  apply type_name_prefix in H as [-> H].
  by apply string_app_inj_r in H as ->.
Qed.

Lemma Token_repr_inj (t1 t2 : Token) : Token_repr t1 = Token_repr t2 → t1 = t2.
Proof.
  destruct t1 as [k1 v1], t2 as [k2 v2]. unfold Token_repr. simpl.
  by intros [-> ->]%Token_repr_of_type_name.
Qed.

(** ** A parenthesis that is not closed by the next token *)

Lemma parse_statement_expected_RPAREN (e : vexpression) (t : Token) (rest : list Token) :
  numbers_lexed (mkToken LPAREN "(" :: vexpression_tokens e ++ t :: rest) →
  type t ∉ [PLUS; MINUS; MUL; DIV; RPAREN] →
  parse_statement (mkParser (mkToken LPAREN "(" :: vexpression_tokens e ++ t :: rest) 0) =
    Raise (SyntaxError ("Expected RPAREN, got " +:+ type_name (type t))).
Proof.
  intros Hwf Ht.
  set (self := mkParser (mkToken LPAREN "(" :: vexpression_tokens e ++ t :: rest) 0).
  pose proof (remaining_start (mkToken LPAREN "(" :: vexpression_tokens e ++ t :: rest))
    as Hrem.
  fold self in Hrem.
  destruct (remaining_cons _ _ _ Hrem) as [Hpeek Hrem1].
  rewrite !elem_of_cons, elem_of_nil in Ht.
  assert (starts_with [PLUS; MINUS; MUL; DIV] (t :: rest) = false) as Hsuffix.
  { simpl. apply bool_decide_eq_false. rewrite !elem_of_cons, elem_of_nil. tauto. }
  rewrite parse_statement_eq, Hpeek.
  rewrite bool_decide_eq_false_2 by done.
  rewrite expression_at_eq, term_at_eq, factor_at_eq, Hpeek.
  cbn [type].
  rewrite (expression_at_vderivation e (advance self) (t :: rest) Hwf Hrem1 Hsuffix).
  pose proof (remaining_skip _ _ _ Hrem1) as Hrem2.
  destruct (remaining_cons _ _ _ Hrem2) as [Hpeek2 _].
  cbn [mbind outcome_bind]. unfold consume. unfold peek in Hpeek2. rewrite Hpeek2.
  rewrite bool_decide_eq_true_2 by tauto. done.
Qed.

(** * The statements of the specification *)

(** ** Statements that begin with an identifier *)

(** After the identifier of a statement that is no assignment,
    [parse_statement] goes on from the token after it: the identifier has
    been consumed and is not read again. *)
Lemma parse_statement_identifier self t :
  peek self = Some t → type t = IDENT →
  peek_in [ASSIGN] (advance self) = false →
  peek_in [EQUALS] (advance self) = false →
  parse_statement self = expression_at (advance self).
Proof.
  intros Hpeek Ht Ha He. rewrite parse_statement_eq, Hpeek.
  rewrite bool_decide_eq_true_2 by done. by rewrite Ha, He.
Qed.

(** C1 (defect of the code).  The specification: a line that begins with
    an identifier not followed by [:=] or [=] is parsed as an expression
    that starts with that identifier, so that after [x := 5] and
    [x = x + 1] the line [x] gives 6.0.  The code: [parse_statement]
    consumes the identifier before it looks at the next token and never
    steps back, so the third line is parsed from the end of its tokens and
    raises AttributeError; [x] is still 6.0 in the dictionary. *)
Theorem C1_bare_identifier_is_lost :
  run_aether ["x := 5"; "x = x + 1"; "x"] =
    ([Return (PyFloat 5%float); Return (PyFloat 6%float); Raise AttributeError],
     {["x" := PyFloat 6%float]}).
Proof. vm_compute. reflexivity. Qed.

(** ** Arithmetic lines *)

(** C2, as stated, fails: the line [0.1+0.2] evaluates to the binary64
    number 0.30000000000000004, which is not 3/10, and the line [1/0] raises
    ZeroDivisionError and yields no value. *)
Lemma C2_counterexample :
  ¬ yields_exact_value example_tenth_plus_fifth ∧
  ¬ yields_exact_value example_1_over_0.
Proof.
  split.
  - intros (x & q & r & Hrun & Hq & Hr & Heq).
    vm_compute in Hrun. injection Hrun as <-.
    vm_compute in Hq. injection Hq as <-.
    vm_compute in Hr. injection Hr as <-.
    vm_compute in Heq. discriminate Heq.
  - intros (x & q & r & Hrun & _). vm_compute in Hrun. discriminate Hrun.
Qed.

(** C2 (amended).  For every arithmetic line without variables, that is every
    text whose tokens are those of a derivation of the grammar of
    expressions, terms and factors over numbers, [lex], [parse_statement]
    and [visit] yield the value of the derivation in binary64 arithmetic:
    [*] and [/] bind tighter than [+] and [-], operators of one level
    associate to the left, every literal and every operation is rounded to
    the nearest binary64, and a division by zero raises ZeroDivisionError.
    The dictionary is left as it was. *)
Theorem C2_arithmetic_line (e : expression) (text : string)
    (globals : gmap string PyValue) :
  lex text = Return (expression_tokens e) →
  run_line text globals = (PyFloat <$> expression_value e, globals).
Proof. apply run_line_derivation. Qed.

Lemma C2_arithmetic_line_witness :
  (lex "2 + 3 * 4" = Return (expression_tokens example_2_plus_3_times_4) ∧
   run_line "2 + 3 * 4" ∅ = (Return (PyFloat 14%float), ∅)) ∧
  (lex "(2 + 3) * 4" = Return (expression_tokens example_2_plus_3_in_parens_times_4) ∧
   run_line "(2 + 3) * 4" ∅ = (Return (PyFloat 20%float), ∅)).
Proof.
  split; split.
  - reflexivity.
  - exact (C2_arithmetic_line example_2_plus_3_times_4 "2 + 3 * 4" ∅ eq_refl).
  - reflexivity.
  - exact (C2_arithmetic_line example_2_plus_3_in_parens_times_4 "(2 + 3) * 4" ∅ eq_refl).
Defined.

(** ** Declarations and reassignments *)

(** C3.  A declaration whose value evaluates to [val], leaving the
    dictionary [globals1] (the dictionary before, when the value is an
    expression, as in every tree of the parser): when the name is in the
    dictionary, [visit] raises the NameError that says the variable is
    already declared and binds nothing; when the name is absent, [visit]
    returns [val] and binds the name to [val].  So [x := 5] followed by
    [x := 6] fails on the second line, with [x] still 5.0. *)
Theorem C3_declaration (name : string) (value : ASTNode) (val : PyValue)
    (globals globals1 : gmap string PyValue) :
  visit value globals = (Return val, globals1) →
  (is_expression value = true → globals1 = globals) ∧
  (is_Some (globals1 !! name) →
     visit (Assign name value true) globals =
       (Raise (NameError ("Variable '" +:+ name
                          +:+ "' already declared (use = to update)")),
        globals1)) ∧
  (globals1 !! name = None →
     visit (Assign name value true) globals =
       (Return val, <[name := val]> globals1)) ∧
  run_aether ["x := 5"; "x := 6"] =
    ([Return (PyFloat 5%float);
      Raise (NameError "Variable 'x' already declared (use = to update)")],
     {["x" := PyFloat 5%float]}).
Proof.
  intros Hval. split; [| split; [| split]].
  - intros Hexpr. by rewrite <- (visit_expression_globals _ globals Hexpr), Hval.
  - intros Hsome. simpl. rewrite Hval. by rewrite bool_decide_eq_true_2.
  - intros Hnone. simpl. rewrite Hval. rewrite bool_decide_eq_false_2; [done |].
    rewrite Hnone. by intros [? ?].
  - vm_compute. reflexivity.
Qed.

Lemma C3_declaration_witness :
  visit (Num 6%float) {["x" := PyFloat 5%float]} =
    (Return (PyFloat 6%float), {["x" := PyFloat 5%float]}) ∧
  visit (Assign "x" (Num 6%float) true) {["x" := PyFloat 5%float]} =
    (Raise (NameError "Variable 'x' already declared (use = to update)"),
     {["x" := PyFloat 5%float]}) ∧
  visit (Assign "y" (Num 6%float) true) {["x" := PyFloat 5%float]} =
    (Return (PyFloat 6%float),
     <["y" := PyFloat 6%float]> {["x" := PyFloat 5%float]}).
Proof.
  split; [reflexivity |]. split.
  - apply (C3_declaration "x" (Num 6%float) (PyFloat 6%float)
             {["x" := PyFloat 5%float]} {["x" := PyFloat 5%float]} eq_refl).
    by eexists.
  - apply (C3_declaration "y" (Num 6%float) (PyFloat 6%float)
             {["x" := PyFloat 5%float]} {["x" := PyFloat 5%float]} eq_refl).
    reflexivity.
Defined.

(** C4.  A reassignment whose value evaluates to [val], leaving the
    dictionary [globals1] (the dictionary before, when the value is an
    expression): [visit] returns [val] and binds the name to [val], whether
    the name was in the dictionary or not.  So [z = 10] on the empty
    dictionary returns 10.0 and creates [z]. *)
Theorem C4_reassignment (name : string) (value : ASTNode) (val : PyValue)
    (globals globals1 : gmap string PyValue) :
  visit value globals = (Return val, globals1) →
  (is_expression value = true → globals1 = globals) ∧
  visit (Assign name value false) globals = (Return val, <[name := val]> globals1) ∧
  run_line "z = 10" ∅ = (Return (PyFloat 10%float), {["z" := PyFloat 10%float]}).
Proof.
  intros Hval. split; [| split].
  - intros Hexpr. by rewrite <- (visit_expression_globals _ globals Hexpr), Hval.
  - simpl. by rewrite Hval.
  - vm_compute. reflexivity.
Qed.

Lemma C4_reassignment_witness :
  visit (Num 10%float) ∅ = (Return (PyFloat 10%float), ∅) ∧
  visit (Assign "z" (Num 10%float) false) ∅ =
    (Return (PyFloat 10%float), <["z" := PyFloat 10%float]> ∅).
Proof.
  split; [reflexivity |].
  apply (C4_reassignment "z" (Num 10%float) (PyFloat 10%float) ∅ ∅ eq_refl).
Defined.

(** ** Parentheses *)

(** At the end of the tokens [consume] returns [None] whatever type is
    expected: it raises only on a token of another type. *)
Lemma consume_exhausted expected self :
  peek self = None → consume expected self = Return (None, self).
Proof. unfold peek, consume. by intros ->. Qed.

(** So an opening parenthesis and a derivation with nothing after it are
    accepted as the derivation alone. *)
Lemma unclosed_parenthesis_accepted (e : expression) (globals : gmap string PyValue) :
  expression_wf e = true →
  run_line ("(" +:+ expression_text e) globals =
    (PyFloat <$> expression_value e, globals).
Proof.
  intros Hwf. unfold run_line.
  change ("(" +:+ expression_text e) with (String "(" (expression_text e)).
  rewrite (lex_one "(" LPAREN) by (rewrite !elem_of_cons; auto 10).
  rewrite (lex_expression_text _ Hwf). simpl.
  set (self := mkParser (mkToken LPAREN "(" :: expression_tokens e) 0).
  assert (peek self = Some (mkToken LPAREN "(")) as Hpeek by done.
  assert (remaining (advance self) = expression_tokens e ++ []) as Hrem.
  { unfold remaining. simpl. by rewrite app_nil_r. }
  pose proof (remaining_skip _ _ _ Hrem) as Hend.
  set (last := skip (length (expression_tokens e)) (advance self)) in *.
  assert (∀ types, peek_in types last = false) as Hno.
  { intros types. by rewrite peek_in_remaining, Hend. }
  rewrite parse_statement_eq, Hpeek. simpl.
  rewrite expression_at_eq, term_at_eq, factor_at_eq, Hpeek. simpl.
  rewrite (proj1 parse_derivation e _ [] Hwf Hrem eq_refl).
  fold last. rewrite expression_loop_at_eq, Hno. simpl.
  rewrite (consume_exhausted _ _ (remaining_nil _ Hend)). simpl.
  rewrite term_loop_at_eq, Hno. simpl.
  rewrite expression_loop_at_eq, Hno.
  apply visit_derivation.
Qed.

(** C5 (defect of the code).  The specification: a line whose opening
    parenthesis has no closing one, the tokens ending first, fails with a
    parse error, gives no result and changes no binding.  The code:
    [consume('RPAREN')] at the end of the tokens returns [None] without
    raising, and [parse_factor] returns the node read so far: [(1 + 2]
    evaluates to 3.0 and [x := (1 + 2] binds [x].  Only a token of another
    type in the place of the parenthesis raises, as in [(1 + 2 3]. *)
Theorem C5_unclosed_parenthesis_is_accepted :
  run_line "(1 + 2" ∅ = (Return (PyFloat 3%float), ∅) ∧
  run_line "x := (1 + 2" ∅ = (Return (PyFloat 3%float), {["x" := PyFloat 3%float]}) ∧
  run_line "(1 + 2 3" ∅ = (Raise (SyntaxError "Expected RPAREN, got NUMBER"), ∅).
Proof. repeat split; vm_compute; reflexivity. Qed.

(** ** Factors *)

(** C6 (defect of the code).  The specification: a factor that starts with
    no NUMBER, IDENT or LPAREN token, or at the end of the tokens, fails
    with a parse error.  The code: on a token of any other type
    [parse_factor] falls off its three tests and returns [None] as the
    node, having consumed the token; at the end of the tokens it raises
    AttributeError on [None.type], not a SyntaxError. *)
Theorem C6_factor_without_operand (self : Parser) :
  (∀ t, peek self = Some t → type t ∉ [NUMBER; IDENT; LPAREN] →
     factor_at self = Return (NoNode, advance self)) ∧
  (peek self = None → factor_at self = Raise AttributeError).
Proof.
  rewrite factor_at_eq. split.
  - intros t -> Ht. rewrite !elem_of_cons, elem_of_nil in Ht.
    destruct (type t); try done; exfalso; apply Ht; auto.
  - by intros ->.
Qed.

Lemma C6_factor_without_operand_witness :
  factor_at (mkParser [mkToken RPAREN ")"] 0) =
    Return (NoNode, mkParser [mkToken RPAREN ")"] 1) ∧
  factor_at (mkParser [] 0) = Raise AttributeError ∧
  run_line ")" ∅ = (Return PyNone, ∅).
Proof.
  split; [| split].
  - apply (proj1 (C6_factor_without_operand (mkParser [mkToken RPAREN ")"] 0))
             (mkToken RPAREN ")") eq_refl).
    simpl. rewrite !elem_of_cons, elem_of_nil. by intros [|[|[|]]].
  - exact (proj2 (C6_factor_without_operand (mkParser [] 0)) eq_refl).
  - reflexivity.
Defined.

(** ** Characters that match no class *)

(** C7.  A character that matches none of the lexical classes where it
    stands makes [lex] fail with the SyntaxError that carries it, and the
    line changes nothing in the dictionary.  Where it stands: the loop of
    [lex] arrives at the character after matches none of which is an ERROR
    (so the character is inside no string literal and no number), and of
    the alternatives of [TOKEN_TYPES] only ERROR matches there.  These are
    the characters of [illegal_at]: one in the alphabet of no pattern, a
    point, a colon with no equals sign behind it, a double quote that no
    later double quote closes.  In particular such a character after a text
    that lexes makes the line fail (a point, when no digit follows it: a
    point between digits belongs to a number).  Conversely, whatever [lex]
    raises is this error, on a character of the text at which the loop
    arrived and that matches no class there; the line ends with it and the
    dictionary as it was. *)
Theorem C7_illegal_character (globals : gmap string PyValue) :
  (∀ text n toks c post,
     scan n text = Some (toks, String c post) → illegal_at c post = true →
     lex text = Raise (SyntaxError ("Illegal character: " +:+ String c "")) ∧
     run_line text globals =
       (Raise (SyntaxError ("Illegal character: " +:+ String c "")), globals)) ∧
  (∀ pre c post,
     is_returned (lex pre) = true → illegal_at c post = true →
     (c = "."%char → starts_with_digit post = false) →
     lex (pre +:+ String c post) =
       Raise (SyntaxError ("Illegal character: " +:+ String c "")) ∧
     run_line (pre +:+ String c post) globals =
       (Raise (SyntaxError ("Illegal character: " +:+ String c "")), globals)) ∧
  (∀ c post,
     illegal_at c post = true ↔
     regex (String c post) = Some (ERROR, String c "", post)) ∧
  (∀ text e,
     lex text = Raise e →
     run_line text globals = (Raise e, globals) ∧
     ∃ n toks pre c post,
       text = pre +:+ String c post ∧
       scan n text = Some (toks, String c post) ∧
       illegal_at c post = true ∧
       e = SyntaxError ("Illegal character: " +:+ String c "")).
Proof.
  split; [| split; [| split]].
  - intros text n toks c post Hscan Hc%regex_illegal_at.
    pose proof (scan_Raise _ _ _ _ _ _ _ Hscan Hc) as H.
    split; [done |]. unfold run_line. by rewrite H.
  - intros pre c post Hpre Hc Hpoint.
    destruct (lex pre) as [toks| |] eqn:Hlex; [| done | done].
    pose proof (lex_illegal_at _ _ _ _ Hlex Hc Hpoint) as H.
    split; [done |]. unfold run_line. by rewrite H.
  - intros c post. by rewrite regex_illegal_at.
  - intros text e Hlex. split.
    { unfold run_line. by rewrite Hlex. }
    destruct (lex_Raise_scan _ _ Hlex) as (n & toks & c & post & Hscan & Hc & ->).
    destruct (scan_app _ _ _ _ Hscan) as [pre ->].
    exists n, toks, pre, c, post. by rewrite <- regex_illegal_at.
Qed.

Lemma C7_illegal_character_witness :
  ((is_returned (lex "x := 5 ") = true ∧ illegal_at "@" "" = true) ∧
   lex "x := 5 @" = Raise (SyntaxError "Illegal character: @") ∧
   run_line "x := 5 @" ∅ = (Raise (SyntaxError "Illegal character: @"), ∅)) ∧
  ((is_returned (lex "x ") = true ∧ illegal_at ":" " 5" = true) ∧
   lex "x : 5" = Raise (SyntaxError "Illegal character: :")) ∧
  ((is_returned (lex "1") = true ∧ illegal_at "." " + 2" = true) ∧
   lex "1. + 2" = Raise (SyntaxError "Illegal character: .")) ∧
  ((is_returned (lex "x = ") = true ∧ illegal_at quote "abc" = true) ∧
   lex ("x = " +:+ String quote "abc") =
     Raise (SyntaxError ("Illegal character: " +:+ String quote ""))) ∧
  ((scan 1 "x.5" = Some ([mkToken IDENT "x"], ".5") ∧ illegal_at "." "5" = true) ∧
   lex "x.5" = Raise (SyntaxError "Illegal character: .")).
Proof.
  pose proof (proj1 (C7_illegal_character ∅)) as Arrives.
  pose proof (proj1 (proj2 (C7_illegal_character ∅))) as After.
  split; [| split; [| split; [| split]]].
  - split; [split; reflexivity |].
    apply (After "x := 5 " "@"%char ""); [reflexivity | reflexivity | discriminate].
  - split; [split; reflexivity |].
    apply (After "x " ":"%char " 5"); [reflexivity | reflexivity | discriminate].
  - split; [split; reflexivity |].
    apply (After "1" "."%char " + 2"); [reflexivity | reflexivity | reflexivity].
  - split; [split; reflexivity |].
    apply (After "x = " quote "abc"); [reflexivity | reflexivity | discriminate].
  - split; [split; reflexivity |].
    apply (Arrives "x.5" 1 [mkToken IDENT "x"] "."%char "5"); reflexivity.
Defined.

(** ** Division by zero *)

(** C8, as stated, fails: the division of 1.0 by 0.0 raises, in the tree and
    in the line [1 / 0]. *)
Lemma C8_counterexample :
  visit (BinOp (Num 1%float) DIV (Num 0%float)) ∅ = (Raise ZeroDivisionError, ∅) ∧
  run_line "1 / 0" ∅ = (Raise ZeroDivisionError, ∅).
Proof. split; reflexivity. Qed.

(** C8 (amended).  [visit] has no guard of its own on a division: when the
    operands evaluate to floats it follows Python's float division, which
    raises ZeroDivisionError when the right operand is zero (of either sign)
    and gives the binary64 quotient otherwise. *)
Theorem C8_division (lhs rhs : ASTNode) (x y : float)
    (globals globals1 globals2 : gmap string PyValue) :
  visit lhs globals = (Return (PyFloat x), globals1) →
  visit rhs globals1 = (Return (PyFloat y), globals2) →
  visit (BinOp lhs DIV rhs) globals =
    (if PrimFloat.eqb y 0%float then Raise ZeroDivisionError
     else Return (PyFloat (PrimFloat.div x y)),
     globals2).
Proof.
  intros Hl Hr. simpl. rewrite Hl, Hr. unfold py_truediv.
  by destruct (PrimFloat.eqb y 0).
Qed.

Lemma C8_division_witness :
  (visit (Num 1%float) ∅ = (Return (PyFloat 1%float), ∅) ∧
   visit (Num (-0)%float) ∅ = (Return (PyFloat (-0)%float), ∅)) ∧
  visit (BinOp (Num 1%float) DIV (Num (-0)%float)) ∅ = (Raise ZeroDivisionError, ∅).
Proof.
  split; [split; reflexivity |].
  exact (C8_division (Num 1%float) (Num (-0)%float) 1%float (-0)%float ∅ ∅ ∅
           eq_refl eq_refl).
Defined.

(** ** Newlines *)

(** C9, as stated, fails: a newline is not discarded like a blank.  [lex]
    gives it a NEWLINE token, where a blank gives none; and the token
    counts: the line of 1, a newline and [+ 2] evaluates to 1.0 (the loop
    of [parse_expression] meets NEWLINE where it looks for an operator),
    where a blank in the place of the newline gives 3.0. *)
Lemma C9_counterexample :
  lex (String newline "") = Return [mkToken NEWLINE (String newline "")] ∧
  lex " " = Return [] ∧
  run_line ("1" +:+ String newline "+ 2") ∅ = (Return (PyFloat 1%float), ∅) ∧
  run_line "1 + 2" ∅ = (Return (PyFloat 3%float), ∅).
Proof. repeat split; reflexivity. Qed.

(** C9 (amended).  A newline after a text that lexes (so that it is not
    inside a string literal) is recognized by [lex] as a token of its own,
    NEWLINE, kept in the output at its place between the tokens of the text
    before it and those of the text after it. *)
Theorem C9_newline_token (pre post : string) (toks : list Token) :
  lex pre = Return toks →
  lex (pre +:+ String newline post) =
    (λ rest, toks ++ mkToken NEWLINE (String newline "") :: rest) <$> lex post.
Proof. apply lex_newline_after. Qed.

Lemma C9_newline_token_witness :
  lex "1 " = Return [mkToken NUMBER "1"] ∧
  lex ("1 " +:+ String newline "+ 2") =
    Return [mkToken NUMBER "1"; mkToken NEWLINE (String newline "");
            mkToken PLUS "+"; mkToken NUMBER "2"].
Proof.
  split; [reflexivity |].
  exact (C9_newline_token "1 " "+ 2" [mkToken NUMBER "1"] eq_refl).
Defined.

(** ** The dictionary *)

(** C10.  [visit] changes at most one entry of the dictionary per
    statement: after a line, every name but one is bound as before.  The
    trees [parse_statement] builds are expressions (numbers, variables and
    operations on expressions) or one [Assign] of an expression; evaluating
    an expression leaves the dictionary as it was; evaluating an [Assign] of
    an expression leaves every other name as it was, whether it succeeds or
    raises. *)
Theorem C10_one_entry_per_statement (globals : gmap string PyValue) :
  (∀ text, ∃ name, ∀ other,
     other ≠ name → (run_line text globals).2 !! other = globals !! other) ∧
  (∀ node, is_expression node = true → (visit node globals).2 = globals) ∧
  (∀ name value is_decl other,
     is_expression value = true → other ≠ name →
     (visit (Assign name value is_decl) globals).2 !! other = globals !! other) ∧
  (∀ self node self',
     parse_statement self = Return (node, self') → is_statement node = true).
Proof.
  assert (∀ name value is_decl other,
     is_expression value = true → other ≠ name →
     (visit (Assign name value is_decl) globals).2 !! other = globals !! other)
    as Hassign.
  { intros name value is_decl other Hexpr Hother.
    rewrite (visit_Assign _ _ _ _ Hexpr).
    destruct (visit value globals).1 as [val| |]; simpl; try done.
    destruct (is_decl && bool_decide (is_Some (globals !! name))); simpl; [done |].
    by rewrite lookup_insert_ne. }
  split; [| split; [| split]].
  - intros text. unfold run_line.
    destruct (lex text) as [toks| |]; try (by exists "").
    destruct (parse_statement (mkParser toks 0)) as [[ast self']| |] eqn:Hparse;
      try (by exists "").
    apply parse_statement_builds in Hparse.
    destruct ast as [lhs op rhs|x|x|name value is_decl|].
    5:{ by exists "". }
    4:{ exists name. intros other Hother. by apply Hassign. }
    all: exists ""; intros other _; by rewrite visit_expression_globals.
  - intros node. apply visit_expression_globals.
  - done.
  - intros self. apply parse_statement_builds.
Qed.

Lemma C10_one_entry_per_statement_witness :
  (visit (BinOp (Var "x") PLUS (Num 1%float)) {["x" := PyFloat 5%float]}).2
    = {["x" := PyFloat 5%float]} ∧
  (visit (Assign "y" (Var "x") true) {["x" := PyFloat 5%float]}).2 !! "x"
    = Some (PyFloat 5%float) ∧
  is_statement (Assign "y" (Var "x") true) = true.
Proof.
  split; [| split].
  - exact (proj1 (proj2 (C10_one_entry_per_statement {["x" := PyFloat 5%float]}))
             (BinOp (Var "x") PLUS (Num 1%float)) eq_refl).
  - exact (proj1 (proj2 (proj2 (C10_one_entry_per_statement {["x" := PyFloat 5%float]})))
             "y" (Var "x") true "x" eq_refl ltac:(discriminate)).
  - exact (proj2 (proj2 (proj2 (C10_one_entry_per_statement ∅)))
             (mkParser [mkToken IDENT "y"; mkToken ASSIGN ":="; mkToken IDENT "x"] 0)
             (Assign "y" (Var "x") true)
             (mkParser [mkToken IDENT "y"; mkToken ASSIGN ":="; mkToken IDENT "x"] 3)
             eq_refl).
Defined.

(** * Further properties *)

(** X1.  A line always ends in a value or an exception: the fuel that [lex]
    and [parse_statement] take from the size of their input never runs out,
    and [visit] takes none. *)
Theorem X1_line_terminates (text : string) (globals : gmap string PyValue) :
  (run_line text globals).1 ≠ OutOfFuel.
Proof. apply run_line_total. Qed.

(** X2.  The text of a derivation, written without blanks, evaluates to the
    value of the derivation, whenever its numbers are texts of NUMBER
    tokens. *)
Theorem X2_derivation_text (e : expression) (globals : gmap string PyValue) :
  expression_wf e = true →
  run_line (expression_text e) globals = (PyFloat <$> expression_value e, globals).
Proof.
  intros Hwf. apply run_line_derivation. by apply lex_expression_text.
Qed.

Lemma X2_derivation_text_witness :
  expression_wf example_2_plus_3_in_parens_times_4 = true ∧
  run_line "(2+3)*4" ∅ = (Return (PyFloat 20%float), ∅).
Proof.
  split; [reflexivity |].
  exact (X2_derivation_text example_2_plus_3_in_parens_times_4 ∅ eq_refl).
Defined.

(** X3.  [float] accepts the text of every NUMBER token that [lex] produces:
    [Num] never raises ValueError on the tokens of a line. *)
Theorem X3_number_tokens_convert (text : string) (toks : list Token) (t : Token) :
  lex text = Return toks → t ∈ toks → type t = NUMBER →
  py_float (value t) = Some (literal_value (value t)).
Proof.
  intros Hlex Hin Ht. apply is_number_py_float.
  pose proof (lex_numbers _ _ Hlex) as Hall.
  rewrite Forall_forall in Hall. by apply Hall.
Qed.

Lemma X3_number_tokens_convert_witness :
  lex "x = 2.50" =
    Return [mkToken IDENT "x"; mkToken EQUALS "="; mkToken NUMBER "2.50"] ∧
  py_float "2.50" = Some 2.5%float.
Proof.
  split; [reflexivity |].
  apply (X3_number_tokens_convert "x = 2.50"
           [mkToken IDENT "x"; mkToken EQUALS "="; mkToken NUMBER "2.50"]
           (mkToken NUMBER "2.50") eq_refl); [| reflexivity].
  rewrite !elem_of_cons. auto.
Defined.

(** ** The lexer *)

(** X4.  Every token that [lex] returns is of a kind of [TOKEN_TYPES] other
    than SKIP and ERROR, its text is not empty, and the pattern of its kind
    matches its text, all of it: a NUMBER is digits with an optional
    fraction, an IDENT an identifier, an operator its one or two characters. *)
Theorem X4_tokens_match_their_pattern (text : string) (toks : list Token) (t : Token) :
  lex text = Return toks → t ∈ toks →
  type t ≠ SKIP ∧ type t ≠ ERROR ∧ value t ≠ "" ∧
  ∃ pat, (type t, pat) ∈ TOKEN_TYPES ∧ pat (value t) = Some (value t, "").
Proof.
  intros Hlex Hin. pose proof (lex_token_shapes _ _ Hlex) as Hall.
  rewrite Forall_forall in Hall. destruct (Hall t Hin) as (Hskip & Herr & Hpat).
  repeat split; try done.
  - intros Hv. rewrite Hv in Hpat.
    pose proof TOKEN_TYPES_consume as Hc. rewrite Forall_forall in Hc.
    by destruct (Hc _ (pattern_of_TOKEN_TYPES (type t)) _ _ _ Hpat).
  - exists (pattern_of (type t)). split; [apply pattern_of_TOKEN_TYPES | done].
Qed.

Lemma X4_tokens_match_their_pattern_witness :
  lex "x := 2.50" =
    Return [mkToken IDENT "x"; mkToken ASSIGN ":="; mkToken NUMBER "2.50"] ∧
  (NUMBER ≠ SKIP ∧ NUMBER ≠ ERROR ∧ "2.50" ≠ "" ∧
   ∃ pat, (NUMBER, pat) ∈ TOKEN_TYPES ∧ pat "2.50" = Some ("2.50", "")).
Proof.
  split; [reflexivity |].
  apply (X4_tokens_match_their_pattern "x := 2.50"
           [mkToken IDENT "x"; mkToken ASSIGN ":="; mkToken NUMBER "2.50"]
           (mkToken NUMBER "2.50") eq_refl).
  rewrite !elem_of_cons. auto.
Defined.

(** X5.  [lex] drops spaces and tabs and nothing else: the texts of the
    tokens, one after the other, are the text without its blanks (blanks
    inside a string literal stay in the STRING token, and are removed from
    both sides here). *)
Theorem X5_lex_drops_only_blanks (text : string) (toks : list Token) :
  lex text = Return toks → remove_blanks (tokens_text toks) = remove_blanks text.
Proof. apply lex_keeps_text. Qed.

Lemma X5_lex_drops_only_blanks_witness :
  lex " x :=  2 " = Return [mkToken IDENT "x"; mkToken ASSIGN ":="; mkToken NUMBER "2"] ∧
  remove_blanks (tokens_text [mkToken IDENT "x"; mkToken ASSIGN ":="; mkToken NUMBER "2"])
    = remove_blanks " x :=  2 ".
Proof.
  split; [reflexivity |].
  exact (X5_lex_drops_only_blanks " x :=  2 "
           [mkToken IDENT "x"; mkToken ASSIGN ":="; mkToken NUMBER "2"] eq_refl).
Defined.

(** X6.  A space or a tab separates: the tokens of a text that lexes,
    followed by a blank and more text, are the tokens of the text followed
    by those of what comes after the blank, and an illegal character after
    the blank is raised as it is alone. *)
Theorem X6_blank_separates (pre post : string) (c : ascii) (toks : list Token) :
  is_blank c = true → lex pre = Return toks →
  lex (pre +:+ String c post) = (toks ++.) <$> lex post.
Proof. apply lex_app_blank. Qed.

Lemma X6_blank_separates_witness :
  is_blank " " = true ∧
  lex "x" = Return [mkToken IDENT "x"] ∧
  lex ("x" +:+ String " " "y1") = ([mkToken IDENT "x"] ++.) <$> lex "y1".
Proof.
  split; [reflexivity |]. split; [reflexivity |].
  exact (X6_blank_separates "x" "y1" " " [mkToken IDENT "x"] eq_refl eq_refl).
Defined.

(** ** The parser *)

(** X7.  When [parse_statement] returns, the token list is the one it was
    given, and the position has moved forward by at least one token and not
    past the end of the tokens. *)
Theorem X7_parser_moves_forward (self self' : Parser) (node : ASTNode) :
  parse_statement self = Return (node, self') →
  tokens self' = tokens self ∧ pos self < pos self' ≤ length (tokens self).
Proof. apply parse_statement_within. Qed.

Lemma X7_parser_moves_forward_witness :
  parse_statement (mkParser [mkToken NUMBER "1"; mkToken RPAREN ")"] 0) =
    Return (Num 1%float, mkParser [mkToken NUMBER "1"; mkToken RPAREN ")"] 1) ∧
  0 < 1 ≤ 2.
Proof.
  split; [reflexivity |].
  exact (proj2 (X7_parser_moves_forward
                  (mkParser [mkToken NUMBER "1"; mkToken RPAREN ")"] 0)
                  (mkParser [mkToken NUMBER "1"; mkToken RPAREN ")"] 1)
                  (Num 1%float) eq_refl)).
Defined.

(** ** A line *)

(** X8.  A line that fails fails with one of seven exceptions: the
    SyntaxError of an illegal character, the SyntaxError of a token met
    where the closing parenthesis is expected, AttributeError (the end of
    the tokens met where a token is read), the NameError of an undefined
    variable, the NameError of a variable declared twice, TypeError (an
    operand that is None) or ZeroDivisionError.  ValueError is not among
    them: [float] accepts every NUMBER token. *)
Theorem X8_errors_of_a_line (text : string) (globals : gmap string PyValue)
    (e : exception) :
  (run_line text globals).1 = Raise e → line_error e ∧ e ≠ ValueError.
Proof.
  intros H%run_line_Raise_kinds. split; [done |].
  destruct H as [[c ->] | [(got & _ & ->) | [-> | [[name ->] | [[name ->] | [-> | ->]]]]]];
    done.
Qed.

Lemma X8_errors_of_a_line_witness :
  (run_line "1 / 0" ∅).1 = Raise ZeroDivisionError ∧
  (line_error ZeroDivisionError ∧ ZeroDivisionError ≠ ValueError).
Proof.
  split; [reflexivity |].
  exact (X8_errors_of_a_line "1 / 0" ∅ ZeroDivisionError eq_refl).
Defined.

(** X9.  Lines with variables.  A line whose tokens are those of
    [name := e], of [name = e] or of an expression [e] that does not begin
    with an identifier, where [e] is a derivation of the grammar with
    numbers, identifiers and parentheses, followed by any tokens that do
    not begin with one of the four operators (they are not read), does what
    [statement_run] says on the floats of the variables: the value of [e]
    by precedence and left association, NameError for a variable that is
    not bound, ZeroDivisionError for a zero divisor; a declaration of a
    bound name raises NameError and binds nothing, and otherwise the name is
    bound to the value, which is the result of the line. *)
Theorem X9_line_with_variables (s : statement) (suffix : list Token) (text : string)
    (env : gmap string float) :
  lex text = Return (statement_tokens s ++ suffix) →
  statement_read s = true →
  starts_with [PLUS; MINUS; MUL; DIV] suffix = false →
  run_line text (PyFloat <$> env) =
    (PyFloat <$> (statement_run s env).1, PyFloat <$> (statement_run s env).2).
Proof. apply run_line_statement. Qed.

Lemma X9_line_with_variables_witness :
  let s := S_assign "x" (VE_term (VT_binary
             (VT_factor (VF_paren (VE_binary (VE_term (VT_factor (VF_ident "y"))) Add
                                     (VT_factor (VF_number "2")))))
             Mul (VF_number "3"))) in
  let env : gmap string float := {[ "y" := 1%float ]} in
  lex "x = (y + 2) * 3 4" = Return (statement_tokens s ++ [mkToken NUMBER "4"]) ∧
  run_line "x = (y + 2) * 3 4" (PyFloat <$> env) =
    (Return (PyFloat 9%float), PyFloat <$> <["x" := 9%float]> env).
Proof.
  intros s env. split; [reflexivity |].
  exact (X9_line_with_variables s [mkToken NUMBER "4"] "x = (y + 2) * 3 4" env
           eq_refl eq_refl eq_refl).
Defined.

(** X10.  What a line stores, a later line reads: after [name = e], or
    [name := e] for a name that is not bound, where [e] evaluates to [x],
    the line [(name)] returns [x]; both lines print [x], and the variables
    after them are those before with [name] bound to [x]. *)
Theorem X10_store_then_read (s : statement) (name text1 text2 : string) (e : vexpression)
    (env : gmap string float) (x : float) :
  s = S_assign name e ∨ (s = S_declare name e ∧ env !! name = None) →
  lex text1 = Return (statement_tokens s) →
  lex text2 = Return [mkToken LPAREN "("; mkToken IDENT name; mkToken RPAREN ")"] →
  vexpression_value e env = Return x →
  run_lines [text1; text2] (PyFloat <$> env) =
    ([Return (PyFloat x); Return (PyFloat x)], PyFloat <$> <[name := x]> env).
Proof.
  intros Hs Hlex1 Hlex2 Hx.
  assert (is_exit text1 = false) as Hexit1.
  { destruct (is_exit text1) eqn:H; [| done].
    pose proof (is_exit_lex _ _ H Hlex1) as Hlen.
    destruct Hs as [-> | [-> _]]; simpl in Hlen; lia. }
  assert (is_exit text2 = false) as Hexit2.
  { destruct (is_exit text2) eqn:H; [| done].
    pose proof (is_exit_lex _ _ H Hlex2) as Hlen. simpl in Hlen. lia. }
  assert (statement_run s env = (Return x, <[name := x]> env)) as Hrun.
  { destruct Hs as [-> | [-> Hn]]; simpl; rewrite Hx; [done |].
    rewrite Hn. by rewrite bool_decide_eq_false_2 by (by intros [? ?]). }
  assert (run_line text1 (PyFloat <$> env) =
            (Return (PyFloat x), PyFloat <$> <[name := x]> env)) as H1.
  { rewrite (run_line_statement s [] text1 env).
    - by rewrite Hrun.
    - by rewrite app_nil_r.
    - by destruct Hs as [-> | [-> _]].
    - done. }
  assert (run_line text2 (PyFloat <$> <[name := x]> env) =
            (Return (PyFloat x), PyFloat <$> <[name := x]> env)) as H2.
  { rewrite (run_line_statement
               (S_expression (VE_term (VT_factor (VF_paren
                  (VE_term (VT_factor (VF_ident name))))))) [] text2); try done.
    simpl. by rewrite lookup_insert_eq. }
  rewrite run_lines_cons by done. rewrite H1. cbn [fst snd].
  rewrite run_lines_cons by done. rewrite H2. done.
Qed.

Lemma X10_store_then_read_witness :
  let e := VE_term (VT_factor (VF_number "5")) in
  lex "x := 5" = Return (statement_tokens (S_declare "x" e)) ∧
  lex "(x)" = Return [mkToken LPAREN "("; mkToken IDENT "x"; mkToken RPAREN ")"] ∧
  run_lines ["x := 5"; "(x)"] (PyFloat <$> ∅) =
    ([Return (PyFloat 5%float); Return (PyFloat 5%float)],
     PyFloat <$> <["x" := 5%float]> ∅).
Proof.
  intros e. split; [reflexivity |]. split; [reflexivity |].
  exact (X10_store_then_read (S_declare "x" e) "x" "x := 5" "(x)" e ∅ 5%float
           (or_intror (conj eq_refl eq_refl)) eq_refl eq_refl eq_refl).
Defined.

(** X11.  A line that fails changes nothing: the dictionary after it is the
    dictionary before it, and the loop goes on with the next line as if the
    failed line had not been there, but for the error it prints. *)
Theorem X11_failed_line_changes_nothing (text : string) (globals : gmap string PyValue)
    (e : exception) :
  (run_line text globals).1 = Raise e →
  (run_line text globals).2 = globals ∧
  (is_exit text = false →
   ∀ rest, run_lines (text :: rest) globals =
             (Raise e :: (run_lines rest globals).1, (run_lines rest globals).2)).
Proof.
  intros H. pose proof (run_line_Raise _ _ _ H) as Hg. split; [done |].
  intros Hexit rest. by rewrite run_lines_cons, H, Hg.
Qed.

Lemma X11_failed_line_changes_nothing_witness :
  (run_line "x := 1 / 0" ∅).1 = Raise ZeroDivisionError ∧
  (run_line "x := 1 / 0" ∅).2 = ∅.
Proof.
  split; [reflexivity |].
  exact (proj1 (X11_failed_line_changes_nothing "x := 1 / 0" ∅ ZeroDivisionError eq_refl)).
Defined.

(** X12.  A line that returns a value has bound one name to that very
    value, or has bound nothing: what the loop prints for an assignment is
    what the dictionary holds. *)
Theorem X12_result_is_what_is_stored (text : string) (globals : gmap string PyValue)
    (v : PyValue) :
  (run_line text globals).1 = Return v →
  (run_line text globals).2 = globals ∨
  ∃ name, (run_line text globals).2 = <[name := v]> globals.
Proof. apply run_line_Return. Qed.

Lemma X12_result_is_what_is_stored_witness :
  (run_line "x := 5" ∅).1 = Return (PyFloat 5%float) ∧
  ((run_line "x := 5" ∅).2 = ∅ ∨
   ∃ name, (run_line "x := 5" ∅).2 = <[name := PyFloat 5%float]> ∅).
Proof.
  split; [reflexivity |].
  exact (X12_result_is_what_is_stored "x := 5" ∅ (PyFloat 5%float) eq_refl).
Defined.

(** ** The dictionary *)

(** X13.  No name is ever removed: a name bound in the dictionary is bound
    after [visit] of any tree, and after any number of lines of the loop. *)
Theorem X13_names_are_never_removed (globals : gmap string PyValue) (name : string) :
  is_Some (globals !! name) →
  (∀ node, is_Some ((visit node globals).2 !! name)) ∧
  (∀ inputs, is_Some ((run_lines inputs globals).2 !! name)).
Proof.
  intros H. split.
  - intros node. by apply visit_keeps_names.
  - intros inputs. by apply run_lines_keeps_names.
Qed.

Lemma X13_names_are_never_removed_witness :
  is_Some (({[ "x" := PyFloat 1%float ]} : gmap string PyValue) !! "x") ∧
  (∀ inputs,
     is_Some ((run_lines inputs ({[ "x" := PyFloat 1%float ]} : gmap string PyValue)).2
                !! "x")).
Proof.
  assert (is_Some (({[ "x" := PyFloat 1%float ]} : gmap string PyValue) !! "x")) as H.
  { exists (PyFloat 1%float). reflexivity. }
  split; [exact H |].
  exact (proj2 (X13_names_are_never_removed {[ "x" := PyFloat 1%float ]} "x" H)).
Defined.

(** X14.  Floats only: on a tree with an operand in every place and one of
    the four operators in every BinOp, [visit] from a dictionary of floats
    returns a float or raises ZeroDivisionError or one of the two
    NameErrors, never TypeError, and leaves a dictionary of floats. *)
Theorem X14_complete_trees_give_floats (node : ASTNode) (globals : gmap string PyValue) :
  is_complete node = true → all_floats globals →
  all_floats (visit node globals).2 ∧
  match (visit node globals).1 with
  | Return v => ∃ x, v = PyFloat x
  | Raise e =>
      e = ZeroDivisionError ∨
      (∃ name, e = NameError ("Undefined variable: " +:+ name)) ∨
      (∃ name, e = NameError ("Variable '" +:+ name
                              +:+ "' already declared (use = to update)"))
  | OutOfFuel => False
  end.
Proof. apply visit_complete. Qed.

Lemma X14_complete_trees_give_floats_witness :
  is_complete (Assign "x" (BinOp (Num 1%float) PLUS (Num 2%float)) true) = true ∧
  all_floats (visit (Assign "x" (BinOp (Num 1%float) PLUS (Num 2%float)) true) ∅).2.
Proof.
  split; [reflexivity |].
  refine (proj1 (X14_complete_trees_give_floats
                   (Assign "x" (BinOp (Num 1%float) PLUS (Num 2%float)) true) ∅
                   eq_refl _)).
  intros name v H. rewrite lookup_empty in H. discriminate.
Defined.

(** ** The loop *)

(** X15.  The lines that end the loop are the empty line and the sixteen
    spellings of exit in lower and upper case, and no other: a blank before
    or after the word makes it a line of the language. *)
Theorem X15_sentinel_spelling (text : string) :
  is_exit text = true ↔
  text = "" ∨
  ∃ a b c d : ascii,
    text = String a (String b (String c (String d ""))) ∧
    a ∈ ["e"; "E"]%char ∧ b ∈ ["x"; "X"]%char ∧
    c ∈ ["i"; "I"]%char ∧ d ∈ ["t"; "T"]%char.
Proof. apply is_exit_spelling. Qed.

(** X16.  The loop over lines none of which ends it, followed by more
    lines, is the loop over the first lines, then the loop over the others
    from the dictionary the first left; it prints one result for each of
    the first lines; and a line that ends the loop cuts off all that
    follows it. *)
Theorem X16_loop_composition (l1 l2 : list string) (globals : gmap string PyValue) :
  forallb (λ text, negb (is_exit text)) l1 = true →
  run_lines (l1 ++ l2) globals =
    ((run_lines l1 globals).1 ++ (run_lines l2 (run_lines l1 globals).2).1,
     (run_lines l2 (run_lines l1 globals).2).2) ∧
  length (run_lines l1 globals).1 = length l1 ∧
  (∀ text, is_exit text = true →
     run_lines (l1 ++ text :: l2) globals = run_lines l1 globals).
Proof.
  intros H. split; [by apply run_lines_app |]. split; [by apply run_lines_length |].
  intros text Hexit. rewrite run_lines_app by done. simpl. rewrite Hexit. simpl.
  rewrite app_nil_r. by destruct (run_lines l1 globals).
Qed.

Lemma X16_loop_composition_witness :
  forallb (λ text, negb (is_exit text)) ["x := 1"; "x = 2"] = true ∧
  run_lines (["x := 1"; "x = 2"] ++ "Exit" :: ["x = 3"]) ∅ =
    run_lines ["x := 1"; "x = 2"] ∅.
Proof.
  split; [reflexivity |].
  exact (proj2 (proj2 (X16_loop_composition ["x := 1"; "x = 2"] ["x = 3"] ∅ eq_refl))
           "Exit" eq_refl).
Defined.

(** X17.  A line of spaces and tabs has no token, and [parse_statement]
    raises AttributeError on it (it reads the type of the token that
    [peek] does not find); the dictionary is left as it was. *)
Theorem X17_blank_line (text : string) (globals : gmap string PyValue) :
  string_forallb is_blank text = true →
  lex text = Return [] ∧ run_line text globals = (Raise AttributeError, globals).
Proof.
  intros H%lex_blanks. split; [done |]. unfold run_line. by rewrite H.
Qed.

Lemma X17_blank_line_witness :
  string_forallb is_blank "   " = true ∧
  lex "   " = Return [] ∧ run_line "   " ∅ = (Raise AttributeError, ∅).
Proof.
  split; [reflexivity |].
  exact (X17_blank_line "   " ∅ eq_refl).
Defined.

(** ** Tokens *)

(** X18.  The printed form tells the token, for the tokens of [lex]: two
    tokens whose types are names of [TOKEN_TYPES] and whose values are
    strings, and that print alike, have the same type and the same value.
    The restriction on the type is needed: with any strings as types, the
    type [A, B] with the value [C] prints as the type [A] with the value
    [B, C]. *)
Theorem X18_token_repr_injective :
  (∀ type1 type2 value1 value2 : string,
     type1 ∈ token_type_names → type2 ∈ token_type_names →
     Token_repr_of type1 value1 = Token_repr_of type2 value2 →
     type1 = type2 ∧ value1 = value2) ∧
  (∀ self other : Token, Token_repr self = Token_repr other → self = other) ∧
  Token_repr_of "A, B" "C" = Token_repr_of "A" "B, C".
Proof.
  split; [| split].
  - intros type1 type2 value1 value2 [k1 ->]%token_type_names_type_name
      [k2 ->]%token_type_names_type_name H.
    by apply Token_repr_of_type_name in H as [-> ->].
  - apply Token_repr_inj.
  - reflexivity.
Qed.

Lemma X18_token_repr_injective_witness :
  ("NUMBER" ∈ token_type_names ∧
   Token_repr_of "NUMBER" "1, 2" = "Token(NUMBER, 1, 2)") ∧
  "NUMBER" = "NUMBER" ∧ "1, 2" = "1, 2".
Proof.
  assert ("NUMBER" ∈ token_type_names) as H.
  { unfold token_type_names, TOKEN_TYPES. rewrite list_elem_of_fmap.
    exists (NUMBER, re_NUMBER). split; [reflexivity | left]. }
  split; [split; [exact H | reflexivity] |].
  exact (proj1 X18_token_repr_injective "NUMBER" "NUMBER" "1, 2" "1, 2" H H eq_refl).
Defined.

(** ** A parenthesis closed by the wrong token *)

(** X19.  A line that opens a parenthesis, goes on with an expression and
    then with a token that neither carries the expression on nor closes the
    parenthesis, raises the SyntaxError that names the closing parenthesis
    as expected and the type of the token met, and leaves the dictionary as
    it was. *)
Theorem X19_expected_closing_parenthesis (e : vexpression) (t : Token)
    (rest : list Token) (text : string) (globals : gmap string PyValue) :
  lex text = Return (mkToken LPAREN "(" :: vexpression_tokens e ++ t :: rest) →
  type t ∉ [PLUS; MINUS; MUL; DIV; RPAREN] →
  run_line text globals =
    (Raise (SyntaxError ("Expected RPAREN, got " +:+ type_name (type t))), globals).
Proof.
  intros Hlex Ht. unfold run_line. rewrite Hlex.
  rewrite parse_statement_expected_RPAREN; [done | | done].
  by eapply lex_numbers.
Qed.

Lemma X19_expected_closing_parenthesis_witness :
  lex "(1 + 2 3" =
    Return (mkToken LPAREN "("
            :: vexpression_tokens (VE_binary (VE_term (VT_factor (VF_number "1"))) Add
                                     (VT_factor (VF_number "2")))
            ++ mkToken NUMBER "3" :: []) ∧
  run_line "(1 + 2 3" ∅ = (Raise (SyntaxError "Expected RPAREN, got NUMBER"), ∅).
Proof.
  split; [reflexivity |].
  apply (X19_expected_closing_parenthesis
           (VE_binary (VE_term (VT_factor (VF_number "1"))) Add (VT_factor (VF_number "2")))
           (mkToken NUMBER "3") [] "(1 + 2 3" ∅ eq_refl).
  simpl. rewrite !elem_of_cons, elem_of_nil.
  intros [H | [H | [H | [H | [H | []]]]]]; discriminate.
Defined.
